(** * Password generator (package [password]): model and properties

    A shallow embedding of [password/generate.go].  Go strings are byte
    sequences, Go [int]s are 64-bit two's-complement integers, the random
    source is an [io.Reader] whose state is threaded explicitly, and every
    loop that Go leaves unbounded is driven by a fuel argument ([None]
    means that the fuel ran out before the Go code would have returned). *)

From Stdlib Require Import ZArith List Bool Ascii Lia Permutation.
From Stdlib Require String.
Import String.StringSyntax.
Import ListNotations.
Open Scope Z_scope.

(** ** Go data: bytes, strings, machine integers *)

(** A Go [string] is a read-only slice of bytes. *)
Definition gostring : Type := list ascii.

(** String literals of the source, as byte sequences. *)
Definition str (s : String.string) : gostring := String.list_ascii_of_string s.
Arguments str s%_string_scope.

(** [len(s)]: the number of bytes. *)
Definition len (s : gostring) : Z := Z.of_nat (List.length s).

(** The numeric value of a byte, and the conversion [byte(x)] of an
    integer, which keeps the low eight bits. *)
Definition byte_val (b : ascii) : Z := Z.of_N (N_of_ascii b).
Definition byte_of_Z (x : Z) : ascii := ascii_of_N (Z.to_N (x mod 256)).

(** Go's [int] on the 64-bit platforms the package is built for. *)
Definition min_int : Z := - 2 ^ 63.
Definition max_int : Z := 2 ^ 63 - 1.

(** Two's-complement wrap-around of an arithmetic result. *)
Definition wrap (z : Z) : Z := (z + 2 ^ 63) mod 2 ^ 64 - 2 ^ 63.

(** [string(b)] for a byte [b], as in [string(s[i])]: the UTF-8 encoding of
    the code point [b].  Below 0x80 that is the byte itself, from 0x80 on it
    is a two-byte sequence. *)
Definition string_of_byte (b : ascii) : gostring :=
  let v := byte_val b in
  if v <? 128 then [b]
  else [byte_of_Z (192 + v / 64); byte_of_Z (128 + v mod 64)].

(** [strings.HasPrefix] and [strings.Contains]. *)
Fixpoint HasPrefix (s prefix : gostring) : bool :=
  match prefix, s with
  | [], _ => true
  | _ :: _, [] => false
  | c :: prefix', d :: s' => Ascii.eqb c d && HasPrefix s' prefix'
  end.

Fixpoint Contains (s substr : gostring) : bool :=
  HasPrefix s substr ||
  match s with
  | [] => false
  | _ :: s' => Contains s' substr
  end.

(** ** Errors and results *)

(** Go error values, compared by identity: the four variables that the
    package exports, the two of package [io] that [io.ReadFull] tells apart,
    and any other value, which only a reader can bring in. *)
Inductive error : Type :=
| ErrExceedsTotalLength
| ErrLettersExceedsAvailable
| ErrDigitsExceedsAvailable
| ErrSymbolsExceedsAvailable
| EOF                        (* io.EOF *)
| ErrUnexpectedEOF           (* io.ErrUnexpectedEOF *)
| OtherError (id : nat).

(** What a call does once it stops: it returns its [(value, err)] pair, or it
    panics. *)
Inductive outcome (A : Type) : Type :=
| Returns (v : A) (err : option error)
| Panics.
Arguments Returns {A} v err.
Arguments Panics {A}.

(** The four errors raised by the validation at the head of [Generate]. *)
Definition precondition_error (e : error) : bool :=
  match e with
  | ErrExceedsTotalLength | ErrLettersExceedsAvailable
  | ErrDigitsExceedsAvailable | ErrSymbolsExceedsAvailable => true
  | EOF | ErrUnexpectedEOF | OtherError _ => false
  end.

(** ** The random source

    [io.Reader], seen one byte at a time: a read either delivers the next
    byte or reports an error value of the reader's choosing (any value, the
    package's own variables included), and leaves the reader in a new
    state. *)
Class Reader (R : Type) := Read : R -> (ascii + error) * R.

(** The result of running a call on a reader: the outcome together with the
    reader's state afterwards; [None] when the fuel ran out first. *)
Definition run (R A : Type) : Type := option (outcome A * R).

Section ReaderOps.
Context {R : Type} `{Reader R}.

(** [io.ReadFull] (the Go standard library's, through [io.ReadAtLeast])
    keeps reading until the buffer is full or a read reports an error, and
    returns that error as it is, except that an [io.EOF] met after some
    bytes had been read becomes [io.ErrUnexpectedEOF]. *)
Definition after_some_bytes (e : error) : error :=
  match e with
  | EOF => ErrUnexpectedEOF
  | _ => e
  end.

(** [io.ReadFull(r, buf)] with [len(buf) = k]: exactly [k] bytes, or the
    first error. *)
Fixpoint ReadFull (k : nat) (r : R) : (list ascii + error) * R :=
  match k with
  | O => (inl [], r)
  | S k' =>
    match Read r with
    | (inr e, r') => (inr e, r')
    | (inl b, r') =>
      match ReadFull k' r' with
      | (inr e, r'') => (inr (after_some_bytes e), r'')
      | (inl bs, r'') => (inl (b :: bs), r'')
      end
    end
  end.

(** The reader after [n] single-byte reads, and the outcome of the read
    that follows them. *)
Fixpoint advance (n : nat) (r : R) : R :=
  match n with
  | O => r
  | S n' => advance n' (snd (Read r))
  end.

Definition nth_read (n : nat) (r : R) : ascii + error := fst (Read (advance n r)).
End ReaderOps.

(** ** [crypto/rand.Int] and [math/big]

    Not part of the repository: [rand.Int(reader, max)] is the Go standard
    library's (crypto/rand/util.go, as of the go 1.16 that the repository's
    workflow pins).  It samples a uniform value in [[0, max)] by rejection
    over the smallest whole number of bytes: it panics for [max <= 0],
    reads nothing when 0 is the only value, and otherwise reads [k] bytes at
    a time, clears the surplus high bits of the first and starts over while
    the big-endian value is not below [max].  When [io.ReadFull] fails, the
    error that it reports is returned as it is. *)
Module rand.
Section WithReader.
Context {R : Type} `{Reader R}.

(** [big.Int.BitLen] of a non-negative value. *)
Definition BitLen (n : Z) : Z := if n <=? 0 then 0 else Z.log2 n + 1.

(** [big.Int.SetBytes]: big-endian unsigned integer. *)
Definition SetBytes (bs : list Z) : Z :=
  fold_left (fun acc b => acc * 256 + b) bs 0.

(** [bytes[0] &= uint8(int(1<<b) - 1)]. *)
Definition mask_first (b : Z) (bs : list Z) : list Z :=
  match bs with
  | [] => []
  | x :: t => Z.land x (2 ^ b - 1) :: t
  end.

(** The sampling loop [for { ... }] of [rand.Int]. *)
Fixpoint Int_loop (fuel : nat) (r : R) (max : Z) (k : nat) (b : Z) : run R Z :=
  match fuel with
  | O => None
  | S fuel' =>
    match ReadFull k r with
    | (inr err, r') => Some (Returns 0 (Some err), r')
    | (inl bytes, r') =>
      let n := SetBytes (mask_first b (map byte_val bytes)) in
      if n <? max then Some (Returns n None, r')
      else Int_loop fuel' r' max k b
    end
  end.

Definition Int (fuel : nat) (r : R) (max : Z) : run R Z :=
  if max <=? 0 then Some (Panics, r)
  else
    let n := max - 1 in
    let bitLen := BitLen n in
    if bitLen =? 0 then Some (Returns 0 None, r)
    else
      let k := (bitLen + 7) / 8 in
      let b := bitLen mod 8 in
      let b := if b =? 0 then 8 else b in
      Int_loop fuel r max (Z.to_nat k) b.
End WithReader.
End rand.

(** ** The package *)

Definition LowerLetters : gostring := str "abcdefghijklmnopqrstuvwxyz".
Definition UpperLetters : gostring := str "ABCDEFGHIJKLMNOPQRSTUVWXYZ".
Definition Digits : gostring := str "0123456789".
(** The Go literal escapes the backslash and the double quote (code 34). *)
Definition Symbols : gostring :=
  str "~!@#$%^&*()_+`-={}|[]\:" ++ [ascii_of_nat 34] ++ str "<>?,./".

(** The alphabets of a generator; its reader is threaded separately. *)
Record StatefulGenerator : Type := {
  lowerLetters : gostring;
  upperLetters : gostring;
  digits : gostring;
  symbols : gostring
}.

Record GeneratorInput : Type := {
  InLowerLetters : gostring;
  InUpperLetters : gostring;
  InDigits : gostring;
  InSymbols : gostring
}.

Definition or_default (s dflt : gostring) : gostring :=
  match s with
  | [] => dflt
  | _ => s
  end.

(** [NewStatefulGenerator]: [None] is the nil input; an empty alphabet is
    replaced by the built-in one.  The returned error is always nil. *)
Definition NewStatefulGenerator (i : option GeneratorInput) : StatefulGenerator :=
  let i := match i with
           | Some i => i
           | None => {| InLowerLetters := []; InUpperLetters := [];
                        InDigits := []; InSymbols := [] |}
           end in
  {| lowerLetters := or_default (InLowerLetters i) LowerLetters;
     upperLetters := or_default (InUpperLetters i) UpperLetters;
     digits := or_default (InDigits i) Digits;
     symbols := or_default (InSymbols i) Symbols |}.

Section Generator.
Context {R : Type} `{Reader R}.

(** [randomElement]: a random byte of [s], converted to a string. *)
Definition randomElement (fuel : nat) (r : R) (s : gostring) : run R gostring :=
  match rand.Int fuel r (len s) with
  | None => None
  | Some (Panics, r') => Some (Panics, r')
  | Some (Returns _ (Some err), r') => Some (Returns [] (Some err), r')
  | Some (Returns n None, r') =>
    match nth_error s (Z.to_nat n) with
    | Some b => Some (Returns (string_of_byte b) None, r')
    | None => Some (Panics, r')          (* index out of range *)
    end
  end.

(** [randomInsert]: [val] spliced into [s] at a random byte offset. *)
Definition randomInsert (fuel : nat) (r : R) (s val : gostring) : run R gostring :=
  match s with
  | [] => Some (Returns val None, r)
  | _ =>
    match rand.Int fuel r (len s + 1) with
    | None => None
    | Some (Panics, r') => Some (Panics, r')
    | Some (Returns _ (Some err), r') => Some (Returns [] (Some err), r')
    | Some (Returns n None, r') =>
      if n <=? len s then
        let i := Z.to_nat n in
        Some (Returns (firstn i s ++ val ++ skipn i s) None, r')
      else Some (Panics, r')             (* slice bounds out of range *)
    end
  end.

(** One of the three counted loops of [Generate]
    ([for i := 0; i < n; i++ { ... }]), which differ only in the alphabet
    and the bound.  A rejected draw runs [i--; continue], so the loop
    header's [i++] restores [i]. *)
Fixpoint phase (fuel : nat) (alphabet : gostring) (allowRepeat : bool)
         (n i : Z) (result : gostring) (r : R) : run R gostring :=
  match fuel with
  | O => None
  | S fuel' =>
    if i <? n then
      match randomElement fuel' r alphabet with
      | None => None
      | Some (Panics, r1) => Some (Panics, r1)
      | Some (Returns _ (Some err), r1) => Some (Returns [] (Some err), r1)
      | Some (Returns ch None, r1) =>
        if negb allowRepeat && Contains result ch then
          phase fuel' alphabet allowRepeat n (wrap (wrap (i - 1) + 1)) result r1
        else
          match randomInsert fuel' r1 result ch with
          | None => None
          | Some (Panics, r2) => Some (Panics, r2)
          | Some (Returns _ (Some err), r2) => Some (Returns [] (Some err), r2)
          | Some (Returns result' None, r2) =>
            phase fuel' alphabet allowRepeat n (wrap (i + 1)) result' r2
          end
      end
    else Some (Returns result None, r)
  end.

(** Sequencing of two phases: an error or a panic of the first ends the
    call (the empty string is returned with the error). *)
Definition and_then (m : run R gostring) (k : gostring -> R -> run R gostring)
  : run R gostring :=
  match m with
  | None => None
  | Some (Panics, r) => Some (Panics, r)
  | Some (Returns _ (Some err), r) => Some (Returns [] (Some err), r)
  | Some (Returns result None, r) => k result r
  end.

(** The method [Generate] of [StatefulGenerator]. *)
Definition Generate (fuel : nat) (g : StatefulGenerator)
           (length numDigits numSymbols : Z) (includeUpper allowRepeat : bool)
           (r : R) : run R gostring :=
  let letters :=
    if includeUpper then lowerLetters g ++ upperLetters g else lowerLetters g in
  let chars := wrap (wrap (length - numDigits) - numSymbols) in
  if chars <? 0 then Some (Returns [] (Some ErrExceedsTotalLength), r)
  else if negb allowRepeat && (len letters <? chars) then
    Some (Returns [] (Some ErrLettersExceedsAvailable), r)
  else if negb allowRepeat && (len (digits g) <? numDigits) then
    Some (Returns [] (Some ErrDigitsExceedsAvailable), r)
  else if negb allowRepeat && (len (symbols g) <? numSymbols) then
    Some (Returns [] (Some ErrSymbolsExceedsAvailable), r)
  else
    and_then (phase fuel letters allowRepeat chars 0 [] r) (fun result r1 =>
    and_then (phase fuel (digits g) allowRepeat numDigits 0 result r1) (fun result r2 =>
    phase fuel (symbols g) allowRepeat numSymbols 0 result r2)).
End Generator.

(** ** Regular expressions, as far as the policy checks use them

    The four patterns are built from character classes, concatenation, star
    and plus; every class is ASCII, so matching byte by byte agrees with
    matching rune by rune.  Matching is by derivatives. *)
Module regexp.

Inductive Regexp : Type :=
| NoMatch
| EmptyMatch
| CharClass (p : ascii -> bool)
| Concat (a b : Regexp)
| Alternate (a b : Regexp)
| Star (a : Regexp).

Definition Plus (a : Regexp) : Regexp := Concat a (Star a).

(** [.]: any character but the newline. *)
Definition AnyCharNotNL : Regexp :=
  CharClass (fun c => negb (Ascii.eqb c (ascii_of_nat 10))).

Fixpoint nullable (re : Regexp) : bool :=
  match re with
  | NoMatch => false
  | EmptyMatch => true
  | CharClass _ => false
  | Concat a b => nullable a && nullable b
  | Alternate a b => nullable a || nullable b
  | Star _ => true
  end.

Fixpoint deriv (c : ascii) (re : Regexp) : Regexp :=
  match re with
  | NoMatch => NoMatch
  | EmptyMatch => NoMatch
  | CharClass p => if p c then EmptyMatch else NoMatch
  | Concat a b =>
    Alternate (Concat (deriv c a) b) (if nullable a then deriv c b else NoMatch)
  | Alternate a b => Alternate (deriv c a) (deriv c b)
  | Star a => Concat (deriv c a) (Star a)
  end.

(** Does [re] match some prefix of [s]? *)
Fixpoint matchPrefix (re : Regexp) (s : gostring) : bool :=
  nullable re ||
  match s with
  | [] => false
  | c :: s' => matchPrefix (deriv c re) s'
  end.

(** [MatchString]: does [re] match some substring of [s]? *)
Fixpoint MatchString (re : Regexp) (s : gostring) : bool :=
  matchPrefix re s ||
  match s with
  | [] => false
  | _ :: s' => MatchString re s'
  end.

(** The language of an expression. *)
Inductive matches : Regexp -> gostring -> Prop :=
| M_empty : matches EmptyMatch []
| M_class p c : p c = true -> matches (CharClass p) [c]
| M_concat a b s t : matches a s -> matches b t -> matches (Concat a b) (s ++ t)
| M_alt_l a b s : matches a s -> matches (Alternate a b) s
| M_alt_r a b s : matches b s -> matches (Alternate a b) s
| M_star_nil a : matches (Star a) []
| M_star_app a s t : matches a s -> matches (Star a) t -> matches (Star a) (s ++ t).

End regexp.

(** ** Character classes and the policy check *)

Definition in_range (lo hi : nat) (c : ascii) : bool :=
  (lo <=? nat_of_ascii c)%nat && (nat_of_ascii c <=? hi)%nat.

(** [[:lower:]], [[:upper:]] and [[:digit:]] are the ASCII ranges. *)
Definition is_lower : ascii -> bool := in_range 97 122.
Definition is_upper : ascii -> bool := in_range 65 90.
Definition is_digit : ascii -> bool := in_range 48 57.
(** The negated class of [a-zA-Z0-9]. *)
Definition is_not_alnum (c : ascii) : bool :=
  negb (is_lower c || is_upper c || is_digit c).

Definition around (p : ascii -> bool) : regexp.Regexp :=
  regexp.Concat (regexp.Star regexp.AnyCharNotNL)
    (regexp.Concat (regexp.CharClass p) (regexp.Star regexp.AnyCharNotNL)).

Definition containsLower (s : gostring) : bool :=
  regexp.MatchString (around is_lower) s.

Definition containsUpper (s : gostring) : bool :=
  regexp.MatchString (around is_upper) s.

Definition containsDigit (s : gostring) : bool :=
  regexp.MatchString (around is_digit) s.

Definition containsSymbol (s : gostring) : bool :=
  regexp.MatchString (regexp.Plus (regexp.CharClass is_not_alnum)) s.

Definition isLegalPassword (p : gostring)
           (needsLower needsUpper needsDigit needsSymbol : bool) : bool :=
  if needsLower && negb (containsLower p) then false
  else if needsUpper && negb (containsUpper p) then false
  else if needsDigit && negb (containsDigit p) then false
  else if needsSymbol && negb (containsSymbol p) then false
  else true.

Section Policy.
Context {R : Type} `{Reader R}.

(** [GenerateWithPolicy]: regenerate until the result is legal. *)
Fixpoint GenerateWithPolicy (fuel : nat) (g : StatefulGenerator)
         (length numDigits numSymbols : Z) (includeUpper allowRepeat : bool)
         (needsLower needsUpper needsDigit needsSymbol : bool)
         (r : R) : run R gostring :=
  match fuel with
  | O => None
  | S fuel' =>
    match Generate fuel' g length numDigits numSymbols includeUpper allowRepeat r with
    | None => None
    | Some (Panics, r1) => Some (Panics, r1)
    | Some (Returns _ (Some err), r1) => Some (Returns [] (Some err), r1)
    | Some (Returns result None, r1) =>
      if isLegalPassword result needsLower needsUpper needsDigit needsSymbol
      then Some (Returns result None, r1)
      else GenerateWithPolicy fuel' g length numDigits numSymbols
             includeUpper allowRepeat
             needsLower needsUpper needsDigit needsSymbol r1
    end
  end.

(** [MustGenerate]: [Generate], with a panic in place of an error. *)
Definition MustGenerate (fuel : nat) (g : StatefulGenerator)
           (length numDigits numSymbols : Z) (includeUpper allowRepeat : bool)
           (r : R) : run R gostring :=
  match Generate fuel g length numDigits numSymbols includeUpper allowRepeat r with
  | Some (Returns _ (Some _), r1) => Some (Panics, r1)
  | other => other
  end.
End Policy.

(** The generator behind the package-level shortcuts. *)
Definition default_generator : StatefulGenerator := NewStatefulGenerator None.

(** ** The counting reader of the test suite *)

Record MockReader : Type := { Counter : Z }.

(** [data[i] = byte(atomic.AddInt64(&mr.Counter, 1))]; never an error. *)
#[export] Instance MockReader_Reader : Reader MockReader :=
  fun mr =>
    let c := wrap (Counter mr + 1) in
    (inl (byte_of_Z c), {| Counter := c |}).

(** A reader that delivers the same byte for ever (a source such as
    /dev/zero). *)
Record ConstReader : Type := { const_byte : ascii }.

#[export] Instance ConstReader_Reader : Reader ConstReader :=
  fun cr => (inl (const_byte cr), cr).

Definition zero_byte : ascii := ascii_of_nat 0.

(** ** Duplicate detection of the test suite

    [for _, ch := range s] decodes UTF-8: a byte that does not start a
    well-formed sequence yields the replacement rune U+FFFD and is skipped
    alone. *)
Definition RuneError : Z := 65533.

Definition between (lo hi : Z) (b : ascii) : bool :=
  (lo <=? byte_val b) && (byte_val b <=? hi).

(** The admissible second byte after the leading byte [b0] of a three- or
    four-byte sequence. *)
Definition second_ok (b0 b1 : ascii) : bool :=
  let x := byte_val b0 in
  if x =? 224 then between 160 191 b1
  else if x =? 237 then between 128 159 b1
  else if x =? 240 then between 144 191 b1
  else if x =? 244 then between 128 143 b1
  else between 128 191 b1.

Fixpoint runes (s : gostring) : list Z :=
  match s with
  | [] => []
  | b0 :: t =>
    let x := byte_val b0 in
    if x <? 128 then x :: runes t
    else
      match t with
      | [] => RuneError :: runes t
      | b1 :: t1 =>
        if between 194 223 b0 && between 128 191 b1 then
          (x mod 32 * 64 + byte_val b1 mod 64) :: runes t1
        else
          match t1 with
          | [] => RuneError :: runes t
          | b2 :: t2 =>
            if between 224 239 b0 && second_ok b0 b1 && between 128 191 b2 then
              (x mod 16 * 4096 + byte_val b1 mod 64 * 64 + byte_val b2 mod 64)
                :: runes t2
            else
              match t2 with
              | [] => RuneError :: runes t
              | b3 :: t3 =>
                if between 240 244 b0 && second_ok b0 b1
                   && between 128 191 b2 && between 128 191 b3 then
                  (x mod 8 * 262144 + byte_val b1 mod 64 * 4096
                   + byte_val b2 mod 64 * 64 + byte_val b3 mod 64) :: runes t3
                else RuneError :: runes t
              end
          end
      end
  end.

(** [testHasDuplicates]: [found] is the set of runes met so far. *)
Fixpoint hasDuplicates_from (found : list Z) (rs : list Z) : bool :=
  match rs with
  | [] => false
  | ch :: rest =>
    if existsb (Z.eqb ch) found then true
    else hasDuplicates_from (ch :: found) rest
  end.

Definition testHasDuplicates (s : gostring) : bool :=
  hasDuplicates_from [] (runes s).

(** ** Vocabulary of the statements *)

(** Values of Go's [int]. *)
Definition go_int (z : Z) : Prop := min_int <= z <= max_int.

(** Strings of ASCII characters only. *)
Definition is_ascii (c : ascii) : bool := byte_val c <? 128.
Definition ascii_string (s : gostring) : Prop := Forall (fun c => is_ascii c = true) s.

Definition all_alphabets (g : StatefulGenerator) : gostring :=
  lowerLetters g ++ upperLetters g ++ digits g ++ symbols g.

(** The letter alphabet of a call. *)
Definition letters_of (g : StatefulGenerator) (includeUpper : bool) : gostring :=
  if includeUpper then lowerLetters g ++ upperLetters g else lowerLetters g.

(** Insertion of [val] at byte offset [p]. *)
Definition insert_at (p : nat) (val s : gostring) : gostring :=
  firstn p s ++ val ++ skipn p s.

(** How many bytes of [s] belong to the alphabet [A]. *)
Definition mem (c : ascii) (A : gostring) : bool := existsb (Ascii.eqb c) A.
Definition count_in (A s : gostring) : nat :=
  List.length (filter (fun c => mem c A) s).

Section ReaderProperties.
Context {R : Type} `{Reader R}.

(** The source never reports an error, and every byte value keeps coming
    back. *)
Definition fair (r : R) : Prop :=
  forall n, (forall e, nth_read n r <> inr e) /\
            forall b, exists m, nth_read (n + m) r = inl b.

(** [e] is an error value that a call reading [r] can get from it: one that
    some read of [r] reports, as it is or after [io.ReadFull] has turned an
    [io.EOF] into [io.ErrUnexpectedEOF]. *)
Definition reports (r : R) (e : error) : Prop :=
  exists n e0, nth_read n r = inr e0 /\ (e = e0 \/ e = after_some_bytes e0).

(** The reader keeps to error values of its own: it never reports one of
    the four errors of the package's validation. *)
Definition foreign_errors (r : R) : Prop :=
  forall n e, nth_read n r = inr e -> precondition_error e = false.

(** The source never starves [rand.Int]: wherever the reader stands, a
    draw below any positive bound comes back. *)
Definition Int_total (r : R) : Prop :=
  forall n max, 0 < max ->
    exists fuel v r', rand.Int fuel (advance n r) max = Some (Returns v None, r').
End ReaderProperties.


(** The generator with the single letter [a] doubled, and the one with a
    letter alphabet [a] followed by e-acute (the bytes 61 C3 A9). *)
Definition doubled_letter_generator : StatefulGenerator :=
  NewStatefulGenerator (Some {| InLowerLetters := str "aa"; InUpperLetters := [];
                                InDigits := []; InSymbols := [] |}).

Definition accented_generator : StatefulGenerator :=
  NewStatefulGenerator
    (Some {| InLowerLetters := map byte_of_Z [97; 195; 169];
             InUpperLetters := []; InDigits := []; InSymbols := [] |}).

(** The generator of the test suite's custom-alphabet test. *)
Definition custom_generator : StatefulGenerator :=
  NewStatefulGenerator
    (Some {| InLowerLetters := str "abcde"; InUpperLetters := str "ABCDE";
             InDigits := str "01234"; InSymbols := str "!@#$%" |}).

(** The validation at the head of [Generate], on its own: the error it
    raises, if any. *)
Definition chars_of (length numDigits numSymbols : Z) : Z :=
  wrap (wrap (length - numDigits) - numSymbols).

Definition validate (g : StatefulGenerator) (length numDigits numSymbols : Z)
           (includeUpper allowRepeat : bool) : option error :=
  let chars := chars_of length numDigits numSymbols in
  if chars <? 0 then Some ErrExceedsTotalLength
  else if negb allowRepeat && (len (letters_of g includeUpper) <? chars)
  then Some ErrLettersExceedsAvailable
  else if negb allowRepeat && (len (digits g) <? numDigits)
  then Some ErrDigitsExceedsAvailable
  else if negb allowRepeat && (len (symbols g) <? numSymbols)
  then Some ErrSymbolsExceedsAvailable
  else None.

(** A fuel-indexed computation settles on [x]: from some amount of fuel
    on, it returns [x]. *)
Definition eventually {X : Type} (f : nat -> option X) (x : X) : Prop :=
  exists fuel0, forall fuel, (fuel0 <= fuel)%nat -> f fuel = Some x.

(** ** The package-level shortcuts

    [Generate], [GenerateWithPolicy] and [MustGenerate] of the package build
    the default generator ([NewStatefulGenerator(nil)], whose error is
    always nil) and call its method; the reader is the one of that
    generator. *)
Module pkg.
Section Shortcuts.
Context {R : Type} `{Reader R}.

Definition Generate (fuel : nat) (length numDigits numSymbols : Z)
           (includeUpper allowRepeat : bool) (r : R) : run R gostring :=
  Generate fuel (NewStatefulGenerator None) length numDigits numSymbols
           includeUpper allowRepeat r.

Definition GenerateWithPolicy (fuel : nat) (length numDigits numSymbols : Z)
           (includeUpper allowRepeat : bool)
           (needsLower needsUpper needsDigit needsSymbol : bool) (r : R)
  : run R gostring :=
  GenerateWithPolicy fuel (NewStatefulGenerator None) length numDigits numSymbols
                     includeUpper allowRepeat
                     needsLower needsUpper needsDigit needsSymbol r.

Definition MustGenerate (fuel : nat) (length numDigits numSymbols : Z)
           (includeUpper allowRepeat : bool) (r : R) : run R gostring :=
  match Generate fuel length numDigits numSymbols includeUpper allowRepeat r with
  | Some (Returns _ (Some _), r1) => Some (Panics, r1)
  | other => other
  end.
End Shortcuts.
End pkg.

(** A reader whose every read reports the same error. *)
Record FailingReader : Type := { failure : error }.

#[export] Instance FailingReader_Reader : Reader FailingReader :=
  fun fr => (inr (failure fr), fr).

Definition failing : FailingReader := {| failure := OtherError 0 |}.

(** A reader that plays back a script of bytes and errors, and reports
    [io.EOF] once the script is used up. *)
Definition ScriptReader : Type := list (ascii + error).

#[export] Instance ScriptReader_Reader : Reader ScriptReader :=
  fun sr =>
    match sr with
    | [] => (inr EOF, [])
    | x :: rest => (x, rest)
    end.


(** How many bytes of [s] satisfy [p]. *)
Definition count_class (p : ascii -> bool) (s : gostring) : Z :=
  len (filter p s).

Definition is_letter (c : ascii) : bool := is_lower c || is_upper c.

(** The input that hands a generator's own alphabets back to the
    constructor. *)
Definition input_of (g : StatefulGenerator) : GeneratorInput :=
  {| InLowerLetters := lowerLetters g; InUpperLetters := upperLetters g;
     InDigits := digits g; InSymbols := symbols g |}.

(** * Properties *)

Ltac break_match :=
  match goal with
  | H : context [match ?x with _ => _ end] |- _ => destruct x eqn:?
  | |- context [match ?x with _ => _ end] => destruct x eqn:?
  end.

Ltac inv H := inversion H; subst; clear H.

(** ** The tests of the repository, replayed on the model *)

Example test_exceeds_length :
  Generate 0 default_generator 0 1 0 true false {| Counter := 0 |}
    = Some (Returns [] (Some ErrExceedsTotalLength), {| Counter := 0 |}) /\
  Generate 0 default_generator 0 0 1 true false {| Counter := 0 |}
    = Some (Returns [] (Some ErrExceedsTotalLength), {| Counter := 0 |}).
Proof. split; reflexivity. Qed.

Example test_exceeds_letters_available :
  Generate 0 default_generator 1000 0 0 true false {| Counter := 0 |}
    = Some (Returns [] (Some ErrLettersExceedsAvailable), {| Counter := 0 |}).
Proof. reflexivity. Qed.

Example test_exceeds_digits_available :
  Generate 0 default_generator 52 11 0 true false {| Counter := 0 |}
    = Some (Returns [] (Some ErrDigitsExceedsAvailable), {| Counter := 0 |}).
Proof. reflexivity. Qed.

Example test_exceeds_symbols_available :
  Generate 0 default_generator 52 0 31 true false {| Counter := 0 |}
    = Some (Returns [] (Some ErrSymbolsExceedsAvailable), {| Counter := 0 |}).
Proof. reflexivity. Qed.

Example test_gen_lowercase :
  match Generate 100 default_generator 25 0 0 false true {| Counter := 0 |} with
  | Some (Returns res None, _) => existsb is_upper res = false /\ len res = 25
  | _ => False
  end.
Proof. vm_compute. split; reflexivity. Qed.

Example test_gen_no_repeats :
  match Generate 400 default_generator 52 10 30 false false {| Counter := 0 |} with
  | Some (Returns res None, _) => testHasDuplicates res = false /\ len res = 52
  | _ => False
  end.
Proof. vm_compute. split; reflexivity. Qed.

Example test_generate_custom :
  match Generate 400 custom_generator 52 10 10 false true {| Counter := 0 |} with
  | Some (Returns res None, _) =>
    forallb (fun c => existsb (Ascii.eqb c) (str "abcde01234!@#$%")) res = true
  | _ => False
  end.
Proof. vm_compute. reflexivity. Qed.

Example test_containsUpper :
  containsUpper (str "Maryhadalittlelamb") = true /\
  containsUpper (str "maryhadalittlelamb") = false.
Proof. split; reflexivity. Qed.

Example test_containsLower :
  containsLower (str "MARYHADALITTLELAMB") = false /\
  containsLower (str "maryhadalittlelamb") = true.
Proof. split; reflexivity. Qed.

Example test_containsDigits :
  containsDigit (str "MARYHADALITTLELAMB") = false /\
  containsDigit (str "maryhadalittlelamb1") = true.
Proof. split; reflexivity. Qed.

Example test_containsSymbol :
  containsSymbol (str "MARYHADALITTLELAMB") = false /\
  containsSymbol (str "mary}hadalittlelamb") = true /\
  containsSymbol [] = false.
Proof. repeat split; reflexivity. Qed.

Example test_isLegalPassword :
  isLegalPassword (str "MARYHADALITTLELAMB") true true true true = false /\
  isLegalPassword (str "MARYHADALITTLELAMB$") true true true true = false /\
  isLegalPassword (str "M4RYHADALITTLELAMB$") true true true true = false /\
  isLegalPassword (str "M4RYHADAlittleLAMB$") true true true true = true /\
  isLegalPassword (str "maryhadalittlelamb") true false false false = true /\
  isLegalPassword (str "MARYHADALITTLELAMB") true false false false = false /\
  isLegalPassword (str "MARYHADALITTLELAMB") false true false false = true /\
  isLegalPassword (str "maryhadalittlelamb") false true false false = false /\
  isLegalPassword (str "M4RYHADALITTLELAMB") false false true false = true /\
  isLegalPassword (str "maryhadalittlelamb") false false true false = false /\
  isLegalPassword (str "MaRYHADALITTLELAM&") false false false true = true /\
  isLegalPassword (str "maryhadalittlelamb") false false false true = false.
Proof. repeat split; reflexivity. Qed.

(** ** Machine integers *)

Lemma wrap_id z : go_int z -> wrap z = z.
Proof.
  unfold go_int, wrap, min_int, max_int; intros Hz.
  rewrite Z.mod_small; lia.
Qed.

Lemma wrap_sub_sub a b c : wrap (wrap (a - b) - c) = wrap (a - b - c).
Proof.
  unfold wrap.
  replace ((a - b + 2 ^ 63) mod 2 ^ 64 - 2 ^ 63 - c + 2 ^ 63)
    with ((a - b + 2 ^ 63) mod 2 ^ 64 - c) by lia.
  rewrite Zminus_mod_idemp_l.
  f_equal. f_equal. lia.
Qed.

Lemma chars_of_exact length numDigits numSymbols :
  go_int (length - numDigits - numSymbols) ->
  chars_of length numDigits numSymbols = length - numDigits - numSymbols.
Proof.
  intros Hr. unfold chars_of. rewrite wrap_sub_sub. now apply wrap_id.
Qed.

Lemma len_nonneg s : 0 <= len s.
Proof. unfold len. lia. Qed.

Lemma len_app s t : len (s ++ t) = len s + len t.
Proof. unfold len. rewrite length_app. lia. Qed.

(** ** The default alphabets *)

Lemma default_generator_alphabets :
  lowerLetters default_generator = LowerLetters /\
  upperLetters default_generator = UpperLetters /\
  digits default_generator = Digits /\
  symbols default_generator = Symbols.
Proof. repeat split. Qed.

(** ** Errors of the sampling layer *)

Section Errors.
Context {R : Type} `{Reader R}.

Lemma advance_add n m (r : R) : advance (n + m) r = advance m (advance n r).
Proof. revert r. induction n as [|n IH]; simpl; intros r; auto. Qed.

Lemma nth_read_advance n m (r : R) : nth_read n (advance m r) = nth_read (m + n) r.
Proof. unfold nth_read. now rewrite advance_add. Qed.

Lemma ReadFull_advance k (r : R) : exists m, snd (ReadFull k r) = advance m r.
Proof.
  revert r. induction k as [|k IH]; simpl; intros r.
  - now exists 0%nat.
  - destruct (Read r) as [[b|] r1] eqn:Hread.
    + destruct (IH r1) as (m & Hm). exists (S m). simpl. rewrite Hread. simpl.
      destruct (ReadFull k r1) as [[bs|] r2]; simpl in *; assumption.
    + exists 1%nat. simpl. now rewrite Hread.
Qed.

Lemma Int_loop_advance fuel (r : R) max k b o r' :
  rand.Int_loop fuel r max k b = Some (o, r') -> exists m, r' = advance m r.
Proof.
  revert r. induction fuel as [|fuel IH]; simpl; intros r Hrun; [discriminate|].
  destruct (ReadFull_advance k r) as (m1 & Hm1).
  destruct (ReadFull k r) as [[bytes|] r1]; simpl in Hm1; subst r1.
  - destruct (_ <? max).
    + inv Hrun. eauto.
    + apply IH in Hrun. destruct Hrun as (m & ->).
      exists (m1 + m)%nat. now rewrite advance_add.
  - inv Hrun. eauto.
Qed.

Lemma Int_advance fuel (r : R) max o r' :
  rand.Int fuel r max = Some (o, r') -> exists m, r' = advance m r.
Proof.
  unfold rand.Int. intros Hrun.
  destruct (max <=? 0); [inv Hrun; now exists 0%nat|].
  destruct (_ =? 0); [inv Hrun; now exists 0%nat|].
  eauto using Int_loop_advance.
Qed.

Lemma randomElement_advance fuel (r : R) s o r' :
  randomElement fuel r s = Some (o, r') -> exists m, r' = advance m r.
Proof.
  unfold randomElement. intros Hrun.
  destruct (rand.Int fuel r (len s)) as [[o1 r1]|] eqn:Hint; [|discriminate].
  apply Int_advance in Hint. destruct Hint as (m & ->). exists m.
  repeat (break_match; try discriminate); now inv Hrun.
Qed.

Lemma randomInsert_advance fuel (r : R) s val o r' :
  randomInsert fuel r s val = Some (o, r') -> exists m, r' = advance m r.
Proof.
  unfold randomInsert. intros Hrun. destruct s as [|c s].
  - inv Hrun. now exists 0%nat.
  - destruct (rand.Int fuel r (len (c :: s) + 1)) as [[o1 r1]|] eqn:Hint;
      [|discriminate].
    apply Int_advance in Hint. destruct Hint as (m & ->). exists m.
    repeat (break_match; try discriminate); now inv Hrun.
Qed.

Lemma phase_advance fuel A ar n : forall i res (r : R) o r',
  phase fuel A ar n i res r = Some (o, r') -> exists m, r' = advance m r.
Proof.
  induction fuel as [|fuel IH]; simpl; intros i res r o r' Hrun; [discriminate|].
  destruct (i <? n); [|inv Hrun; now exists 0%nat].
  destruct (randomElement fuel r A) as [[o1 r1]|] eqn:He; [|discriminate].
  apply randomElement_advance in He. destruct He as (m1 & ->).
  destruct o1 as [ch [e1|]|]; try (inv Hrun; eauto; fail).
  destruct (negb ar && Contains res ch).
  - apply IH in Hrun. destruct Hrun as (m & ->).
    exists (m1 + m)%nat. now rewrite advance_add.
  - destruct (randomInsert fuel (advance m1 r) res ch) as [[o2 r2]|] eqn:Hi;
      [|discriminate].
    apply randomInsert_advance in Hi. destruct Hi as (m2 & ->).
    rewrite <- advance_add in Hrun.
    destruct o2 as [res1 [e2|]|]; try (inv Hrun; eauto; fail).
    apply IH in Hrun. destruct Hrun as (m & ->).
    exists (m1 + m2 + m)%nat. now rewrite !advance_add.
Qed.

(** Where an error comes from: every error of the sampling layer is one
    that the reader reported. *)
Lemma reports_advance m (r : R) e : reports (advance m r) e -> reports r e.
Proof.
  intros (n & e0 & Hn & He). exists (m + n)%nat, e0.
  now rewrite <- nth_read_advance.
Qed.

Lemma after_some_bytes_idem e :
  after_some_bytes (after_some_bytes e) = after_some_bytes e.
Proof. now destruct e. Qed.

Lemma ReadFull_err k : forall (r : R) e r',
  ReadFull k r = (inr e, r') -> reports r e.
Proof.
  induction k as [|k IH]; simpl; intros r e r' Hrun; [discriminate|].
  destruct (Read r) as [[b|e1] r1] eqn:Hread.
  - destruct (ReadFull k r1) as [[bs|e2] r2] eqn:Hfull; inv Hrun.
    apply IH in Hfull. destruct Hfull as (n & e0 & Hn & He).
    exists (S n), e0. split.
    + unfold nth_read in *. simpl. now rewrite Hread.
    + right. destruct He as [->| ->]; [reflexivity | apply after_some_bytes_idem].
  - inv Hrun. exists 0%nat, e. split; [|now left].
    unfold nth_read. simpl. now rewrite Hread.
Qed.

Lemma Int_loop_err fuel r max k b v e r' :
  rand.Int_loop fuel r max k b = Some (Returns v (Some e), r') ->
  reports r e.
Proof.
  revert r. induction fuel as [|fuel IH]; simpl; intros r Hrun; [discriminate|].
  destruct (ReadFull_advance k r) as (m1 & Hm1).
  destruct (ReadFull k r) as [[bytes|e1] r1] eqn:Hfull; simpl in Hm1; subst r1.
  - break_match; [discriminate|]. eauto using reports_advance.
  - inv Hrun. eauto using ReadFull_err.
Qed.

Lemma Int_err fuel r max v e r' :
  rand.Int fuel r max = Some (Returns v (Some e), r') -> reports r e.
Proof.
  unfold rand.Int. intros Hrun.
  repeat (break_match; try discriminate); eauto using Int_loop_err.
Qed.

Lemma randomElement_err fuel r s v e r' :
  randomElement fuel r s = Some (Returns v (Some e), r') ->
  reports r e /\ v = [].
Proof.
  unfold randomElement. intros Hrun.
  repeat (break_match; try discriminate).
  inv Hrun. eauto using Int_err.
Qed.

Lemma randomInsert_err fuel r s val v e r' :
  randomInsert fuel r s val = Some (Returns v (Some e), r') ->
  reports r e /\ v = [].
Proof.
  unfold randomInsert. intros Hrun.
  repeat (break_match; try discriminate).
  inv Hrun. eauto using Int_err.
Qed.

Lemma phase_err fuel A ar n i res r v e r' :
  phase fuel A ar n i res r = Some (Returns v (Some e), r') ->
  reports r e /\ v = [].
Proof.
  revert i res r. induction fuel as [|fuel IH]; simpl; intros i res r Hrun;
    [discriminate|].
  destruct (i <? n); [|discriminate].
  destruct (randomElement fuel r A) as [[[ch [e1|]|] r1]|] eqn:He; try discriminate.
  - inv Hrun. apply randomElement_err in He. tauto.
  - apply randomElement_advance in He. destruct He as (m1 & ->).
    destruct (negb ar && Contains res ch).
    + apply IH in Hrun. destruct Hrun as [Hrep ->]. eauto using reports_advance.
    + destruct (randomInsert fuel (advance m1 r) res ch) as [[[res1 [e2|]|] r2]|] eqn:Hi;
        try discriminate.
      * inv Hrun. apply randomInsert_err in Hi. destruct Hi as [Hrep _].
        eauto using reports_advance.
      * apply randomInsert_advance in Hi. destruct Hi as (m2 & ->).
        apply IH in Hrun. destruct Hrun as [Hrep ->].
        eauto using reports_advance.
Qed.

(** [Generate] is its validation followed by the three phases. *)
Lemma Generate_validate fuel g length numDigits numSymbols includeUpper allowRepeat r :
  Generate fuel g length numDigits numSymbols includeUpper allowRepeat r =
  match validate g length numDigits numSymbols includeUpper allowRepeat with
  | Some e => Some (Returns [] (Some e), r)
  | None =>
    and_then (phase fuel (letters_of g includeUpper) allowRepeat
                    (chars_of length numDigits numSymbols) 0 [] r)
      (fun result r1 =>
         and_then (phase fuel (digits g) allowRepeat numDigits 0 result r1)
           (fun result r2 => phase fuel (symbols g) allowRepeat numSymbols 0 result r2))
  end.
Proof.
  unfold Generate, validate, chars_of, letters_of.
  set (letters := if includeUpper then _ else _).
  set (chars := wrap _).
  destruct (chars <? 0); [reflexivity|].
  destruct (negb allowRepeat && (len letters <? chars)); [reflexivity|].
  destruct (negb allowRepeat && (len (digits g) <? numDigits)); [reflexivity|].
  destruct (negb allowRepeat && (len (symbols g) <? numSymbols)); reflexivity.
Qed.

Lemma and_then_err (P : error -> Prop) (m : run R gostring) k v e r' :
  and_then m k = Some (Returns v (Some e), r') ->
  (forall res r1, m = Some (Returns res None, r1) ->
                  k res r1 = Some (Returns v (Some e), r') -> P e /\ v = []) ->
  (forall v1 e1 r1, m = Some (Returns v1 (Some e1), r1) -> P e1) ->
  P e /\ v = [].
Proof.
  unfold and_then. intros Hrun Hk Hm.
  destruct m as [[[v1 [e1|]|] r1]|]; try discriminate; [|eauto].
  inv Hrun. split; [eapply Hm; reflexivity | reflexivity].
Qed.

(** An error that [Generate] returns past its validation comes from the
    reader. *)
Lemma phases_err fuel g length numDigits numSymbols includeUpper allowRepeat r v e r' :
  validate g length numDigits numSymbols includeUpper allowRepeat = None ->
  Generate fuel g length numDigits numSymbols includeUpper allowRepeat r
    = Some (Returns v (Some e), r') ->
  reports r e /\ v = [].
Proof.
  intros Hval. rewrite Generate_validate, Hval. intros Hrun.
  eapply and_then_err; [exact Hrun | |].
  - intros res r1 Hm1 H1.
    apply phase_advance in Hm1. destruct Hm1 as (m1 & ->).
    eapply (and_then_err (reports r)); [exact H1 | |].
    + intros res2 r2 Hm2 H2.
      apply phase_advance in Hm2. destruct Hm2 as (m2 & ->).
      apply phase_err in H2. destruct H2 as [Hrep ->].
      eauto using reports_advance.
    + intros v1 e1 r2 H2. apply phase_err in H2. destruct H2 as [Hrep _].
      eauto using reports_advance.
  - intros v1 e1 r1 H1. eapply phase_err; eauto.
Qed.

Lemma foreign_reports (r : R) e :
  foreign_errors r -> reports r e -> precondition_error e = false.
Proof.
  intros Hfor (n & e0 & Hn & He). apply Hfor in Hn.
  destruct He as [->| ->]; [assumption | now destruct e0].
Qed.

Lemma validate_precondition_error g length numDigits numSymbols includeUpper allowRepeat e :
  validate g length numDigits numSymbols includeUpper allowRepeat = Some e ->
  precondition_error e = true.
Proof.
  unfold validate. intros Hv.
  repeat (break_match; try discriminate); now inv Hv.
Qed.
End Errors.

(** ** The validation of [Generate] *)

Section Validation.
Context {R : Type} `{Reader R}.

Lemma validate_fails fuel g length numDigits numSymbols includeUpper allowRepeat (r : R) e :
  validate g length numDigits numSymbols includeUpper allowRepeat = Some e ->
  Generate fuel g length numDigits numSymbols includeUpper allowRepeat r
    = Some (Returns [] (Some e), r).
Proof. intros Hv. now rewrite Generate_validate, Hv. Qed.

(** With a reader that keeps to errors of its own, a precondition error
    that [Generate] returns was raised by its validation. *)
Lemma precondition_error_validate fuel g length numDigits numSymbols
      includeUpper allowRepeat (r r' : R) v e :
  foreign_errors r ->
  Generate fuel g length numDigits numSymbols includeUpper allowRepeat r
    = Some (Returns v (Some e), r') ->
  precondition_error e = true ->
  validate g length numDigits numSymbols includeUpper allowRepeat = Some e
  /\ v = [] /\ r' = r.
Proof.
  intros Hfor Hrun He.
  destruct (validate g length numDigits numSymbols includeUpper allowRepeat)
    as [e0|] eqn:Hv.
  - rewrite (validate_fails _ _ _ _ _ _ _ _ _ Hv) in Hrun. now inv Hrun.
  - apply phases_err in Hrun; [|exact Hv].
    destruct Hrun as [Hrep _].
    apply (foreign_reports _ _ Hfor) in Hrep. congruence.
Qed.

(** An error that the validation raises is what [Generate] returns. *)
Lemma validate_returned fuel g length numDigits numSymbols
      includeUpper allowRepeat (r r' : R) v e e0 :
  Generate fuel g length numDigits numSymbols includeUpper allowRepeat r
    = Some (Returns v (Some e), r') ->
  validate g length numDigits numSymbols includeUpper allowRepeat = Some e0 ->
  e = e0 /\ v = [] /\ r' = r.
Proof.
  intros Hrun Hv.
  rewrite (validate_fails _ _ _ _ _ _ _ _ _ Hv) in Hrun. now inv Hrun.
Qed.

Lemma validate_exceeds_iff g length numDigits numSymbols includeUpper allowRepeat :
  validate g length numDigits numSymbols includeUpper allowRepeat
    = Some ErrExceedsTotalLength
  <-> chars_of length numDigits numSymbols < 0.
Proof.
  unfold validate.
  destruct (Z.ltb_spec (chars_of length numDigits numSymbols) 0).
  - tauto.
  - split; [|lia]. intros Hv.
    repeat (break_match; try discriminate).
Qed.
End Validation.

(** C7, as amended.  The built-in lowercase alphabet is the 26 letters a-z,
    the uppercase alphabet the 26 letters A-Z, the digits alphabet the 10
    digits 0-9, and the symbols alphabet has exactly 30 characters (the Go
    literal spends two more source characters on escapes). *)
Theorem default_alphabet_sizes :
  (List.length LowerLetters = 26%nat /\ LowerLetters = map ascii_of_nat (seq 97 26)) /\
  (List.length UpperLetters = 26%nat /\ UpperLetters = map ascii_of_nat (seq 65 26)) /\
  (List.length Digits = 10%nat /\ Digits = map ascii_of_nat (seq 48 10)) /\
  List.length Symbols = 30%nat.
Proof. repeat split. Qed.

(** C7, as stated, fails: the symbols alphabet does not have 32
    characters. *)
Lemma Symbols_size_is_not_32 : List.length Symbols <> 32%nat.
Proof. discriminate. Qed.

(** C5.  Without repeats, when the digits and symbols fit the length and the
    letters fit the letter alphabet but more digits are asked for than the
    digits alphabet holds, [Generate] fails with [ErrDigitsExceedsAvailable];
    so does [Generate(52, 11, 0, true, false)] on the default alphabets.
    (The first hypothesis only says that the length of the letter alphabet
    is an [int], as the length of every Go string is.) *)
Theorem Generate_digits_exceed_available
        {R : Type} `{Reader R} (fuel : nat) (g : StatefulGenerator)
        (length numDigits numSymbols : Z) (includeUpper : bool) (r : R) :
  len (letters_of g includeUpper) <= max_int ->
  numDigits + numSymbols <= length ->
  length - numDigits - numSymbols <= len (letters_of g includeUpper) ->
  len (digits g) < numDigits ->
  Generate fuel g length numDigits numSymbols includeUpper false r
    = Some (Returns [] (Some ErrDigitsExceedsAvailable), r)
  /\ Generate fuel default_generator 52 11 0 true false r
    = Some (Returns [] (Some ErrDigitsExceedsAvailable), r).
Proof.
  intros Hfit Hsum Hletters Hdigits. split; [|reflexivity].
  apply validate_fails. unfold validate.
  rewrite chars_of_exact by (unfold go_int, min_int, max_int in *; lia).
  destruct (Z.ltb_spec (length - numDigits - numSymbols) 0); [lia|].
  destruct (Z.ltb_spec (len (letters_of g includeUpper))
                       (length - numDigits - numSymbols)); [lia|].
  destruct (Z.ltb_spec (len (digits g)) numDigits); [reflexivity | lia].
Qed.

Lemma Generate_digits_exceed_available_witness :
  Generate 0 default_generator 52 11 0 true false {| Counter := 0 |}
    = Some (Returns [] (Some ErrDigitsExceedsAvailable), {| Counter := 0 |}).
Proof.
  apply (Generate_digits_exceed_available 0 default_generator 52 11 0 true
           {| Counter := 0 |}); vm_compute; congruence.
Defined.

(** C4.  With [length = 0] and both counts at the largest [int], the counts
    exceed the length, yet [length - numDigits - numSymbols] wraps around
    to 2, the check [chars < 0] passes and the call is rejected with
    [ErrDigitsExceedsAvailable] instead of [ErrExceedsTotalLength]; with
    repeats allowed the same arguments pass the whole validation. *)
Theorem ExceedsTotalLength_overflow :
  max_int + max_int > 0 /\
  chars_of 0 max_int max_int = 2 /\
  Generate 0 default_generator 0 max_int max_int true false {| Counter := 0 |}
    = Some (Returns [] (Some ErrDigitsExceedsAvailable), {| Counter := 0 |}) /\
  validate default_generator 0 max_int max_int true true = None.
Proof. repeat split; reflexivity. Qed.

(** ** Regular expressions: derivatives compute the language *)

Module regexp_facts.
Import regexp.

Lemma concat_inv a b s :
  matches (Concat a b) s ->
  exists s1 s2, s = s1 ++ s2 /\ matches a s1 /\ matches b s2.
Proof. intros Hm. inversion Hm; subst. eauto. Qed.

Lemma alternate_inv a b s :
  matches (Alternate a b) s -> matches a s \/ matches b s.
Proof. intros Hm. inversion Hm; subst; auto. Qed.

Lemma class_inv p s :
  matches (CharClass p) s -> exists c, s = [c] /\ p c = true.
Proof. intros Hm. inversion Hm; subst. eauto. Qed.

Lemma nullable_matches re : nullable re = true <-> matches re [].
Proof.
  induction re as [| |p|a IHa b IHb|a IHa b IHb|a IHa]; simpl; split; intros Hm;
    try discriminate; try (now constructor); try (now inversion Hm).
  - apply andb_true_iff in Hm. destruct Hm as [Ha Hb].
    change (@nil ascii) with (@nil ascii ++ []).
    constructor; [now apply IHa | now apply IHb].
  - apply concat_inv in Hm. destruct Hm as (s1 & s2 & Heq & H1 & H2).
    symmetry in Heq. destruct (app_eq_nil _ _ Heq) as [-> ->].
    apply andb_true_iff. split; [now apply IHa | now apply IHb].
  - apply orb_true_iff in Hm.
    destruct Hm; [apply M_alt_l; now apply IHa | apply M_alt_r; now apply IHb].
  - apply orb_true_iff.
    destruct (alternate_inv _ _ _ Hm); [left; now apply IHa | right; now apply IHb].
Qed.

Lemma star_cons a c s :
  matches (Star a) (c :: s) ->
  exists s1 s2, s = s1 ++ s2 /\ matches a (c :: s1) /\ matches (Star a) s2.
Proof.
  intros Hm. remember (Star a) as re eqn:Hre. remember (c :: s) as cs eqn:Hcs.
  revert s Hcs.
  induction Hm as [| | | | | |a0 s0 t0 Hs IHs Ht IHt]; intros u Hcs; try discriminate.
  inv Hre. destruct s0 as [|d s0].
  - simpl in Hcs. subst. now apply IHt.
  - simpl in Hcs. inv Hcs. now exists s0, t0.
Qed.

Lemma deriv_matches c re : forall s, matches (deriv c re) s <-> matches re (c :: s).
Proof.
  induction re as [| |p|a IHa b IHb|a IHa b IHb|a IHa]; simpl; intros s.
  - split; intros Hm; inversion Hm.
  - split; intros Hm; inversion Hm.
  - split; intros Hm.
    + destruct (p c) eqn:Hp; inversion Hm; subst. now constructor.
    + apply class_inv in Hm. destruct Hm as (c0 & Heq & Hp). inv Heq.
      rewrite Hp. constructor.
  - split; intros Hm.
    + destruct (alternate_inv _ _ _ Hm) as [Hl | Hr].
      * apply concat_inv in Hl. destruct Hl as (s1 & t1 & -> & Hs & Ht).
        apply IHa in Hs.
        change (c :: s1 ++ t1) with ((c :: s1) ++ t1). now constructor.
      * destruct (nullable a) eqn:Hn; [|now inversion Hr].
        apply nullable_matches in Hn. apply IHb in Hr.
        change (c :: s) with ([] ++ c :: s). now constructor.
    + apply concat_inv in Hm. destruct Hm as (s0 & t & Heq & Hs & Ht).
      destruct s0 as [|d s0]; simpl in Heq.
      * subst t. apply M_alt_r.
        apply nullable_matches in Hs. rewrite Hs. now apply IHb.
      * inv Heq. apply M_alt_l. constructor; [now apply IHa | assumption].
  - split; intros Hm.
    + destruct (alternate_inv _ _ _ Hm);
        [apply M_alt_l; now apply IHa | apply M_alt_r; now apply IHb].
    + destruct (alternate_inv _ _ _ Hm);
        [apply M_alt_l; now apply IHa | apply M_alt_r; now apply IHb].
  - split; intros Hm.
    + apply concat_inv in Hm. destruct Hm as (s0 & t & -> & Hs & Ht).
      apply IHa in Hs.
      change (c :: s0 ++ t) with ((c :: s0) ++ t). now constructor.
    + apply star_cons in Hm. destruct Hm as (s1 & s2 & -> & H1 & H2).
      constructor; [now apply IHa | assumption].
Qed.

Lemma matchPrefix_spec re : forall s,
  matchPrefix re s = true <-> exists p q, s = p ++ q /\ matches re p.
Proof.
  intros s. revert re. induction s as [|c s IH]; intros re; simpl.
  - rewrite orb_false_r, nullable_matches. split.
    + intros Hm. now exists [], [].
    + intros (p & q & Heq & Hm). symmetry in Heq.
      destruct (app_eq_nil _ _ Heq) as [-> _]. assumption.
  - rewrite orb_true_iff, nullable_matches, IH. split.
    + intros [Hm | (p & q & -> & Hm)].
      * now exists [], (c :: s).
      * exists (c :: p), q. split; [reflexivity | now apply deriv_matches].
    + intros (p & q & Heq & Hm). destruct p as [|d p].
      * now left.
      * simpl in Heq. inv Heq. right. exists p, q.
        split; [reflexivity | now apply deriv_matches].
Qed.

Lemma MatchString_spec re : forall s,
  MatchString re s = true <-> exists a p q, s = a ++ p ++ q /\ matches re p.
Proof.
  induction s as [|c s IH]; cbn [MatchString].
  - rewrite orb_false_r, matchPrefix_spec. split.
    + intros (p & q & Heq & Hm). now exists [], p, q.
    + intros (a & p & q & Heq & Hm). symmetry in Heq.
      destruct (app_eq_nil _ _ Heq) as [-> Heq'].
      exists p, q. now split.
  - rewrite orb_true_iff, matchPrefix_spec, IH. split.
    + intros [(p & q & Heq & Hm) | (a & p & q & -> & Hm)].
      * now exists [], p, q.
      * now exists (c :: a), p, q.
    + intros (a & p & q & Heq & Hm). destruct a as [|d a].
      * left. now exists p, q.
      * simpl in Heq. inv Heq. right. now exists a, p, q.
Qed.
End regexp_facts.

(** ** The class checks read off the bytes *)

Lemma around_matches p s :
  regexp.matches (around p) s -> exists c, In c s /\ p c = true.
Proof.
  unfold around. intros Hm.
  apply regexp_facts.concat_inv in Hm. destruct Hm as (s1 & t1 & -> & _ & H2).
  apply regexp_facts.concat_inv in H2. destruct H2 as (s2 & t2 & -> & H3 & _).
  apply regexp_facts.class_inv in H3. destruct H3 as (c & -> & Hp).
  exists c. split; [|assumption].
  apply in_or_app. right. now left.
Qed.

Lemma plus_class_matches p s :
  regexp.matches (regexp.Plus (regexp.CharClass p)) s -> exists c, In c s /\ p c = true.
Proof.
  unfold regexp.Plus. intros Hm.
  apply regexp_facts.concat_inv in Hm. destruct Hm as (s1 & t1 & -> & H1 & _).
  apply regexp_facts.class_inv in H1. destruct H1 as (c & -> & Hp).
  exists c. split; [now left | assumption].
Qed.

Lemma MatchString_around p s :
  regexp.MatchString (around p) s = existsb p s.
Proof.
  apply eq_true_iff_eq.
  rewrite regexp_facts.MatchString_spec, existsb_exists. split.
  - intros (a & m & q & -> & Hm).
    destruct (around_matches _ _ Hm) as (c & Hin & Hp).
    exists c. split; [|assumption]. apply in_or_app. right. apply in_or_app. now left.
  - intros (c & Hin & Hp).
    destruct (in_split _ _ Hin) as (a & q & ->).
    exists a, [c], q. split; [reflexivity|].
    unfold around. change [c] with ([] ++ [c] ++ []).
    repeat constructor. assumption.
Qed.

Lemma MatchString_plus_class p s :
  regexp.MatchString (regexp.Plus (regexp.CharClass p)) s = existsb p s.
Proof.
  apply eq_true_iff_eq.
  rewrite regexp_facts.MatchString_spec, existsb_exists. split.
  - intros (a & m & q & -> & Hm).
    destruct (plus_class_matches _ _ Hm) as (c & Hin & Hp).
    exists c. split; [|assumption]. apply in_or_app. right. apply in_or_app. now left.
  - intros (c & Hin & Hp).
    destruct (in_split _ _ Hin) as (a & q & ->).
    exists a, [c], q. split; [reflexivity|].
    unfold regexp.Plus. change [c] with ([c] ++ []).
    repeat constructor. assumption.
Qed.

Lemma isLegalPassword_true p needsLower needsUpper needsDigit needsSymbol :
  isLegalPassword p needsLower needsUpper needsDigit needsSymbol = true ->
  (needsLower = true -> existsb is_lower p = true) /\
  (needsUpper = true -> existsb is_upper p = true) /\
  (needsDigit = true -> existsb is_digit p = true) /\
  (needsSymbol = true -> existsb is_not_alnum p = true).
Proof.
  unfold isLegalPassword, containsLower, containsUpper, containsDigit, containsSymbol.
  rewrite !MatchString_around, MatchString_plus_class.
  destruct needsLower, needsUpper, needsDigit, needsSymbol;
    destruct (existsb is_lower p), (existsb is_upper p),
             (existsb is_digit p), (existsb is_not_alnum p);
    simpl; intros Hl; try discriminate; repeat split; auto.
Qed.

(** C3.  A string that [GenerateWithPolicy] returns with a nil error meets
    every requested flag: it holds a lowercase letter if [needsLower], an
    uppercase letter if [needsUpper], an ASCII digit if [needsDigit], and a
    character outside [A-Za-z0-9] if [needsSymbol], whatever symbol alphabet
    the generator was configured with. *)
Theorem GenerateWithPolicy_meets_policy
        {R : Type} `{Reader R} (fuel : nat) (g : StatefulGenerator)
        (length numDigits numSymbols : Z) (includeUpper allowRepeat : bool)
        (needsLower needsUpper needsDigit needsSymbol : bool)
        (r r' : R) (result : gostring) :
  GenerateWithPolicy fuel g length numDigits numSymbols includeUpper allowRepeat
                     needsLower needsUpper needsDigit needsSymbol r
    = Some (Returns result None, r') ->
  (needsLower = true -> exists c, In c result /\ is_lower c = true) /\
  (needsUpper = true -> exists c, In c result /\ is_upper c = true) /\
  (needsDigit = true -> exists c, In c result /\ is_digit c = true) /\
  (needsSymbol = true ->
   exists c, In c result /\ is_lower c = false /\ is_upper c = false /\ is_digit c = false).
Proof.
  revert r. induction fuel as [|fuel IH]; simpl; intros r Hrun; [discriminate|].
  destruct (Generate fuel g length numDigits numSymbols includeUpper allowRepeat r)
    as [[[res [e|]|] r1]|]; try discriminate.
  destruct (isLegalPassword res needsLower needsUpper needsDigit needsSymbol) eqn:Hlegal;
    [|eauto].
  inv Hrun. apply isLegalPassword_true in Hlegal.
  destruct Hlegal as (Hl & Hu & Hd & Hs).
  repeat split; intros Hneed;
    [apply Hl in Hneed | apply Hu in Hneed | apply Hd in Hneed | apply Hs in Hneed];
    apply existsb_exists in Hneed; destruct Hneed as (c & Hin & Hc);
    exists c; split; auto.
  unfold is_not_alnum in Hc. apply negb_true_iff in Hc.
  apply orb_false_iff in Hc. destruct Hc as [Hc Hdg].
  apply orb_false_iff in Hc. tauto.
Qed.

Lemma GenerateWithPolicy_meets_policy_witness :
  (true = true -> exists c, In c (str "b0q2i$s^eukwcymAgCoE") /\ is_lower c = true) /\
  (true = true -> exists c, In c (str "b0q2i$s^eukwcymAgCoE") /\ is_upper c = true) /\
  (true = true -> exists c, In c (str "b0q2i$s^eukwcymAgCoE") /\ is_digit c = true) /\
  (true = true ->
   exists c, In c (str "b0q2i$s^eukwcymAgCoE") /\
             is_lower c = false /\ is_upper c = false /\ is_digit c = false).
Proof.
  apply (GenerateWithPolicy_meets_policy 100 default_generator 20 2 2 true false
           true true true true {| Counter := 0 |} {| Counter := 39 |}).
  vm_compute. reflexivity.
Defined.

(** ** Strings *)

Lemma byte_val_range c : 0 <= byte_val c < 256.
Proof.
  unfold byte_val. pose proof (N_ascii_bounded c). lia.
Qed.

Lemma byte_val_inj c d : byte_val c = byte_val d -> c = d.
Proof.
  unfold byte_val. intros Heq. apply N2Z.inj in Heq.
  rewrite <- (ascii_N_embedding c), <- (ascii_N_embedding d). now f_equal.
Qed.

Lemma string_of_byte_ascii c : is_ascii c = true -> string_of_byte c = [c].
Proof. unfold is_ascii, string_of_byte. now intros ->. Qed.

Lemma Contains_single s c : Contains s [c] = true <-> In c s.
Proof.
  induction s as [|d s IH]; simpl.
  - split; [discriminate | tauto].
  - rewrite orb_true_iff, IH, andb_true_iff.
    destruct s; rewrite Ascii.eqb_eq; intuition congruence.
Qed.

Lemma Contains_single_false s c : Contains s [c] = false <-> ~ In c s.
Proof.
  rewrite <- Contains_single. destruct (Contains s [c]); intuition congruence.
Qed.

Lemma mem_In c A : mem c A = true <-> In c A.
Proof.
  unfold mem. rewrite existsb_exists. split.
  - intros (d & Hin & Heq). apply Ascii.eqb_eq in Heq. now subst.
  - intros Hin. exists c. split; [assumption | apply Ascii.eqb_refl].
Qed.

Lemma insert_at_length p val s : len (insert_at p val s) = len s + len val.
Proof.
  unfold insert_at. rewrite !len_app.
  rewrite <- (firstn_skipn p s) at 3. rewrite len_app. lia.
Qed.

Lemma insert_at_In p c s x : In x (insert_at p [c] s) <-> x = c \/ In x s.
Proof.
  unfold insert_at. rewrite <- (firstn_skipn p s) at 3.
  rewrite !in_app_iff. simpl. intuition congruence.
Qed.

Lemma insert_at_NoDup p c s : NoDup s -> ~ In c s -> NoDup (insert_at p [c] s).
Proof.
  intros Hnd Hnot. unfold insert_at. simpl.
  apply (NoDup_Add (a := c) (l := firstn p s ++ skipn p s)).
  - apply Add_app.
  - rewrite firstn_skipn. now split.
Qed.

Lemma insert_at_count A p c s :
  count_in A (insert_at p [c] s) = (count_in A s + if mem c A then 1 else 0)%nat.
Proof.
  unfold count_in, insert_at.
  rewrite <- (firstn_skipn p s) at 3.
  rewrite !filter_app, !length_app. simpl.
  destruct (mem c A); simpl; lia.
Qed.

(** ** What the sampling layer returns *)

Section Sampling.
Context {R : Type} `{Reader R}.

Lemma SetBytes_nonneg bs : Forall (fun b => 0 <= b) bs -> 0 <= rand.SetBytes bs.
Proof.
  unfold rand.SetBytes. intros Hall.
  assert (Hacc : 0 <= 0) by lia. revert Hacc. generalize 0 at 2 4 as acc.
  induction Hall as [|b bs Hb Hall IH]; simpl; intros acc Hacc; [assumption|].
  apply IH. lia.
Qed.

Lemma masked_bytes_nonneg b bytes :
  Forall (fun x => 0 <= x) (rand.mask_first b (map byte_val bytes)).
Proof.
  assert (Hall : Forall (fun x => 0 <= x) (map byte_val bytes)).
  { apply Forall_forall. intros x Hin. apply in_map_iff in Hin.
    destruct Hin as (c & <- & _). apply byte_val_range. }
  destruct (map byte_val bytes) as [|x t]; simpl; [constructor|].
  inv Hall. constructor; [|assumption].
  apply Z.land_nonneg. now left.
Qed.

Lemma Int_loop_range fuel r max k b n r' :
  rand.Int_loop fuel r max k b = Some (Returns n None, r') -> 0 <= n < max.
Proof.
  revert r. induction fuel as [|fuel IH]; simpl; intros r Hrun; [discriminate|].
  destruct (ReadFull k r) as [[bytes|] r1]; [|discriminate].
  destruct (Z.ltb_spec (rand.SetBytes (rand.mask_first b (map byte_val bytes))) max).
  - inv Hrun. split; [|assumption].
    apply SetBytes_nonneg, masked_bytes_nonneg.
  - eauto.
Qed.

Lemma Int_range fuel r max n r' :
  rand.Int fuel r max = Some (Returns n None, r') -> 0 <= n < max.
Proof.
  unfold rand.Int. intros Hrun.
  destruct (Z.leb_spec max 0); [discriminate|].
  destruct (rand.BitLen (max - 1) =? 0).
  - inv Hrun. lia.
  - eauto using Int_loop_range.
Qed.

Lemma randomElement_returns fuel r s ch r' :
  randomElement fuel r s = Some (Returns ch None, r') ->
  exists c, In c s /\ ch = string_of_byte c.
Proof.
  unfold randomElement. intros Hrun.
  destruct (rand.Int fuel r (len s)) as [[[n [e|]|] r1]|]; try discriminate.
  destruct (nth_error s (Z.to_nat n)) as [c|] eqn:Hnth; [|discriminate].
  inv Hrun. exists c. split; [eapply nth_error_In; eauto | reflexivity].
Qed.

Lemma randomInsert_returns fuel r s val res r' :
  randomInsert fuel r s val = Some (Returns res None, r') ->
  exists p, (p <= List.length s)%nat /\ res = insert_at p val s.
Proof.
  unfold randomInsert. intros Hrun. destruct s as [|c s].
  - inv Hrun. exists 0%nat. split; [simpl; lia|].
    unfold insert_at. simpl. now rewrite app_nil_r.
  - destruct (rand.Int fuel r (len (c :: s) + 1)) as [[[n [e|]|] r1]|] eqn:Hint;
      try discriminate.
    apply Int_range in Hint.
    destruct (Z.leb_spec n (len (c :: s))); [|discriminate].
    inv Hrun. exists (Z.to_nat n). split; [unfold len in *; lia | reflexivity].
Qed.

(** The loop rule.  A property of the loop counter and the string built so
    far that every accepted draw preserves holds when the loop is left. *)
Lemma phase_invariant (A : gostring) (ar : bool) (n : Z)
      (P : Z -> gostring -> Prop) :
  n <= max_int ->
  (forall i res c p,
      0 <= i < n -> P i res -> In c A ->
      (ar = false -> Contains res (string_of_byte c) = false) ->
      (p <= List.length res)%nat ->
      P (i + 1) (insert_at p (string_of_byte c) res)) ->
  forall fuel i res r res' r',
    0 <= i -> P i res ->
    phase fuel A ar n i res r = Some (Returns res' None, r') ->
    P (Z.max i n) res'.
Proof.
  intros Hn Hstep.
  induction fuel as [|fuel IH]; simpl; intros i res r res' r' Hi HP Hrun;
    [discriminate|].
  destruct (Z.ltb_spec i n) as [Hlt|Hge].
  - destruct (randomElement fuel r A) as [[[ch [e|]|] r1]|] eqn:Hel;
      try discriminate.
    apply randomElement_returns in Hel. destruct Hel as (c & Hin & ->).
    destruct (negb ar && Contains res (string_of_byte c)) eqn:Hdup.
    + rewrite (wrap_id (i - 1)), (wrap_id (i - 1 + 1)) in Hrun
        by (unfold go_int, min_int, max_int in *; lia).
      replace (i - 1 + 1) with i in Hrun by lia. eauto.
    + destruct (randomInsert fuel r1 res (string_of_byte c))
        as [[[res1 [e|]|] r2]|] eqn:Hins; try discriminate.
      apply randomInsert_returns in Hins. destruct Hins as (p & Hp & ->).
      rewrite wrap_id in Hrun by (unfold go_int, min_int, max_int in *; lia).
      replace (Z.max i n) with (Z.max (i + 1) n) by lia.
      eapply IH; [lia | | exact Hrun].
      apply Hstep; [lia | assumption | assumption | | assumption].
      intros ->. simpl in Hdup. assumption.
  - inv Hrun. now replace (Z.max i n) with i by lia.
Qed.
End Sampling.

(** ** What the phases preserve *)

Section Phases.
Context {R : Type} `{Reader R}.

(** The loop rule for properties that do not mention the counter. *)
Lemma phase_preserves (A : gostring) (ar : bool) (n : Z) (P : gostring -> Prop) :
  (forall res c p,
      P res -> In c A ->
      (ar = false -> Contains res (string_of_byte c) = false) ->
      (p <= List.length res)%nat ->
      P (insert_at p (string_of_byte c) res)) ->
  forall fuel i res r res' r',
    P res ->
    phase fuel A ar n i res r = Some (Returns res' None, r') ->
    P res'.
Proof.
  intros Hstep.
  induction fuel as [|fuel IH]; simpl; intros i res r res' r' HP Hrun;
    [discriminate|].
  destruct (i <? n).
  - destruct (randomElement fuel r A) as [[[ch [e|]|] r1]|] eqn:Hel;
      try discriminate.
    apply randomElement_returns in Hel. destruct Hel as (c & Hin & ->).
    destruct (negb ar && Contains res (string_of_byte c)) eqn:Hdup; [eauto|].
    destruct (randomInsert fuel r1 res (string_of_byte c))
      as [[[res1 [e|]|] r2]|] eqn:Hins; try discriminate.
    apply randomInsert_returns in Hins. destruct Hins as (p & Hp & ->).
    eapply IH; [|exact Hrun].
    apply Hstep; [assumption | assumption | | assumption].
    intros ->. simpl in Hdup. assumption.
  - now inv Hrun.
Qed.

Lemma ascii_string_In A c : ascii_string A -> In c A -> is_ascii c = true.
Proof. unfold ascii_string. rewrite Forall_forall. auto. Qed.

(** Every byte of the result was there before or comes from the
    alphabet. *)
Lemma phase_incl fuel A ar n i res r res' r' :
  ascii_string A ->
  phase fuel A ar n i res r = Some (Returns res' None, r') ->
  forall x, In x res' -> In x res \/ In x A.
Proof.
  intros HA Hrun.
  eapply (phase_preserves A ar n (fun s => forall x, In x s -> In x res \/ In x A));
    [ | | exact Hrun]; cbv beta.
  - intros s c p Hs Hc _ _ x Hx.
    rewrite (string_of_byte_ascii c) in Hx by eauto using ascii_string_In.
    apply insert_at_In in Hx. destruct Hx as [-> | Hx]; auto.
  - auto.
Qed.

(** Without repeats a duplicate-free string stays duplicate-free. *)
Lemma phase_NoDup fuel A n i res r res' r' :
  ascii_string A -> NoDup res ->
  phase fuel A false n i res r = Some (Returns res' None, r') ->
  NoDup res'.
Proof.
  intros HA Hnd Hrun.
  eapply (phase_preserves A false n (@NoDup ascii)); [ | exact Hnd | exact Hrun].
  intros s c p Hs Hc Hfresh _.
  rewrite (string_of_byte_ascii c) in * by eauto using ascii_string_In.
  apply insert_at_NoDup; [assumption|].
  apply Contains_single_false. auto.
Qed.

(** The loop adds one byte for each of its [n - i] rounds. *)
Lemma phase_length fuel A ar n i res r res' r' :
  ascii_string A -> n <= max_int -> 0 <= i ->
  phase fuel A ar n i res r = Some (Returns res' None, r') ->
  len res' = len res + Z.max 0 (n - i).
Proof.
  intros HA Hn Hi Hrun.
  assert (Hend : len res' = len res + (Z.max i n - i)); [|lia].
  eapply (phase_invariant A ar n (fun j s => len s = len res + (j - i)) Hn);
    [ | exact Hi | | exact Hrun]; cbv beta; [|lia].
  intros j s c p Hj Hs Hc _ _.
  rewrite (string_of_byte_ascii c) by eauto using ascii_string_In.
  rewrite insert_at_length. unfold len at 2. simpl. lia.
Qed.

Lemma and_then_returns (m : run R gostring) k s r' :
  and_then m k = Some (Returns s None, r') ->
  exists res1 r1, m = Some (Returns res1 None, r1) /\ k res1 r1 = Some (Returns s None, r').
Proof.
  unfold and_then. intros Hrun.
  destruct m as [[[res1 [e|]|] r1]|]; try discriminate. eauto.
Qed.

(** A successful call passed the validation and ran its three phases. *)
Lemma Generate_returns_inv fuel g length numDigits numSymbols includeUpper allowRepeat
      r s r' :
  Generate fuel g length numDigits numSymbols includeUpper allowRepeat r
    = Some (Returns s None, r') ->
  validate g length numDigits numSymbols includeUpper allowRepeat = None /\
  exists res1 r1 res2 r2,
    phase fuel (letters_of g includeUpper) allowRepeat
          (chars_of length numDigits numSymbols) 0 [] r = Some (Returns res1 None, r1) /\
    phase fuel (digits g) allowRepeat numDigits 0 res1 r1 = Some (Returns res2 None, r2) /\
    phase fuel (symbols g) allowRepeat numSymbols 0 res2 r2 = Some (Returns s None, r').
Proof.
  rewrite Generate_validate.
  destruct (validate g length numDigits numSymbols includeUpper allowRepeat);
    [discriminate|].
  intros Hrun. split; [reflexivity|].
  apply and_then_returns in Hrun. destruct Hrun as (res1 & r1 & H1 & Hrun).
  apply and_then_returns in Hrun. destruct Hrun as (res2 & r2 & H2 & H3).
  now exists res1, r1, res2, r2.
Qed.

Lemma ascii_alphabets g includeUpper :
  ascii_string (all_alphabets g) ->
  ascii_string (letters_of g includeUpper) /\
  ascii_string (digits g) /\ ascii_string (symbols g).
Proof.
  unfold ascii_string, all_alphabets, letters_of. rewrite !Forall_app.
  intros (Hl & Hu & Hd & Hs). destruct includeUpper; repeat split; auto.
  apply Forall_app. now split.
Qed.

Lemma letters_in_alphabets g includeUpper x :
  In x (letters_of g includeUpper) -> In x (all_alphabets g).
Proof.
  unfold letters_of, all_alphabets. rewrite !in_app_iff.
  destruct includeUpper; [rewrite in_app_iff|]; tauto.
Qed.

Lemma Generate_NoDup fuel g length numDigits numSymbols includeUpper r s r' :
  ascii_string (all_alphabets g) ->
  Generate fuel g length numDigits numSymbols includeUpper false r
    = Some (Returns s None, r') ->
  NoDup s.
Proof.
  intros Hasc Hrun.
  destruct (ascii_alphabets g includeUpper Hasc) as (HL & HD & HS).
  apply Generate_returns_inv in Hrun.
  destruct Hrun as (_ & res1 & r1 & res2 & r2 & H1 & H2 & H3).
  eapply phase_NoDup; [exact HS | | exact H3].
  eapply phase_NoDup; [exact HD | | exact H2].
  eapply phase_NoDup; [exact HL | constructor | exact H1].
Qed.

Lemma Generate_incl fuel g length numDigits numSymbols includeUpper allowRepeat r s r' :
  ascii_string (all_alphabets g) ->
  Generate fuel g length numDigits numSymbols includeUpper allowRepeat r
    = Some (Returns s None, r') ->
  forall x, In x s -> In x (all_alphabets g).
Proof.
  intros Hasc Hrun x Hx.
  destruct (ascii_alphabets g includeUpper Hasc) as (HL & HD & HS).
  apply Generate_returns_inv in Hrun.
  destruct Hrun as (_ & res1 & r1 & res2 & r2 & H1 & H2 & H3).
  unfold all_alphabets. rewrite !in_app_iff.
  destruct (phase_incl _ _ _ _ _ _ _ _ _ HS H3 x Hx) as [Hx2|]; [|tauto].
  destruct (phase_incl _ _ _ _ _ _ _ _ _ HD H2 x Hx2) as [Hx1|]; [|tauto].
  destruct (phase_incl _ _ _ _ _ _ _ _ _ HL H1 x Hx1) as [[]|Hl].
  apply letters_in_alphabets in Hl. unfold all_alphabets in Hl.
  rewrite !in_app_iff in Hl. tauto.
Qed.

Lemma wrap_range z : go_int (wrap z).
Proof.
  unfold go_int, wrap, min_int, max_int.
  pose proof (Z.mod_pos_bound (z + 2 ^ 63) (2 ^ 64)). lia.
Qed.

Lemma validate_chars_nonneg g length numDigits numSymbols includeUpper allowRepeat :
  validate g length numDigits numSymbols includeUpper allowRepeat = None ->
  0 <= chars_of length numDigits numSymbols.
Proof.
  unfold validate.
  destruct (Z.ltb_spec (chars_of length numDigits numSymbols) 0); [discriminate | lia].
Qed.

(** The length of a result: the letters, then the digits and the symbols
    that were asked for, a negative count standing for none. *)
Lemma Generate_length fuel g length numDigits numSymbols includeUpper allowRepeat r s r' :
  ascii_string (all_alphabets g) ->
  numDigits <= max_int -> numSymbols <= max_int ->
  Generate fuel g length numDigits numSymbols includeUpper allowRepeat r
    = Some (Returns s None, r') ->
  len s = chars_of length numDigits numSymbols
          + Z.max 0 numDigits + Z.max 0 numSymbols.
Proof.
  intros Hasc Hd Hs Hrun.
  destruct (ascii_alphabets g includeUpper Hasc) as (HL & HD & HS).
  apply Generate_returns_inv in Hrun.
  destruct Hrun as (Hval & res1 & r1 & res2 & r2 & H1 & H2 & H3).
  apply validate_chars_nonneg in Hval.
  apply phase_length in H1; [| assumption | apply wrap_range | lia].
  apply phase_length in H2; [| assumption | assumption | lia].
  apply phase_length in H3; [| assumption | assumption | lia].
  rewrite H3, H2, H1. unfold len at 1. simpl. lia.
Qed.
End Phases.

(** ** Duplicates, as the test suite counts them *)

Lemma forallb_ascii_string s : forallb is_ascii s = true -> ascii_string s.
Proof.
  unfold ascii_string. rewrite forallb_forall, Forall_forall. auto.
Qed.

Lemma runes_ascii s : ascii_string s -> runes s = map byte_val s.
Proof.
  induction 1 as [|c s Hc Hs IH]; simpl; [reflexivity|].
  unfold is_ascii in Hc. now rewrite Hc, IH.
Qed.

Lemma hasDuplicates_from_false found rs :
  hasDuplicates_from found rs = false <->
  NoDup rs /\ forall x, In x rs -> ~ In x found.
Proof.
  revert found. induction rs as [|ch rest IH]; intros found; simpl.
  - split; [split; [constructor | tauto] | reflexivity].
  - destruct (existsb (Z.eqb ch) found) eqn:Hex.
    + split; [discriminate|]. intros (_ & Hnot). exfalso.
      apply existsb_exists in Hex. destruct Hex as (y & Hin & Heq).
      apply Z.eqb_eq in Heq. subst y. apply (Hnot ch); auto.
    + rewrite IH. split.
      * intros (Hnd & Hnot). split.
        -- constructor; [|assumption]. intros Hin. apply (Hnot ch Hin). now left.
        -- intros x [<- | Hin] Hf.
           ++ assert (Ht : existsb (Z.eqb ch) found = true); [|congruence].
              apply existsb_exists. exists ch. split; [assumption | apply Z.eqb_refl].
           ++ apply (Hnot x Hin). now right.
      * intros (Hnd & Hnot). inv Hnd. split; [assumption|].
        intros x Hin [<- | Hf]; [contradiction|].
        apply (Hnot x); auto.
Qed.

Lemma NoDup_map_byte_val s : NoDup s -> NoDup (map byte_val s).
Proof.
  induction 1 as [|c s Hnot Hnd IH]; simpl; constructor; [|assumption].
  intros Hin. apply in_map_iff in Hin. destruct Hin as (d & Heq & Hd).
  apply byte_val_inj in Heq. now subst.
Qed.

Lemma testHasDuplicates_ascii s :
  ascii_string s -> NoDup s -> testHasDuplicates s = false.
Proof.
  intros Hasc Hnd. unfold testHasDuplicates.
  apply hasDuplicates_from_false. rewrite (runes_ascii s Hasc).
  split; [now apply NoDup_map_byte_val | auto].
Qed.

Lemma default_alphabets_ascii : ascii_string (all_alphabets default_generator).
Proof. apply forallb_ascii_string. reflexivity. Qed.

(** C2, as amended.  For a generator whose alphabets are ASCII, a string
    that [Generate] returns with a nil error under [allowRepeat = false]
    holds no character twice: no byte occurs twice, and the duplicate check
    of the test suite finds nothing. *)
Theorem Generate_no_repeats
        {R : Type} `{Reader R} (fuel : nat) (g : StatefulGenerator)
        (length numDigits numSymbols : Z) (includeUpper : bool)
        (r r' : R) (s : gostring) :
  ascii_string (all_alphabets g) ->
  Generate fuel g length numDigits numSymbols includeUpper false r
    = Some (Returns s None, r') ->
  NoDup s /\ testHasDuplicates s = false.
Proof.
  intros Hasc Hrun.
  assert (Hnd : NoDup s) by eauto using Generate_NoDup.
  split; [assumption|].
  apply testHasDuplicates_ascii; [|assumption].
  apply Forall_forall. intros x Hx.
  eapply ascii_string_In; [exact Hasc|].
  eapply Generate_incl; eauto.
Qed.

Lemma Generate_no_repeats_witness :
  NoDup (str "b0q2i$s^eukwcymAgCoE") /\
  testHasDuplicates (str "b0q2i$s^eukwcymAgCoE") = false.
Proof.
  apply (Generate_no_repeats 100 default_generator 20 2 2 true
           {| Counter := 0 |} {| Counter := 39 |}).
  - exact default_alphabets_ascii.
  - vm_compute. reflexivity.
Defined.

(** C2, as stated, fails for an alphabet outside ASCII.  With the letters
    [a] and e-acute (bytes 61 C3 A9), [Generate(3, 0, 0, false, false)] on
    the counting reader returns the bytes C2 61 A9 C3 83: the draws are
    single bytes re-encoded as runes, and the last insertion splits one of
    them.  Ranging over the result yields U+FFFD twice. *)
Lemma Generate_repeats_outside_ascii :
  Generate 100 accented_generator 3 0 0 false false {| Counter := 0 |}
    = Some (Returns (map byte_of_Z [194; 97; 169; 195; 131]) None, {| Counter := 9 |}) /\
  runes (map byte_of_Z [194; 97; 169; 195; 131]) = [65533; 97; 65533; 195] /\
  testHasDuplicates (map byte_of_Z [194; 97; 169; 195; 131]) = true.
Proof. vm_compute. repeat split. Qed.

(** ** Runs that settle *)

Section Settling.
Context {R : Type} `{Reader R}.

Lemma Int_loop_mono fuel fuel' (r : R) max k b x :
  (fuel <= fuel')%nat ->
  rand.Int_loop fuel r max k b = Some x -> rand.Int_loop fuel' r max k b = Some x.
Proof.
  revert fuel' r. induction fuel as [|fuel IH]; intros fuel' r Hle Hrun;
    [discriminate|].
  destruct fuel' as [|fuel']; [lia|]. simpl in *.
  destruct (ReadFull k r) as [[bytes|] r1]; [|assumption].
  destruct (_ <? max); [assumption|].
  apply IH; [lia | assumption].
Qed.

Lemma Int_settles fuel (r : R) max x :
  rand.Int fuel r max = Some x -> eventually (fun f => rand.Int f r max) x.
Proof.
  intros Hrun. exists fuel. intros fuel' Hle. revert Hrun. unfold rand.Int.
  destruct (max <=? 0); [auto|]. destruct (_ =? 0); [auto|].
  now apply Int_loop_mono.
Qed.

Lemma Int_total_advance m (r : R) : Int_total r -> Int_total (advance m r).
Proof.
  intros Htot n max Hmax. rewrite <- advance_add. now apply Htot.
Qed.

Lemma Int_total_settles (r : R) max :
  Int_total r -> 0 < max ->
  exists v m, 0 <= v < max /\
              eventually (fun f => rand.Int f r max) (Returns v None, advance m r).
Proof.
  intros Htot Hmax. destruct (Htot 0%nat max Hmax) as (fuel & v & r' & Hrun).
  simpl in Hrun.
  destruct (Int_advance _ _ _ _ _ Hrun) as (m & ->).
  exists v, m. split; [eauto using Int_range | eauto using Int_settles].
Qed.

Lemma eventually_both {X Y : Type} (f : nat -> option X) (g : nat -> option Y) x y :
  eventually f x -> eventually g y ->
  exists fuel0, forall fuel, (fuel0 <= fuel)%nat -> f fuel = Some x /\ g fuel = Some y.
Proof.
  intros (f1 & H1) (f2 & H2). exists (Nat.max f1 f2). intros fuel Hle.
  split; [apply H1 | apply H2]; lia.
Qed.

Lemma randomElement_settles (r r1 : R) s v c :
  eventually (fun f => rand.Int f r (len s)) (Returns v None, r1) ->
  nth_error s (Z.to_nat v) = Some c ->
  eventually (fun f => randomElement f r s) (Returns (string_of_byte c) None, r1).
Proof.
  intros (fuel0 & Hint) Hnth. exists fuel0. intros fuel Hle.
  unfold randomElement. now rewrite (Hint fuel Hle), Hnth.
Qed.

Lemma randomInsert_settles (r r1 : R) s val v :
  s <> [] ->
  eventually (fun f => rand.Int f r (len s + 1)) (Returns v None, r1) ->
  0 <= v <= len s ->
  eventually (fun f => randomInsert f r s val)
             (Returns (insert_at (Z.to_nat v) val s) None, r1).
Proof.
  intros Hne (fuel0 & Hint) Hv. exists fuel0. intros fuel Hle.
  unfold randomInsert. destruct s as [|c s]; [contradiction|].
  rewrite (Hint fuel Hle).
  destruct (Z.leb_spec v (len (c :: s))); [reflexivity | lia].
Qed.

Lemma randomInsert_empty fuel (r : R) val :
  randomInsert fuel r [] val = Some (Returns (insert_at 0 val []) None, r).
Proof. unfold insert_at. simpl. now rewrite app_nil_r. Qed.

(** The three ways through one round of a phase. *)
Lemma phase_done A ar n i res (r : R) :
  n <= i -> eventually (fun f => phase f A ar n i res r) (Returns res None, r).
Proof.
  intros Hle. exists 1%nat. intros [|fuel] Hf; [lia|]. simpl.
  destruct (Z.ltb_spec i n); [lia | reflexivity].
Qed.

Lemma phase_accepts A ar n i res (r r1 r2 : R) ch res1 X :
  0 <= i < n -> n <= max_int ->
  eventually (fun f => randomElement f r A) (Returns ch None, r1) ->
  negb ar && Contains res ch = false ->
  eventually (fun f => randomInsert f r1 res ch) (Returns res1 None, r2) ->
  eventually (fun f => phase f A ar n (i + 1) res1 r2) X ->
  eventually (fun f => phase f A ar n i res r) X.
Proof.
  intros Hi Hn Hel Hfresh Hins (f3 & Hnext).
  destruct (eventually_both _ _ _ _ Hel Hins) as (f12 & H12).
  exists (S (Nat.max f12 f3)). intros [|fuel] Hle; [lia|]. simpl.
  destruct (Z.ltb_spec i n); [|lia].
  destruct (H12 fuel) as [-> Hi2]; [lia|]. rewrite Hfresh, Hi2.
  rewrite wrap_id by (unfold go_int, min_int, max_int in *; lia).
  apply Hnext. lia.
Qed.

Lemma phase_rejects A n i res (r r1 : R) ch X :
  0 <= i < n -> n <= max_int ->
  eventually (fun f => randomElement f r A) (Returns ch None, r1) ->
  Contains res ch = true ->
  eventually (fun f => phase f A false n i res r1) X ->
  eventually (fun f => phase f A false n i res r) X.
Proof.
  intros Hi Hn (f1 & Hel) Hdup (f2 & Hnext).
  exists (S (Nat.max f1 f2)). intros [|fuel] Hle; [lia|]. simpl.
  destruct (Z.ltb_spec i n); [|lia].
  rewrite Hel by lia. rewrite Hdup. simpl.
  rewrite (wrap_id (i - 1)), (wrap_id (i - 1 + 1))
    by (unfold go_int, min_int, max_int in *; lia).
  replace (i - 1 + 1) with i by lia. apply Hnext. lia.
Qed.

Lemma Generate_settles g length numDigits numSymbols includeUpper allowRepeat
      (r r1 r2 r3 : R) res1 res2 s :
  validate g length numDigits numSymbols includeUpper allowRepeat = None ->
  eventually (fun f => phase f (letters_of g includeUpper) allowRepeat
                             (chars_of length numDigits numSymbols) 0 [] r)
             (Returns res1 None, r1) ->
  eventually (fun f => phase f (digits g) allowRepeat numDigits 0 res1 r1)
             (Returns res2 None, r2) ->
  eventually (fun f => phase f (symbols g) allowRepeat numSymbols 0 res2 r2)
             (Returns s None, r3) ->
  eventually (fun f => Generate f g length numDigits numSymbols includeUpper allowRepeat r)
             (Returns s None, r3).
Proof.
  intros Hval (f1 & H1) (f2 & H2) (f3 & H3).
  exists (Nat.max f1 (Nat.max f2 f3)). intros fuel Hle.
  rewrite Generate_validate, Hval.
  rewrite H1 by lia. simpl. rewrite H2 by lia. simpl. apply H3. lia.
Qed.
End Settling.

(** ** With repeats allowed, on a source that never starves [rand.Int] *)

Section WithRepeats.
Context {R : Type} `{Reader R}.

Lemma nth_error_below (s : gostring) v :
  0 <= v < len s -> exists c, nth_error s (Z.to_nat v) = Some c.
Proof.
  intros Hv. destruct (nth_error s (Z.to_nat v)) as [c|] eqn:Hnth; [eauto|].
  apply nth_error_None in Hnth. unfold len in Hv. lia.
Qed.

Lemma len_pos_nonempty (s : gostring) : s <> [] -> 0 < len s.
Proof. destruct s; [contradiction | unfold len; simpl; lia]. Qed.

Lemma randomInsert_total (r : R) s val :
  Int_total r ->
  exists p m, (p <= List.length s)%nat /\
              eventually (fun f => randomInsert f r s val)
                         (Returns (insert_at p val s) None, advance m r).
Proof.
  intros Htot. destruct s as [|c s].
  - exists 0%nat, 0%nat. split; [simpl; lia|].
    exists 0%nat. intros fuel _. apply randomInsert_empty.
  - destruct (Int_total_settles r (len (c :: s) + 1) Htot) as (v & m & Hv & Hint).
    { pose proof (len_nonneg (c :: s)). lia. }
    exists (Z.to_nat v), m. split; [unfold len in Hv; lia|].
    apply randomInsert_settles; [discriminate | assumption | lia].
Qed.

Lemma phase_repeat_settles A n :
  n <= max_int ->
  forall k i res (r : R),
    Z.to_nat (n - i) = k -> 0 <= i -> (i < n -> A <> []) -> Int_total r ->
    exists res' m,
      eventually (fun f => phase f A true n i res r) (Returns res' None, advance m r).
Proof.
  intros Hn. induction k as [|k IH]; intros i res r Hk Hi HA Htot.
  - exists res, 0%nat. apply phase_done. lia.
  - assert (Hlt : i < n) by lia.
    destruct (Int_total_settles r (len A) Htot) as (v & m1 & Hv & Hint).
    { apply len_pos_nonempty. auto. }
    destruct (nth_error_below A v Hv) as (c & Hc).
    pose proof (randomElement_settles _ _ _ _ _ Hint Hc) as Hel.
    destruct (randomInsert_total (advance m1 r) res (string_of_byte c))
      as (p & m2 & Hp & Hins); [now apply Int_total_advance|].
    destruct (IH (i + 1) (insert_at p (string_of_byte c) res) (advance m2 (advance m1 r)))
      as (res' & m3 & Hnext); [lia | lia | auto | |].
    { now do 2 apply Int_total_advance. }
    exists res', (m1 + m2 + m3)%nat. rewrite !advance_add.
    eapply phase_accepts; eauto.
Qed.

Lemma validate_repeat g length numDigits numSymbols includeUpper :
  0 <= chars_of length numDigits numSymbols ->
  validate g length numDigits numSymbols includeUpper true = None.
Proof.
  intros Hc. unfold validate.
  destruct (Z.ltb_spec (chars_of length numDigits numSymbols) 0); [lia | reflexivity].
Qed.

Lemma NewStatefulGenerator_nonempty i includeUpper :
  letters_of (NewStatefulGenerator i) includeUpper <> [] /\
  digits (NewStatefulGenerator i) <> [] /\
  symbols (NewStatefulGenerator i) <> [].
Proof.
  assert (Hd : forall s d, d <> [] -> or_default s d <> []).
  { intros [|c s] d Hne; simpl; [assumption | discriminate]. }
  unfold letters_of. simpl. repeat split.
  - destruct includeUpper.
    + intros Heq. apply app_eq_nil in Heq. destruct Heq as [Heq _].
      revert Heq. apply Hd. discriminate.
    + apply Hd. discriminate.
  - apply Hd. discriminate.
  - apply Hd. discriminate.
Qed.

(** On such a source a call that allows repeats returns, whatever its
    counts, once the letters count is not negative. *)
Lemma Generate_repeat_settles i length numDigits numSymbols includeUpper (r : R) :
  Int_total r ->
  numDigits <= max_int -> numSymbols <= max_int ->
  0 <= chars_of length numDigits numSymbols ->
  exists s m,
    eventually (fun f => Generate f (NewStatefulGenerator i) length numDigits numSymbols
                                  includeUpper true r)
               (Returns s None, advance m r).
Proof.
  intros Htot Hd Hs Hc.
  destruct (NewStatefulGenerator_nonempty i includeUpper) as (HL & HD & HS).
  destruct (phase_repeat_settles (letters_of (NewStatefulGenerator i) includeUpper)
              (chars_of length numDigits numSymbols) (proj2 (wrap_range _))
              _ 0 [] r eq_refl) as (res1 & m1 & H1); [lia | auto | assumption |].
  destruct (phase_repeat_settles (digits (NewStatefulGenerator i)) numDigits Hd
              _ 0 res1 (advance m1 r) eq_refl) as (res2 & m2 & H2);
    [lia | auto | now apply Int_total_advance |].
  destruct (phase_repeat_settles (symbols (NewStatefulGenerator i)) numSymbols Hs
              _ 0 res2 (advance m2 (advance m1 r)) eq_refl) as (s & m3 & H3);
    [lia | auto | now do 2 apply Int_total_advance |].
  exists s, (m1 + m2 + m3)%nat. rewrite !advance_add.
  eapply Generate_settles; eauto using validate_repeat.
Qed.
End WithRepeats.

(** The constant reader of zero bytes never starves [rand.Int]. *)
Lemma ConstReader_advance n (cr : ConstReader) : advance n cr = cr.
Proof. induction n; simpl; auto. Qed.

Lemma ConstReader_ReadFull k (cr : ConstReader) :
  ReadFull k cr = (inl (repeat (const_byte cr) k), cr).
Proof.
  induction k as [|k IH]; simpl; [reflexivity|].
  now rewrite IH.
Qed.

Lemma SetBytes_zeros b k :
  rand.SetBytes (rand.mask_first b (map byte_val (repeat zero_byte k))) = 0.
Proof.
  assert (Hz : forall k, fold_left (fun acc x => acc * 256 + x)
                                   (map byte_val (repeat zero_byte k)) 0 = 0).
  { induction k0 as [|k0 IH]; simpl; auto. }
  unfold rand.SetBytes. destruct k as [|k]; simpl; [reflexivity | apply Hz].
Qed.

Lemma zero_reader_Int_total : Int_total {| const_byte := zero_byte |}.
Proof.
  intros n max Hmax. rewrite ConstReader_advance.
  exists 1%nat, 0. eexists. unfold rand.Int.
  destruct (Z.leb_spec max 0); [lia|].
  destruct (_ =? 0); [reflexivity|].
  simpl. rewrite ConstReader_ReadFull. simpl const_byte.
  rewrite SetBytes_zeros.
  destruct (Z.ltb_spec 0 max); [reflexivity | lia].
Qed.

(** ** Without repeats, on a fair source *)

Section FairSource.
Context {R : Type} `{Reader R}.

Lemma fair_advance m (r : R) : fair r -> fair (advance m r).
Proof.
  intros Hfair n. rewrite nth_read_advance. destruct (Hfair (m + n)%nat) as [Hok Hall].
  split; [assumption|]. intros b. destruct (Hall b) as (k & Hk).
  exists k. now rewrite nth_read_advance, Nat.add_assoc.
Qed.

Lemma fair_read (r : R) : fair r -> exists x, Read r = (inl x, advance 1 r).
Proof.
  intros Hfair. destruct (Hfair 0%nat) as [Hok _]. unfold nth_read in Hok.
  simpl in *. destruct (Read r) as [[x|e] r1]; simpl in *; [eauto | now destruct (Hok e)].
Qed.

Lemma fair_foreign_errors (r : R) : fair r -> foreign_errors r.
Proof.
  intros Hfair n e Hn. now destruct (Hfair n) as [Hok _]; destruct (Hok e).
Qed.

Lemma BitLen_small max :
  2 <= max <= 256 ->
  1 <= rand.BitLen (max - 1) <= 8 /\ max <= 2 ^ rand.BitLen (max - 1).
Proof.
  intros Hmax. unfold rand.BitLen.
  destruct (Z.leb_spec (max - 1) 0); [lia|].
  pose proof (Z.log2_nonneg (max - 1)).
  assert (Hle : Z.log2 (max - 1) <= Z.log2 255) by (apply Z.log2_le_mono; lia).
  change (Z.log2 255) with 7 in Hle.
  destruct (Z.log2_spec (max - 1)) as [_ Hup]; [lia|].
  rewrite <- Z.add_1_r in Hup. lia.
Qed.

Lemma Int_small fuel (r : R) max :
  2 <= max <= 256 ->
  rand.Int fuel r max = rand.Int_loop fuel r max 1 (rand.BitLen (max - 1)).
Proof.
  intros Hmax. destruct (BitLen_small max Hmax) as [Hbl _].
  unfold rand.Int. destruct (Z.leb_spec max 0); [lia|].
  remember (rand.BitLen (max - 1)) as bl eqn:Hdef. clear Hdef.
  assert (Hcases : bl = 1 \/ bl = 2 \/ bl = 3 \/ bl = 4 \/
                   bl = 5 \/ bl = 6 \/ bl = 7 \/ bl = 8) by lia.
  repeat (destruct Hcases as [-> | Hcases]; [reflexivity|]).
  subst bl. reflexivity.
Qed.

Lemma Int_loop_step fuel (r r1 : R) max b x :
  Read r = (inl x, r1) ->
  rand.Int_loop (S fuel) r max 1 b =
  if Z.land (byte_val x) (2 ^ b - 1) <? max
  then Some (Returns (Z.land (byte_val x) (2 ^ b - 1)) None, r1)
  else rand.Int_loop fuel r1 max 1 b.
Proof. intros Hread. simpl. rewrite Hread. reflexivity. Qed.

Lemma byte_val_of_Z j : 0 <= j < 256 -> byte_val (byte_of_Z j) = j.
Proof.
  intros Hj. unfold byte_val, byte_of_Z.
  rewrite Z.mod_small by assumption.
  rewrite N_ascii_embedding by lia. lia.
Qed.

Lemma land_mask_small v b : 0 <= b -> 0 <= v < 2 ^ b -> Z.land v (2 ^ b - 1) = v.
Proof.
  intros Hb Hv. rewrite Z.sub_1_r, <- Z.ones_equiv, Z.land_ones by assumption.
  now apply Z.mod_small.
Qed.

(** Sampling below a bound of at most 256 reads one byte at a time and
    stops at the first byte it accepts: when the byte [j] is [d] reads
    ahead, the draw either is [j] or uses at most [d] bytes. *)
Lemma Int_first_accept max j :
  2 <= max <= 256 -> 0 <= j < max ->
  forall d (r : R),
    fair r -> nth_read d r = inl (byte_of_Z j) ->
    exists v k, 0 <= v < max /\
                eventually (fun f => rand.Int f r max) (Returns v None, advance k r) /\
                (v = j \/ (1 <= k <= d)%nat).
Proof.
  intros Hmax Hj. destruct (BitLen_small max Hmax) as [Hbl Hpow].
  induction d as [|d IH]; intros r Hfair Hd;
    destruct (fair_read r Hfair) as (x & Hread).
  - unfold nth_read in Hd. simpl in Hd. rewrite Hread in Hd. simpl in Hd. inv Hd.
    exists j, 1%nat. split; [assumption|]. split; [|now left].
    exists 1%nat. intros [|fuel] Hf; [lia|].
    rewrite Int_small, (Int_loop_step _ _ _ _ _ _ Hread) by assumption.
    rewrite byte_val_of_Z, land_mask_small by lia.
    destruct (Z.ltb_spec j max); [reflexivity | lia].
  - destruct (Z.ltb_spec (Z.land (byte_val x) (2 ^ rand.BitLen (max - 1) - 1)) max)
      as [Hacc | Hrej].
    + exists (Z.land (byte_val x) (2 ^ rand.BitLen (max - 1) - 1)), 1%nat.
      split; [|split; [|right; lia]].
      * split; [|assumption]. apply Z.land_nonneg. left. apply byte_val_range.
      * exists 1%nat. intros [|fuel] Hf; [lia|].
        rewrite Int_small, (Int_loop_step _ _ _ _ _ _ Hread) by assumption.
        destruct (Z.ltb_spec (Z.land (byte_val x) (2 ^ rand.BitLen (max - 1) - 1)) max);
          [reflexivity | lia].
    + destruct (IH (advance 1 r)) as (v & k & Hv & (f0 & Hev) & Hor).
      { now apply fair_advance. }
      { now rewrite nth_read_advance. }
      exists v, (1 + k)%nat. split; [assumption|]. split.
      * exists (S f0). intros [|fuel] Hf; [lia|].
        rewrite Int_small, (Int_loop_step _ _ _ _ _ _ Hread) by assumption.
        destruct (Z.ltb_spec (Z.land (byte_val x) (2 ^ rand.BitLen (max - 1) - 1)) max);
          [lia|].
        rewrite <- Int_small by assumption. rewrite advance_add. apply Hev. lia.
      * destruct Hor; [now left | right; lia].
Qed.

Lemma Int_target max j d (r : R) :
  1 <= max <= 256 -> 0 <= j < max ->
  fair r -> nth_read d r = inl (byte_of_Z j) ->
  exists v k, 0 <= v < max /\
              eventually (fun f => rand.Int f r max) (Returns v None, advance k r) /\
              (v = j \/ (1 <= k <= d)%nat).
Proof.
  intros Hmax Hj Hfair Hd.
  destruct (Z.eq_dec max 1) as [-> | Hne].
  - exists 0, 0%nat. split; [lia|]. split; [|left; lia].
    exists 0%nat. intros fuel _. reflexivity.
  - apply Int_first_accept; auto. lia.
Qed.

Lemma Int_fair_settles max (r : R) :
  1 <= max <= 256 -> fair r ->
  exists v k, 0 <= v < max /\
              eventually (fun f => rand.Int f r max) (Returns v None, advance k r).
Proof.
  intros Hmax Hfair. destruct (Hfair 0%nat) as [_ Hall].
  destruct (Hall (byte_of_Z 0)) as (d & Hd). simpl in Hd.
  destruct (Int_target max 0 d r Hmax) as (v & k & Hv & Hev & _); eauto. lia.
Qed.

Lemma randomInsert_fair (r : R) s val :
  fair r -> len s <= 255 ->
  exists p m, (p <= List.length s)%nat /\
              eventually (fun f => randomInsert f r s val)
                         (Returns (insert_at p val s) None, advance m r).
Proof.
  intros Hfair Hlen. destruct s as [|c s].
  - exists 0%nat, 0%nat. split; [simpl; lia|].
    exists 0%nat. intros fuel _. apply randomInsert_empty.
  - destruct (Int_fair_settles (len (c :: s) + 1) r) as (v & m & Hv & Hint);
      [pose proof (len_nonneg (c :: s)); lia | assumption |].
    exists (Z.to_nat v), m. split; [unfold len in Hv; lia|].
    apply randomInsert_settles; [discriminate | assumption | lia].
Qed.

(** With repeats allowed, a phase over an ASCII alphabet of at most 256
    bytes returns on a fair source as long as the result stays within 256
    bytes: every draw is then a one-byte draw, which a fair source
    settles. *)
Lemma phase_repeat_fair A n :
  ascii_string A -> 1 <= len A <= 256 -> n <= max_int ->
  forall k i res (r : R),
    Z.to_nat (n - i) = k -> 0 <= i -> len res + Z.max 0 (n - i) <= 256 -> fair r ->
    exists res' m,
      len res' = len res + Z.max 0 (n - i) /\
      eventually (fun f => phase f A true n i res r) (Returns res' None, advance m r).
Proof.
  intros HA HlenA Hn. induction k as [|k IH]; intros i res r Hk Hi Hroom Hfair.
  - exists res, 0%nat. split; [lia|]. apply phase_done. lia.
  - assert (Hlt : i < n) by lia.
    destruct (Int_fair_settles (len A) r HlenA Hfair) as (v & m1 & Hv & Hint).
    destruct (nth_error_below A v Hv) as (c & Hc).
    pose proof (randomElement_settles _ _ _ _ _ Hint Hc) as Hel.
    assert (HcA : In c A) by eauto using nth_error_In.
    rewrite (string_of_byte_ascii c) in Hel by eauto using ascii_string_In.
    destruct (randomInsert_fair (advance m1 r) res [c]) as (p & m2 & Hp & Hins);
      [now apply fair_advance | lia |].
    assert (Hlen1 : len (insert_at p [c] res) = len res + 1).
    { rewrite insert_at_length. unfold len at 2. simpl. lia. }
    destruct (IH (i + 1) (insert_at p [c] res) (advance m2 (advance m1 r)))
      as (res' & m3 & Hlen' & Hnext); [lia | lia | lia | |].
    { now do 2 apply fair_advance. }
    exists res', (m1 + m2 + m3)%nat. split; [lia|]. rewrite !advance_add.
    eapply phase_accepts; eauto.
Qed.

(** So a call that allows repeats returns on a fair source when neither the
    length nor an alphabet exceeds 256 bytes. *)
Lemma Generate_repeat_fair i length numDigits numSymbols includeUpper (r : R) :
  ascii_string (all_alphabets (NewStatefulGenerator i)) ->
  fair r ->
  0 <= numDigits -> 0 <= numSymbols -> numDigits + numSymbols <= length ->
  length <= 256 ->
  len (letters_of (NewStatefulGenerator i) includeUpper) <= 256 ->
  len (digits (NewStatefulGenerator i)) <= 256 ->
  len (symbols (NewStatefulGenerator i)) <= 256 ->
  exists s m,
    eventually (fun f => Generate f (NewStatefulGenerator i) length numDigits numSymbols
                                  includeUpper true r)
               (Returns s None, advance m r).
Proof.
  intros Hasc Hfair Hd Hs Hsum Hlen LL LD LS.
  destruct (ascii_alphabets _ includeUpper Hasc) as (AL & AD & AS).
  destruct (NewStatefulGenerator_nonempty i includeUpper) as (HL & HD & HS).
  apply len_pos_nonempty in HL, HD, HS.
  assert (Hchars : chars_of length numDigits numSymbols = length - numDigits - numSymbols).
  { apply chars_of_exact. unfold go_int, min_int, max_int. lia. }
  destruct (phase_repeat_fair (letters_of (NewStatefulGenerator i) includeUpper)
              (chars_of length numDigits numSymbols) AL)
    with (k := Z.to_nat (chars_of length numDigits numSymbols - 0))
         (i := 0) (res := @nil ascii) (r := r)
    as (res1 & m1 & L1 & H1);
    [lia | rewrite Hchars; unfold max_int; lia | reflexivity | lia
     | rewrite Hchars; unfold len; simpl; lia | assumption |].
  destruct (phase_repeat_fair (digits (NewStatefulGenerator i)) numDigits AD)
    with (k := Z.to_nat (numDigits - 0)) (i := 0) (res := res1) (r := advance m1 r)
    as (res2 & m2 & L2 & H2);
    [lia | unfold max_int; lia | reflexivity | lia
     | rewrite L1, Hchars; unfold len; simpl; lia | now apply fair_advance |].
  destruct (phase_repeat_fair (symbols (NewStatefulGenerator i)) numSymbols AS)
    with (k := Z.to_nat (numSymbols - 0)) (i := 0) (res := res2)
         (r := advance m2 (advance m1 r))
    as (s & m3 & L3 & H3);
    [lia | unfold max_int; lia | reflexivity | lia
     | rewrite L2, L1, Hchars; unfold len; simpl; lia
     | now do 2 apply fair_advance |].
  exists s, (m1 + m2 + m3)%nat. rewrite !advance_add.
  eapply Generate_settles; eauto.
  apply validate_repeat. lia.
Qed.

(** One round of a phase without repeats: when a byte that selects a
    fresh character is [d] reads ahead, the round inserts some fresh
    character after finitely many rejected draws. *)
Lemma draw_fresh A n i res :
  ascii_string A -> 1 <= len A <= 256 -> len res <= 255 ->
  0 <= i < n -> n <= max_int ->
  forall j c0, nth_error A j = Some c0 -> ~ In c0 res ->
  forall N d (r : R),
    (d < N)%nat -> fair r -> nth_read d r = inl (byte_of_Z (Z.of_nat j)) ->
    exists c p m,
      In c A /\ ~ In c res /\ (p <= List.length res)%nat /\
      forall X,
        eventually (fun f => phase f A false n (i + 1) (insert_at p [c] res) (advance m r)) X ->
        eventually (fun f => phase f A false n i res r) X.
Proof.
  intros HA HlenA Hres Hi Hn j c0 Hj Hfresh.
  assert (Hjlt : 0 <= Z.of_nat j < len A).
  { unfold len. assert (j < List.length A)%nat; [|lia].
    apply nth_error_Some. congruence. }
  induction N as [|N IH]; intros d r HdN Hfair Hd; [lia|].
  destruct (Int_target (len A) (Z.of_nat j) d r HlenA Hjlt Hfair Hd)
    as (v & k & Hv & Hint & Hor).
  destruct (nth_error_below A v Hv) as (c & Hc).
  pose proof (randomElement_settles _ _ _ _ _ Hint Hc) as Hel.
  assert (HcA : In c A) by eauto using nth_error_In.
  rewrite (string_of_byte_ascii c) in Hel by eauto using ascii_string_In.
  destruct (in_dec ascii_dec c res) as [Hdup | Hnew].
  - assert (Hk : (1 <= k <= d)%nat).
    { destruct Hor as [-> | Hk]; [|assumption]. exfalso.
      rewrite Nat2Z.id in Hc. congruence. }
    destruct (IH (d - k)%nat (advance k r)) as (c' & p & m & Hc' & Hnew' & Hp & Hnext).
    { lia. }
    { now apply fair_advance. }
    { rewrite nth_read_advance. now replace (k + (d - k))%nat with d by lia. }
    exists c', p, (k + m)%nat. repeat split; try assumption.
    intros X HX. rewrite advance_add in HX.
    eapply phase_rejects; eauto. now apply Contains_single.
  - destruct (randomInsert_fair (advance k r) res [c]) as (p & m & Hp & Hins);
      [now apply fair_advance | assumption |].
    exists c, p, (k + m)%nat. repeat split; try assumption.
    intros X HX. rewrite advance_add in HX.
    eapply phase_accepts; eauto.
    simpl. now apply Contains_single_false.
Qed.
End FairSource.

(** ** Counting characters *)

Lemma fresh_exists A res :
  NoDup A -> (count_in A res < List.length A)%nat ->
  exists j c, nth_error A j = Some c /\ ~ In c res.
Proof.
  intros Hnd Hcount.
  destruct (existsb (fun c => negb (mem c res)) A) eqn:Hex.
  - apply existsb_exists in Hex. destruct Hex as (c & Hin & Hc).
    destruct (In_nth_error _ _ Hin) as (j & Hj). exists j, c. split; [assumption|].
    rewrite <- mem_In. now destruct (mem c res).
  - exfalso. assert (Hincl : incl A (filter (fun c => mem c A) res)).
    { intros c Hin. apply filter_In. split; [|now apply mem_In].
      apply mem_In. destruct (mem c res) eqn:Hm; [reflexivity|].
      assert (Ht : existsb (fun c => negb (mem c res)) A = true); [|congruence].
      apply existsb_exists. exists c. now rewrite Hm. }
    apply (NoDup_incl_length Hnd) in Hincl. unfold count_in in Hcount. lia.
Qed.

Lemma ascii_NoDup_length s : ascii_string s -> NoDup s -> len s <= 128.
Proof.
  intros Hasc Hnd.
  assert (Hincl : incl s (map ascii_of_nat (seq 0 128))).
  { intros c Hin. apply in_map_iff. exists (nat_of_ascii c).
    split; [apply ascii_nat_embedding|]. apply in_seq.
    pose proof (ascii_string_In s c Hasc Hin) as Hc.
    unfold is_ascii, byte_val in Hc. apply Z.ltb_lt in Hc.
    unfold nat_of_ascii. lia. }
  apply (NoDup_incl_length Hnd) in Hincl.
  rewrite length_map, length_seq in Hincl. unfold len. lia.
Qed.

Lemma count_in_disjoint A s : (forall x, In x s -> ~ In x A) -> count_in A s = 0%nat.
Proof.
  unfold count_in. induction s as [|c s IH]; simpl; intros Hdis; [reflexivity|].
  destruct (mem c A) eqn:Hm.
  - apply mem_In in Hm. exfalso. apply (Hdis c); auto.
  - apply IH. intros x Hx. apply Hdis. now right.
Qed.

Lemma NoDup_app_inv (l1 l2 : gostring) :
  NoDup (l1 ++ l2) -> NoDup l1 /\ NoDup l2 /\ forall x, In x l1 -> ~ In x l2.
Proof.
  induction l1 as [|c l1 IH]; simpl; intros Hnd.
  - repeat split; [constructor | assumption | tauto].
  - apply NoDup_cons_iff in Hnd. destruct Hnd as [Hc Hnd].
    destruct (IH Hnd) as (Hl1 & Hl2 & Hdis). rewrite in_app_iff in Hc.
    repeat split; [|assumption|].
    + constructor; [tauto | assumption].
    + intros x [<- | Hx]; [tauto | auto].
Qed.

Section NoRepeats.
Context {R : Type} `{Reader R}.

Lemma insert_at_ascii p c s :
  is_ascii c = true -> ascii_string s -> ascii_string (insert_at p [c] s).
Proof.
  unfold ascii_string. rewrite !Forall_forall. intros Hc Hs x Hx.
  apply insert_at_In in Hx. destruct Hx as [-> | Hx]; auto.
Qed.

(** A phase without repeats returns on a fair source as long as the
    alphabet still holds enough characters that the string lacks. *)
Lemma phase_norepeat_settles A n :
  ascii_string A -> NoDup A -> n <= max_int ->
  forall k i res (r : R),
    Z.to_nat (n - i) = k -> 0 <= i -> fair r ->
    ascii_string res -> NoDup res ->
    Z.of_nat (count_in A res) + (n - i) <= len A ->
    exists res' m,
      eventually (fun f => phase f A false n i res r) (Returns res' None, advance m r).
Proof.
  intros HA HndA Hn. pose proof (ascii_NoDup_length A HA HndA) as HlenA.
  induction k as [|k IH]; intros i res r Hk Hi Hfair Hres Hnd Hcount.
  - exists res, 0%nat. apply phase_done. lia.
  - assert (Hlt : i < n) by lia.
    destruct (fresh_exists A res HndA) as (j & c0 & Hj & Hfresh);
      [unfold len in Hcount; lia|].
    destruct (Hfair 0%nat) as [_ Hall].
    destruct (Hall (byte_of_Z (Z.of_nat j))) as (d & Hd). simpl in Hd.
    pose proof (ascii_NoDup_length res Hres Hnd) as Hlenres.
    destruct (draw_fresh A n i res HA) with (j := j) (c0 := c0) (N := S d) (d := d) (r := r)
      as (c & p & m & Hc & Hnew & Hp & Hnext); auto; try lia.
    destruct (IH (i + 1) (insert_at p [c] res) (advance m r))
      as (res' & m' & Hev); try lia.
    { now apply fair_advance. }
    { apply insert_at_ascii; eauto using ascii_string_In. }
    { now apply insert_at_NoDup. }
    { rewrite insert_at_count. apply mem_In in Hc. rewrite Hc. lia. }
    exists res', (m + m')%nat. rewrite advance_add. auto.
Qed.

Lemma validate_norepeat g length numDigits numSymbols includeUpper :
  validate g length numDigits numSymbols includeUpper false = None ->
  0 <= chars_of length numDigits numSymbols <= len (letters_of g includeUpper) /\
  numDigits <= len (digits g) /\ numSymbols <= len (symbols g).
Proof.
  unfold validate. simpl.
  destruct (Z.ltb_spec (chars_of length numDigits numSymbols) 0); [discriminate|].
  destruct (Z.ltb_spec (len (letters_of g includeUpper))
                       (chars_of length numDigits numSymbols)); [discriminate|].
  destruct (Z.ltb_spec (len (digits g)) numDigits); [discriminate|].
  destruct (Z.ltb_spec (len (symbols g)) numSymbols); [discriminate|].
  lia.
Qed.

Lemma alphabets_NoDup g includeUpper :
  NoDup (all_alphabets g) ->
  NoDup (letters_of g includeUpper) /\ NoDup (digits g) /\ NoDup (symbols g) /\
  (forall x, In x (letters_of g includeUpper) -> ~ In x (digits g)) /\
  (forall x, In x (letters_of g includeUpper) \/ In x (digits g) -> ~ In x (symbols g)).
Proof.
  unfold all_alphabets, letters_of. intros Hnd.
  apply NoDup_app_inv in Hnd. destruct Hnd as (Hl & Hrest & Hl_dis).
  apply NoDup_app_inv in Hrest. destruct Hrest as (Hu & Hds & Hu_dis).
  apply NoDup_app_inv in Hds. destruct Hds as (Hd & Hs & Hd_dis).
  assert (Hlu : NoDup (lowerLetters g ++ upperLetters g)).
  { apply NoDup_app; auto. intros x Hx Hx'. apply (Hl_dis x Hx).
    apply in_or_app. now left. }
  assert (Hcases : forall x,
             In x (if includeUpper then lowerLetters g ++ upperLetters g
                   else lowerLetters g) ->
             In x (lowerLetters g) \/ In x (upperLetters g)).
  { intros x. destruct includeUpper; [rewrite in_app_iff|]; tauto. }
  repeat split; auto.
  - now destruct includeUpper.
  - intros x Hx Hd'. destruct (Hcases x Hx) as [Hx'|Hx'].
    + apply (Hl_dis x Hx'). rewrite !in_app_iff. tauto.
    + apply (Hu_dis x Hx'). rewrite in_app_iff. tauto.
  - intros x [Hx | Hx] Hs'.
    + destruct (Hcases x Hx) as [Hx'|Hx'].
      * apply (Hl_dis x Hx'). rewrite !in_app_iff. tauto.
      * apply (Hu_dis x Hx'). rewrite in_app_iff. tauto.
    + apply (Hd_dis x Hx Hs').
Qed.

(** On a fair source, with ASCII alphabets whose characters are all
    different, a call without repeats that passes the validation
    returns. *)
Lemma Generate_norepeat_settles g length numDigits numSymbols includeUpper (r : R) :
  ascii_string (all_alphabets g) -> NoDup (all_alphabets g) -> fair r ->
  validate g length numDigits numSymbols includeUpper false = None ->
  exists s m,
    eventually (fun f => Generate f g length numDigits numSymbols includeUpper false r)
               (Returns s None, advance m r).
Proof.
  intros Hasc Hnd Hfair Hval.
  destruct (ascii_alphabets g includeUpper Hasc) as (HL & HD & HS).
  destruct (alphabets_NoDup g includeUpper Hnd) as (NL & ND & NS & DisD & DisS).
  destruct (validate_norepeat _ _ _ _ _ Hval) as (Hc & Hd & Hs).
  pose proof (ascii_NoDup_length _ HD ND) as LD.
  pose proof (ascii_NoDup_length _ HS NS) as LS.
  destruct (phase_norepeat_settles (letters_of g includeUpper)
              (chars_of length numDigits numSymbols) HL NL (proj2 (wrap_range _))
              _ 0 [] r eq_refl) as (res1 & m1 & H1);
    [lia | assumption | constructor | constructor | simpl; lia |].
  pose proof H1 as (f1 & E1). specialize (E1 f1 (Nat.le_refl _)).
  assert (I1 : forall x, In x res1 -> In x (letters_of g includeUpper)).
  { intros x Hx. destruct (phase_incl _ _ _ _ _ _ _ _ _ HL E1 x Hx) as [[]|]; auto. }
  assert (F1 : fair (advance m1 r)) by now apply fair_advance.
  assert (A1 : ascii_string res1).
  { apply Forall_forall. intros x Hx. eapply ascii_string_In; [exact HL | auto]. }
  assert (N1 : NoDup res1).
  { eapply phase_NoDup; [exact HL | constructor | exact E1]. }
  assert (C1 : Z.of_nat (count_in (digits g) res1) + (numDigits - 0) <= len (digits g)).
  { rewrite count_in_disjoint; [lia | auto]. }
  assert (Hd' : numDigits <= max_int) by (unfold max_int; lia).
  destruct (phase_norepeat_settles (digits g) numDigits HD ND Hd'
              _ 0 res1 (advance m1 r) eq_refl (Z.le_refl 0) F1 A1 N1 C1)
    as (res2 & m2 & H2).
  pose proof H2 as (f2 & E2). specialize (E2 f2 (Nat.le_refl _)).
  assert (I2 : forall x, In x res2 ->
                         In x (letters_of g includeUpper) \/ In x (digits g)).
  { intros x Hx. destruct (phase_incl _ _ _ _ _ _ _ _ _ HD E2 x Hx); auto. }
  assert (F2 : fair (advance m2 (advance m1 r))) by now apply fair_advance.
  assert (A2 : ascii_string res2).
  { apply Forall_forall. intros x Hx. destruct (I2 x Hx) as [Hx' | Hx'];
      [apply (ascii_string_In _ x HL Hx') | apply (ascii_string_In _ x HD Hx')]. }
  assert (N2 : NoDup res2).
  { eapply phase_NoDup; [exact HD | exact N1 | exact E2]. }
  assert (C2 : Z.of_nat (count_in (symbols g) res2) + (numSymbols - 0)
               <= len (symbols g)).
  { rewrite count_in_disjoint; [lia | auto]. }
  assert (Hs' : numSymbols <= max_int) by (unfold max_int; lia).
  destruct (phase_norepeat_settles (symbols g) numSymbols HS NS Hs'
              _ 0 res2 (advance m2 (advance m1 r)) eq_refl (Z.le_refl 0) F2 A2 N2 C2)
    as (s & m3 & H3).
  exists s, (m1 + m2 + m3)%nat. rewrite !advance_add.
  eapply Generate_settles; eauto.
Qed.
End NoRepeats.

(** ** The counting reader is fair *)

Lemma wrap_mod_256 z : wrap z mod 256 = z mod 256.
Proof.
  unfold wrap. rewrite (Z.mod_eq (z + 2 ^ 63) (2 ^ 64)) by lia.
  replace (z + 2 ^ 63 - 2 ^ 64 * ((z + 2 ^ 63) / 2 ^ 64) - 2 ^ 63)
    with (z + (- 2 ^ 56 * ((z + 2 ^ 63) / 2 ^ 64)) * 256) by lia.
  apply Z_mod_plus_full.
Qed.

Lemma byte_of_Z_mod x y : x mod 256 = y mod 256 -> byte_of_Z x = byte_of_Z y.
Proof. unfold byte_of_Z. now intros ->. Qed.

Lemma MockReader_nth_read n c :
  nth_read n {| Counter := c |} = inl (byte_of_Z (c + Z.of_nat n + 1)).
Proof.
  revert c. induction n as [|n IH]; intros c.
  - unfold nth_read. simpl. f_equal. apply byte_of_Z_mod.
    rewrite wrap_mod_256. f_equal. lia.
  - change (nth_read (S n) {| Counter := c |})
      with (nth_read n {| Counter := wrap (c + 1) |}).
    rewrite IH. f_equal. apply byte_of_Z_mod.
    rewrite Z.add_mod, (Z.add_mod (wrap (c + 1))), wrap_mod_256 by lia.
    rewrite <- (Z.add_mod (c + 1)), <- Z.add_mod by lia. f_equal. lia.
Qed.

Lemma byte_of_Z_val b : byte_of_Z (byte_val b) = b.
Proof.
  unfold byte_of_Z, byte_val. pose proof (N_ascii_bounded b).
  rewrite Z.mod_small by lia. rewrite N2Z.id. apply ascii_N_embedding.
Qed.

Lemma MockReader_fair (mr : MockReader) : fair mr.
Proof.
  destruct mr as [c]. intros n. rewrite MockReader_nth_read. split; [discriminate|].
  intros b. exists (Z.to_nat ((byte_val b - (c + Z.of_nat n + 1)) mod 256)).
  rewrite MockReader_nth_read. f_equal. rewrite <- (byte_of_Z_val b) at 2.
  apply byte_of_Z_mod.
  pose proof (Z.mod_pos_bound (byte_val b - (c + Z.of_nat n + 1)) 256).
  rewrite Nat2Z.inj_add, Z2Nat.id by lia.
  replace (c + (Z.of_nat n + (byte_val b - (c + Z.of_nat n + 1)) mod 256) + 1)
    with ((c + Z.of_nat n + 1) + (byte_val b - (c + Z.of_nat n + 1)) mod 256) by lia.
  rewrite Z.add_mod_idemp_r by lia. f_equal. lia.
Qed.

(** ** A phase that has used up its alphabet never returns *)

Section Stuck.
Context {R : Type} `{Reader R}.

Lemma ReadFull_fair k (r : R) :
  fair r -> exists bs, ReadFull k r = (inl bs, advance k r).
Proof.
  revert r. induction k as [|k IH]; intros r Hfair; simpl.
  - now exists [].
  - destruct (fair_read r Hfair) as (x & Hread). rewrite Hread.
    destruct (IH (advance 1 r)) as (bs & Hbs); [now apply fair_advance|].
    rewrite Hbs. now exists (x :: bs).
Qed.

Lemma Int_loop_fair_cases fuel max k b : forall (r : R),
  fair r ->
  rand.Int_loop fuel r max k b = None \/
  exists v m, rand.Int_loop fuel r max k b = Some (Returns v None, advance m r).
Proof.
  induction fuel as [|fuel IH]; intros r Hfair; simpl; [now left|].
  destruct (ReadFull_fair k r Hfair) as (bs & ->).
  destruct (_ <? max); [right; eauto|].
  destruct (IH (advance k r)) as [Hnone | (v & m & Hsome)];
    [now apply fair_advance | now left |].
  right. exists v, (k + m)%nat. now rewrite advance_add.
Qed.

Lemma randomElement_fair_cases fuel (r : R) s :
  fair r -> s <> [] ->
  randomElement fuel r s = None \/
  exists c m, In c s /\
              randomElement fuel r s = Some (Returns (string_of_byte c) None, advance m r).
Proof.
  intros Hfair Hne. apply len_pos_nonempty in Hne.
  unfold randomElement.
  assert (Hint : rand.Int fuel r (len s) = None \/
                 exists v m, rand.Int fuel r (len s) = Some (Returns v None, advance m r)).
  { unfold rand.Int. destruct (Z.leb_spec (len s) 0); [lia|].
    destruct (_ =? 0); [right; now exists 0, 0%nat|].
    now apply Int_loop_fair_cases. }
  destruct Hint as [-> | (v & m & Hint)]; [now left|].
  right. rewrite Hint. apply Int_range in Hint.
  destruct (nth_error_below s v Hint) as (c & Hc). rewrite Hc.
  exists c, m. split; [eauto using nth_error_In | reflexivity].
Qed.

Lemma phase_stuck A n i res :
  ascii_string A -> A <> [] -> (forall c, In c A -> In c res) ->
  0 <= i < n -> n <= max_int ->
  forall fuel (r : R), fair r -> phase fuel A false n i res r = None.
Proof.
  intros HA Hne Hused Hi Hn.
  induction fuel as [|fuel IH]; intros r Hfair; simpl; [reflexivity|].
  destruct (Z.ltb_spec i n); [|lia].
  destruct (randomElement_fair_cases fuel r A Hfair Hne) as [-> | (c & m & Hc & ->)];
    [reflexivity|].
  rewrite (string_of_byte_ascii c) by eauto using ascii_string_In.
  replace (Contains res [c]) with true
    by (symmetry; apply Contains_single; auto).
  simpl.
  rewrite (wrap_id (i - 1)), (wrap_id (i - 1 + 1))
    by (unfold go_int, min_int, max_int in *; lia).
  replace (i - 1 + 1) with i by lia.
  apply IH. now apply fair_advance.
Qed.
End Stuck.

Lemma NoDup_by_values s :
  hasDuplicates_from [] (map byte_val s) = false -> NoDup s.
Proof.
  intros Hdup. apply hasDuplicates_from_false in Hdup.
  destruct Hdup as [Hnd _]. revert Hnd. apply NoDup_map_inv.
Qed.

Lemma default_alphabets_NoDup : NoDup (all_alphabets default_generator).
Proof. apply NoDup_by_values. vm_compute. reflexivity. Qed.

(** C6, as amended.  For a generator whose alphabets are ASCII and hold
    pairwise different characters (within and across the four alphabets),
    on a source that never fails and in which every byte value keeps coming
    back, every call with [allowRepeat = false] that passes the validation
    returns a string: each of its three retry loops terminates. *)
Theorem Generate_without_repeats_terminates
        {R : Type} `{Reader R} (g : StatefulGenerator)
        (length numDigits numSymbols : Z) (includeUpper : bool) (r : R) :
  ascii_string (all_alphabets g) -> NoDup (all_alphabets g) -> fair r ->
  validate g length numDigits numSymbols includeUpper false = None ->
  exists fuel res1 r1 res2 r2 s r',
    phase fuel (letters_of g includeUpper) false
          (chars_of length numDigits numSymbols) 0 [] r = Some (Returns res1 None, r1) /\
    phase fuel (digits g) false numDigits 0 res1 r1 = Some (Returns res2 None, r2) /\
    phase fuel (symbols g) false numSymbols 0 res2 r2 = Some (Returns s None, r') /\
    forall fuel', (fuel <= fuel')%nat ->
      Generate fuel' g length numDigits numSymbols includeUpper false r
        = Some (Returns s None, r').
Proof.
  intros Hasc Hnd Hfair Hval.
  destruct (Generate_norepeat_settles g length numDigits numSymbols includeUpper r
              Hasc Hnd Hfair Hval) as (s & m & fuel & Hev).
  pose proof (Hev fuel (Nat.le_refl _)) as Hrun.
  apply Generate_returns_inv in Hrun.
  destruct Hrun as (_ & res1 & r1 & res2 & r2 & H1 & H2 & H3).
  exists fuel, res1, r1, res2, r2, s, (advance m r). auto.
Qed.

Lemma Generate_without_repeats_terminates_witness :
  exists fuel res1 r1 res2 r2 s r',
    phase fuel (letters_of default_generator true) false
          (chars_of 20 2 2) 0 [] {| Counter := 0 |} = Some (Returns res1 None, r1) /\
    phase fuel (digits default_generator) false 2 0 res1 r1 = Some (Returns res2 None, r2) /\
    phase fuel (symbols default_generator) false 2 0 res2 r2 = Some (Returns s None, r') /\
    forall fuel', (fuel <= fuel')%nat ->
      Generate fuel' default_generator 20 2 2 true false {| Counter := 0 |}
        = Some (Returns s None, r').
Proof.
  apply (Generate_without_repeats_terminates default_generator 20 2 2 true
           {| Counter := 0 |}).
  - exact default_alphabets_ascii.
  - exact default_alphabets_NoDup.
  - apply MockReader_fair.
  - reflexivity.
Defined.

(** C6, as stated, fails.  The generator whose lowercase alphabet is [aa]
    passes the validation of [Generate(2, 0, 0, false, false)] (two letters
    are asked for, the alphabet has length two), but after the first [a]
    every draw is rejected: on the counting reader the letters loop does not
    terminate, whatever the fuel. *)
Lemma doubled_letter_never_returns :
  validate doubled_letter_generator 2 0 0 false false = None /\
  forall fuel,
    Generate fuel doubled_letter_generator 2 0 0 false false {| Counter := 0 |} = None.
Proof.
  split; [reflexivity|]. intros fuel.
  rewrite Generate_validate.
  change (validate doubled_letter_generator 2 0 0 false false) with (@None error).
  change (letters_of doubled_letter_generator false) with (str "aa").
  change (chars_of 2 0 0) with 2.
  assert (Hphase : phase fuel (str "aa") false 2 0 [] {| Counter := 0 |} = None);
    [|now rewrite Hphase].
  destruct fuel as [|fuel]; [reflexivity|].
  cbn [phase]. change (0 <? 2) with true. cbv iota.
  destruct (randomElement_fair_cases fuel {| Counter := 0 |} (str "aa"))
    as [-> | (c & m & Hc & ->)];
    [apply MockReader_fair | discriminate | reflexivity |].
  assert (c = "a"%char) as -> by (destruct Hc as [<- | [<- | []]]; reflexivity).
  change (string_of_byte "a") with (str "a").
  change (negb false && Contains [] (str "a")) with false. cbv iota.
  change (randomInsert fuel (advance m {| Counter := 0 |}) [] (str "a"))
    with (Some (Returns (str "a") None, advance m {| Counter := 0 |})).
  cbv iota beta.
  change (wrap (0 + 1)) with 1.
  rewrite phase_stuck; auto.
  - apply forallb_ascii_string. reflexivity.
  - discriminate.
  - intros c [<- | [<- | []]]; now left.
  - lia.
  - unfold max_int. lia.
  - apply fair_advance, MockReader_fair.
Qed.

(** ** The length of the result *)

Lemma validate_norepeat_intro g length numDigits numSymbols includeUpper :
  0 <= chars_of length numDigits numSymbols <= len (letters_of g includeUpper) ->
  numDigits <= len (digits g) -> numSymbols <= len (symbols g) ->
  validate g length numDigits numSymbols includeUpper false = None.
Proof.
  intros Hc Hd Hs. unfold validate. simpl.
  destruct (Z.ltb_spec (chars_of length numDigits numSymbols) 0); [lia|].
  destruct (Z.ltb_spec (len (letters_of g includeUpper))
                       (chars_of length numDigits numSymbols)); [lia|].
  destruct (Z.ltb_spec (len (digits g)) numDigits); [lia|].
  destruct (Z.ltb_spec (len (symbols g)) numSymbols); [lia | reflexivity].
Qed.

(** C1, as amended.  For counts that are not negative, with
    [numDigits + numSymbols <= length], and a generator built by the
    constructor whose alphabets are ASCII: every string that [Generate]
    returns with a nil error has exactly [length] characters, whatever the
    source; and [Generate] does return one when the source keeps supplying
    draws.  With repeats that is any source that never starves [rand.Int],
    and any fair source when neither the length nor an alphabet exceeds 256
    bytes; without repeats any fair source when the alphabets hold pairwise
    different characters and are large enough for the counts. *)
Theorem Generate_returns_length
        {R : Type} `{Reader R} (i : option GeneratorInput)
        (length numDigits numSymbols : Z) (includeUpper allowRepeat : bool) (r : R) :
  ascii_string (all_alphabets (NewStatefulGenerator i)) ->
  0 <= numDigits -> 0 <= numSymbols ->
  numDigits + numSymbols <= length -> length <= max_int ->
  (forall fuel s r',
      Generate fuel (NewStatefulGenerator i) length numDigits numSymbols
               includeUpper allowRepeat r = Some (Returns s None, r') ->
      len s = length) /\
  ((if allowRepeat
    then Int_total r \/
         (fair r /\ length <= 256 /\
          len (letters_of (NewStatefulGenerator i) includeUpper) <= 256 /\
          len (digits (NewStatefulGenerator i)) <= 256 /\
          len (symbols (NewStatefulGenerator i)) <= 256)
    else fair r /\ NoDup (all_alphabets (NewStatefulGenerator i)) /\
         length - numDigits - numSymbols
           <= len (letters_of (NewStatefulGenerator i) includeUpper) /\
         numDigits <= len (digits (NewStatefulGenerator i)) /\
         numSymbols <= len (symbols (NewStatefulGenerator i))) ->
   exists fuel s r',
     Generate fuel (NewStatefulGenerator i) length numDigits numSymbols
              includeUpper allowRepeat r = Some (Returns s None, r') /\
     len s = length).
Proof.
  intros Hasc Hd Hs Hsum Hlen.
  assert (Hchars : chars_of length numDigits numSymbols = length - numDigits - numSymbols).
  { apply chars_of_exact. unfold go_int, min_int, max_int in *. lia. }
  assert (Hpartial : forall fuel s r',
             Generate fuel (NewStatefulGenerator i) length numDigits numSymbols
                      includeUpper allowRepeat r = Some (Returns s None, r') ->
             len s = length).
  { intros fuel s r' Hrun.
    apply Generate_length in Hrun; [| assumption | lia | lia].
    rewrite Hrun, Hchars. lia. }
  split; [exact Hpartial|]. intros Hsource.
  assert (Hev : exists s m,
             eventually (fun f => Generate f (NewStatefulGenerator i) length numDigits
                                           numSymbols includeUpper allowRepeat r)
                        (Returns s None, advance m r)).
  { destruct allowRepeat.
    - destruct Hsource as [Htot | (Hfair & H256 & LL & LD & LS)].
      + apply Generate_repeat_settles; [assumption | lia | lia | lia].
      + now apply Generate_repeat_fair.
    - destruct Hsource as (Hfair & Hnd & HL & HD & HS).
      apply Generate_norepeat_settles; try assumption.
      apply validate_norepeat_intro; lia. }
  destruct Hev as (s & m & fuel & Hev).
  exists fuel, s, (advance m r).
  pose proof (Hev fuel (Nat.le_refl _)) as Hrun. eauto.
Qed.

Lemma Generate_returns_length_witness :
  (forall fuel s r',
      Generate fuel (NewStatefulGenerator None) 20 2 2 true false {| Counter := 0 |}
        = Some (Returns s None, r') ->
      len s = 20) /\
  (exists fuel s r',
      Generate fuel (NewStatefulGenerator None) 20 2 2 true false {| Counter := 0 |}
        = Some (Returns s None, r') /\
      len s = 20) /\
  (exists fuel s r',
      Generate fuel (NewStatefulGenerator None) 8 2 1 true true {| Counter := 0 |}
        = Some (Returns s None, r') /\
      len s = 8).
Proof.
  destruct (Generate_returns_length None 20 2 2 true false {| Counter := 0 |})
    as [Hpartial Htotal];
    [exact default_alphabets_ascii | lia | lia | lia | unfold max_int; lia |].
  destruct (Generate_returns_length None 8 2 1 true true {| Counter := 0 |})
    as [_ Hrepeat];
    [exact default_alphabets_ascii | lia | lia | lia | unfold max_int; lia |].
  split; [exact Hpartial|]. split.
  - apply Htotal.
    split; [apply MockReader_fair|].
    split; [exact default_alphabets_NoDup|].
    vm_compute. repeat split; discriminate.
  - apply Hrepeat. right.
    split; [apply MockReader_fair|].
    vm_compute. repeat split; discriminate.
Defined.

(** C1, as stated, fails: [Generate(3, -1, 0, false, true)] has
    [numDigits + numSymbols <= length] and returns, on the counting reader,
    the four characters [becg] with a nil error. *)
Lemma Generate_negative_digits_too_long :
  -1 + 0 <= 3 /\
  Generate 100 default_generator 3 (-1) 0 false true {| Counter := 0 |}
    = Some (Returns (str "becg") None, {| Counter := 7 |}) /\
  len (str "becg") <> 3.
Proof. split; [lia|]. split; [vm_compute; reflexivity | discriminate]. Qed.

(** C10, as amended.  A negative count is not rejected: with
    [numDigits < 0] or [numSymbols < 0], [numDigits + numSymbols <= length]
    and repeats allowed, [Generate] returns a nil error and a string of
    [length - numDigits - numSymbols] letters plus the digits and symbols
    whose count is positive, that is, of
    [length - min(0, numDigits) - min(0, numSymbols)] characters, which is
    more than [length] (for ASCII alphabets, a difference that fits an
    [int], and a source that never starves [rand.Int]). *)
Theorem Generate_negative_count
        {R : Type} `{Reader R} (i : option GeneratorInput)
        (length numDigits numSymbols : Z) (includeUpper : bool) (r : R) :
  ascii_string (all_alphabets (NewStatefulGenerator i)) ->
  Int_total r ->
  numDigits < 0 \/ numSymbols < 0 ->
  numDigits <= max_int -> numSymbols <= max_int ->
  numDigits + numSymbols <= length ->
  length - numDigits - numSymbols <= max_int ->
  (exists fuel s r',
      Generate fuel (NewStatefulGenerator i) length numDigits numSymbols
               includeUpper true r = Some (Returns s None, r') /\
      len s = length - Z.min 0 numDigits - Z.min 0 numSymbols /\
      length < len s) /\
  (forall fuel s r',
      Generate fuel (NewStatefulGenerator i) length numDigits numSymbols
               includeUpper true r = Some (Returns s None, r') ->
      len s = length - Z.min 0 numDigits - Z.min 0 numSymbols).
Proof.
  intros Hasc Htot Hneg Hd Hs Hsum Hfit.
  assert (Hchars : chars_of length numDigits numSymbols = length - numDigits - numSymbols).
  { apply chars_of_exact. unfold go_int, min_int, max_int in *. lia. }
  assert (Hpartial : forall fuel s r',
             Generate fuel (NewStatefulGenerator i) length numDigits numSymbols
                      includeUpper true r = Some (Returns s None, r') ->
             len s = length - Z.min 0 numDigits - Z.min 0 numSymbols).
  { intros fuel s r' Hrun.
    apply Generate_length in Hrun; [| assumption | lia | lia].
    rewrite Hrun, Hchars. lia. }
  split; [|exact Hpartial].
  destruct (Generate_repeat_settles i length numDigits numSymbols includeUpper r)
    as (s & m & fuel & Hev); [assumption | lia | lia | lia |].
  pose proof (Hev fuel (Nat.le_refl _)) as Hrun.
  exists fuel, s, (advance m r). split; [assumption|].
  apply Hpartial in Hrun. split; [assumption | lia].
Qed.

Lemma Generate_negative_count_witness :
  (exists fuel s r',
      Generate fuel (NewStatefulGenerator None) 5 (-1) 2 true true
               {| const_byte := zero_byte |} = Some (Returns s None, r') /\
      len s = 5 - Z.min 0 (-1) - Z.min 0 2 /\
      5 < len s) /\
  (forall fuel s r',
      Generate fuel (NewStatefulGenerator None) 5 (-1) 2 true true
               {| const_byte := zero_byte |} = Some (Returns s None, r') ->
      len s = 5 - Z.min 0 (-1) - Z.min 0 2).
Proof.
  apply (Generate_negative_count None 5 (-1) 2 true {| const_byte := zero_byte |}).
  - exact default_alphabets_ascii.
  - exact zero_reader_Int_total.
  - left. lia.
  - unfold max_int. lia.
  - unfold max_int. lia.
  - lia.
  - unfold max_int. lia.
Defined.

(** C10, as stated, fails when the other count is positive:
    [Generate(5, -1, 2, true, true)] returns six characters on the counting
    reader (four letters and two symbols), not
    [length - numDigits - numSymbols = 4], and 4 is not more than 5. *)
Lemma Generate_negative_digits_with_symbols :
  -1 < 0 /\ -1 + 2 <= 5 /\
  Generate 100 default_generator 5 (-1) 2 true true {| Counter := 0 |}
    = Some (Returns (str "b*e)cg") None, {| Counter := 11 |}) /\
  len (str "b*e)cg") = 6 /\
  len (str "b*e)cg") <> 5 - (-1) - 2.
Proof.
  split; [lia|]. split; [lia|].
  split; [vm_compute; reflexivity|]. split; [reflexivity | discriminate].
Qed.

(** ** A source that is not fair: the constant reader

    On a reader that delivers zero bytes only, every draw selects the first
    character of the alphabet, so a phase without repeats that has already
    placed that character never leaves its loop: the fairness of the source
    cannot be dropped from the termination of the retry loops. *)

Lemma zero_reader_Int fuel max :
  0 < max ->
  rand.Int fuel {| const_byte := zero_byte |} max = None \/
  rand.Int fuel {| const_byte := zero_byte |} max
    = Some (Returns 0 None, {| const_byte := zero_byte |}).
Proof.
  intros Hmax. unfold rand.Int.
  destruct (Z.leb_spec max 0); [lia|].
  destruct (_ =? 0); [now right|].
  destruct fuel as [|fuel]; [now left|]. right.
  simpl. rewrite ConstReader_ReadFull. simpl const_byte.
  rewrite SetBytes_zeros.
  destruct (Z.ltb_spec 0 max); [reflexivity | lia].
Qed.

Lemma zero_reader_randomElement fuel c0 rest :
  randomElement fuel {| const_byte := zero_byte |} (c0 :: rest) = None \/
  randomElement fuel {| const_byte := zero_byte |} (c0 :: rest)
    = Some (Returns (string_of_byte c0) None, {| const_byte := zero_byte |}).
Proof.
  unfold randomElement.
  destruct (zero_reader_Int fuel (len (c0 :: rest))) as [-> | ->];
    [unfold len; simpl; lia | now left | now right].
Qed.

Lemma zero_reader_phase_stuck c0 rest n i res :
  is_ascii c0 = true -> In c0 res -> 0 <= i < n -> n <= max_int ->
  forall fuel, phase fuel (c0 :: rest) false n i res {| const_byte := zero_byte |} = None.
Proof.
  intros Hc0 Hin Hi Hn. induction fuel as [|fuel IH]; simpl; [reflexivity|].
  destruct (Z.ltb_spec i n); [|lia].
  destruct (zero_reader_randomElement fuel c0 rest) as [-> | ->]; [reflexivity|].
  rewrite (string_of_byte_ascii c0 Hc0).
  replace (Contains res [c0]) with true by (symmetry; now apply Contains_single).
  simpl.
  rewrite (wrap_id (i - 1)), (wrap_id (i - 1 + 1))
    by (unfold go_int, min_int, max_int in *; lia).
  now replace (i - 1 + 1) with i by lia.
Qed.

Lemma constant_source_never_returns :
  validate default_generator 2 0 0 false false = None /\
  forall fuel,
    Generate fuel default_generator 2 0 0 false false {| const_byte := zero_byte |} = None.
Proof.
  split; [reflexivity|]. intros fuel.
  rewrite Generate_validate.
  change (validate default_generator 2 0 0 false false) with (@None error).
  change (letters_of default_generator false)
    with ("a"%char :: str "bcdefghijklmnopqrstuvwxyz").
  change (chars_of 2 0 0) with 2.
  assert (Hphase : phase fuel ("a"%char :: str "bcdefghijklmnopqrstuvwxyz") false 2 0 []
                         {| const_byte := zero_byte |} = None);
    [|now rewrite Hphase].
  destruct fuel as [|fuel]; [reflexivity|].
  cbn [phase]. change (0 <? 2) with true. cbv iota.
  destruct (zero_reader_randomElement fuel "a"%char (str "bcdefghijklmnopqrstuvwxyz"))
    as [-> | ->]; [reflexivity|].
  change (string_of_byte "a") with (str "a").
  change (negb false && Contains [] (str "a")) with false. cbv iota.
  change (randomInsert fuel {| const_byte := zero_byte |} [] (str "a"))
    with (Some (Returns (str "a") None, {| const_byte := zero_byte |})).
  cbv iota beta. change (wrap (0 + 1)) with 1.
  apply zero_reader_phase_stuck; [reflexivity | now left | lia | unfold max_int; lia].
Qed.

(** ** A call depends on its reader through the reads it makes

    A run that stops has made some number [m] of reads, and any reader, of
    whatever kind, whose first [m] reads deliver the same bytes and errors
    gives the same outcome with the same fuel, [m] reads on: nothing is
    read ahead, and nothing about the reader matters but what it
    delivers. *)

Section Prefixes.
Context {R1 R2 : Type} {H1 : Reader R1} {H2 : Reader R2}.



End Prefixes.

Section Replay.
Context {R1 : Type} {H1 : Reader R1}.








End Replay.

(** ** Errors of the validation and errors of the reader *)

(** C9, as amended.  An error of the validation is returned before the
    first draw: whatever the fuel, the call returns it with the empty string
    and the reader in the state in which the call found it.  And when the
    reader never reports one of the four precondition errors itself, every
    precondition error that [Generate] returns is such an error of the
    validation: nothing was read. *)
Theorem precondition_errors_consume_nothing
        {R : Type} `{Reader R} (fuel : nat) (g : StatefulGenerator)
        (length numDigits numSymbols : Z) (includeUpper allowRepeat : bool)
        (r : R) :
  (forall e,
      validate g length numDigits numSymbols includeUpper allowRepeat = Some e ->
      precondition_error e = true /\
      Generate fuel g length numDigits numSymbols includeUpper allowRepeat r
        = Some (Returns [] (Some e), r) /\
      Generate 0 g length numDigits numSymbols includeUpper allowRepeat r
        = Some (Returns [] (Some e), r)) /\
  (foreign_errors r ->
   forall v e r',
     Generate fuel g length numDigits numSymbols includeUpper allowRepeat r
       = Some (Returns v (Some e), r') ->
     precondition_error e = true ->
     r' = r /\ v = [] /\
     validate g length numDigits numSymbols includeUpper allowRepeat = Some e).
Proof.
  split.
  - intros e Hv. split; [eauto using validate_precondition_error|].
    split; now apply validate_fails.
  - intros Hfor v e r' Hrun He.
    destruct (precondition_error_validate _ _ _ _ _ _ _ _ _ _ _ Hfor Hrun He)
      as (Hv & -> & ->).
    auto.
Qed.

Lemma precondition_errors_consume_nothing_witness :
  (precondition_error ErrSymbolsExceedsAvailable = true /\
   Generate 100 default_generator 52 0 31 true false {| Counter := 7 |}
     = Some (Returns [] (Some ErrSymbolsExceedsAvailable), {| Counter := 7 |}) /\
   Generate 0 default_generator 52 0 31 true false {| Counter := 7 |}
     = Some (Returns [] (Some ErrSymbolsExceedsAvailable), {| Counter := 7 |})) /\
  ({| Counter := 7 |} = {| Counter := 7 |} /\ @nil ascii = [] /\
   validate default_generator 52 0 31 true false = Some ErrSymbolsExceedsAvailable).
Proof.
  destruct (precondition_errors_consume_nothing 100 default_generator 52 0 31 true false
              {| Counter := 7 |}) as [Hval Hret].
  split.
  - apply Hval. reflexivity.
  - apply (Hret (fair_foreign_errors _ (MockReader_fair _))
                [] ErrSymbolsExceedsAvailable {| Counter := 7 |}); reflexivity.
Defined.

(** C9, as stated, fails: the reader's error is returned as it is, so a
    reader that reports [ErrDigitsExceedsAvailable] once a byte has been
    read makes [Generate] return that precondition error with the reader
    used up, in a call that the validation accepts. *)
Lemma precondition_error_from_reader :
  precondition_error ErrDigitsExceedsAvailable = true /\
  validate default_generator 8 0 0 false true = None /\
  Generate 3 default_generator 8 0 0 false true
           ([inl "a"%char; inr ErrDigitsExceedsAvailable] : ScriptReader)
    = Some (Returns [] (Some ErrDigitsExceedsAvailable), ([] : ScriptReader)) /\
  ([] : ScriptReader) <> [inl "a"%char; inr ErrDigitsExceedsAvailable].
Proof. repeat split; try reflexivity. discriminate. Qed.

(** * Further properties of the package *)

(** ** The constructor *)

Lemma or_default_nonempty s d : d <> [] -> or_default s d <> [].
Proof. destruct s; simpl; [auto | discriminate]. Qed.

Lemma or_default_kept s d : s <> [] -> or_default s d = s.
Proof. destruct s; simpl; [contradiction | reflexivity]. Qed.

(** X1.  A generator built by [NewStatefulGenerator] has four non-empty
    alphabets; an override that is not empty is kept as it is, an empty one
    is replaced by the built-in alphabet; the nil input is the input with
    four empty overrides. *)
Theorem NewStatefulGenerator_alphabets (i : option GeneratorInput) :
  (lowerLetters (NewStatefulGenerator i) <> [] /\
   upperLetters (NewStatefulGenerator i) <> [] /\
   digits (NewStatefulGenerator i) <> [] /\
   symbols (NewStatefulGenerator i) <> []) /\
  (forall inp, i = Some inp ->
     lowerLetters (NewStatefulGenerator i)
       = (if len (InLowerLetters inp) =? 0 then LowerLetters else InLowerLetters inp) /\
     upperLetters (NewStatefulGenerator i)
       = (if len (InUpperLetters inp) =? 0 then UpperLetters else InUpperLetters inp) /\
     digits (NewStatefulGenerator i)
       = (if len (InDigits inp) =? 0 then Digits else InDigits inp) /\
     symbols (NewStatefulGenerator i)
       = (if len (InSymbols inp) =? 0 then Symbols else InSymbols inp)) /\
  NewStatefulGenerator None
    = NewStatefulGenerator (Some {| InLowerLetters := []; InUpperLetters := [];
                                    InDigits := []; InSymbols := [] |}).
Proof.
  split; [|split; [|reflexivity]].
  - simpl. repeat split; apply or_default_nonempty; discriminate.
  - intros inp ->. simpl.
    assert (Hd : forall s d, or_default s d = if len s =? 0 then d else s).
    { intros [|c s] d; reflexivity. }
    now rewrite !Hd.
Qed.

(** X2.  Building a generator from another generator's alphabets gives that
    generator back: the constructor changes nothing that it has already
    produced. *)
Theorem NewStatefulGenerator_idempotent (i : option GeneratorInput) :
  NewStatefulGenerator (Some (input_of (NewStatefulGenerator i)))
  = NewStatefulGenerator i.
Proof.
  assert (Hl : lowerLetters (NewStatefulGenerator i) <> [])
    by (apply or_default_nonempty; discriminate).
  assert (Hu : upperLetters (NewStatefulGenerator i) <> [])
    by (apply or_default_nonempty; discriminate).
  assert (Hd : digits (NewStatefulGenerator i) <> [])
    by (apply or_default_nonempty; discriminate).
  assert (Hs : symbols (NewStatefulGenerator i) <> [])
    by (apply or_default_nonempty; discriminate).
  unfold NewStatefulGenerator at 1. unfold input_of.
  cbn [InLowerLetters InUpperLetters InDigits InSymbols].
  rewrite !or_default_kept by assumption.
  now destruct (NewStatefulGenerator i).
Qed.

(** ** The sampling helpers *)

Section Helpers.
Context {R : Type} `{Reader R}.

(** X3.  [randomElement] returns, with a nil error, the string conversion of
    one byte of [s] (the byte itself when it is ASCII), having only read
    from the reader. *)
Theorem randomElement_picks (fuel : nat) (r r' : R) (s ch : gostring) :
  randomElement fuel r s = Some (Returns ch None, r') ->
  exists n c,
    nth_error s n = Some c /\ ch = string_of_byte c /\
    (is_ascii c = true -> ch = [c]) /\
    exists m, r' = advance m r.
Proof.
  unfold randomElement. intros Hrun.
  destruct (rand.Int fuel r (len s)) as [[[v [e|]|] r1]|] eqn:Hint; try discriminate.
  destruct (nth_error s (Z.to_nat v)) as [c|] eqn:Hnth; [|discriminate].
  inv Hrun. exists (Z.to_nat v), c. repeat split; auto.
  - apply string_of_byte_ascii.
  - eauto using Int_advance.
Qed.

(** X4.  The edges of [randomElement]: on the empty string it panics (the
    bound handed to [rand.Int] is zero), and on a string of one byte it
    returns that byte without reading. *)
Theorem randomElement_edges (fuel : nat) (r : R) (c : ascii) :
  randomElement fuel r [] = Some (Panics, r) /\
  randomElement fuel r [c] = Some (Returns (string_of_byte c) None, r).
Proof. split; reflexivity. Qed.

(** X5.  [randomInsert] splices [val] into [s] at some byte offset: the
    result is [s[:p] + val + s[p:]] for a [p <= len(s)], hence a
    rearrangement of the bytes of [val] and [s] that keeps the order of
    those of [s], of length [len(s) + len(val)]; into the empty string it
    is [val], and nothing is read. *)
Theorem randomInsert_splices (fuel : nat) (r r' : R) (s val res : gostring) :
  randomInsert fuel r s val = Some (Returns res None, r') ->
  (exists p, (p <= List.length s)%nat /\ res = firstn p s ++ val ++ skipn p s) /\
  Permutation (val ++ s) res /\
  len res = len s + len val /\
  randomInsert fuel r [] val = Some (Returns val None, r).
Proof.
  intros Hrun. apply randomInsert_returns in Hrun. destruct Hrun as (p & Hp & ->).
  split; [now exists p|]. split; [|split; [apply insert_at_length | reflexivity]].
  unfold insert_at. rewrite <- (firstn_skipn p s) at 1.
  apply Permutation_app_swap_app.
Qed.
End Helpers.

Lemma randomElement_picks_witness :
  exists n c,
    nth_error (str "abc") n = Some c /\ str "b" = string_of_byte c /\
    (is_ascii c = true -> str "b" = [c]) /\
    exists m, {| Counter := 1 |} = advance m {| Counter := 0 |}.
Proof.
  apply (randomElement_picks 5 {| Counter := 0 |} {| Counter := 1 |} (str "abc") (str "b")).
  reflexivity.
Defined.

Lemma randomInsert_splices_witness :
  (exists p, (p <= List.length (str "abc"))%nat /\
             str "abXc" = firstn p (str "abc") ++ str "X" ++ skipn p (str "abc")) /\
  Permutation (str "X" ++ str "abc") (str "abXc") /\
  len (str "abXc") = len (str "abc") + len (str "X") /\
  randomInsert 5 {| Counter := 1 |} [] (str "X") = Some (Returns (str "X") None, {| Counter := 1 |}).
Proof.
  apply (randomInsert_splices 5 {| Counter := 1 |} {| Counter := 2 |}
           (str "abc") (str "X") (str "abXc")).
  reflexivity.
Defined.

(** ** What [Generate] never does, and how it fails *)

Section Failures.
Context {R : Type} `{Reader R}.

Lemma Int_loop_no_panic fuel max k b : forall (r r' : R),
  rand.Int_loop fuel r max k b <> Some (Panics, r').
Proof.
  induction fuel as [|fuel IH]; simpl; intros r r'; [discriminate|].
  destruct (ReadFull k r) as [[bytes|e] r1]; [|discriminate].
  destruct (_ <? max); [discriminate | apply IH].
Qed.

Lemma Int_no_panic fuel max (r r' : R) :
  0 < max -> rand.Int fuel r max <> Some (Panics, r').
Proof.
  intros Hmax. unfold rand.Int. destruct (Z.leb_spec max 0); [lia|].
  destruct (_ =? 0); [discriminate | apply Int_loop_no_panic].
Qed.

Lemma randomElement_no_panic fuel s (r r' : R) :
  s <> [] -> randomElement fuel r s <> Some (Panics, r').
Proof.
  intros Hne Hrun. unfold randomElement in Hrun.
  destruct (rand.Int fuel r (len s)) as [[[v [e|]|] r1]|] eqn:Hint; try discriminate.
  - destruct (nth_error_below s v (Int_range _ _ _ _ _ Hint)) as (c & Hc).
    rewrite Hc in Hrun. discriminate.
  - apply Int_no_panic in Hint; [assumption | now apply len_pos_nonempty].
Qed.

Lemma randomInsert_no_panic fuel s val (r r' : R) :
  randomInsert fuel r s val <> Some (Panics, r').
Proof.
  intros Hrun. unfold randomInsert in Hrun. destruct s as [|c s]; [discriminate|].
  destruct (rand.Int fuel r (len (c :: s) + 1)) as [[[v [e|]|] r1]|] eqn:Hint;
    try discriminate.
  - apply Int_range in Hint.
    destruct (Z.leb_spec v (len (c :: s))); [discriminate | lia].
  - apply Int_no_panic in Hint; [assumption|].
    pose proof (len_nonneg (c :: s)). lia.
Qed.

Lemma phase_no_panic fuel A ar n : forall i res (r r' : R),
  A <> [] -> phase fuel A ar n i res r <> Some (Panics, r').
Proof.
  induction fuel as [|fuel IH]; simpl; intros i res r r' Hne; [discriminate|].
  destruct (i <? n); [|discriminate].
  destruct (randomElement fuel r A) as [[[ch [e|]|] r1]|] eqn:Hel; try discriminate.
  - destruct (negb ar && Contains res ch); [now apply IH|].
    destruct (randomInsert fuel r1 res ch) as [[[res1 [e|]|] r2]|] eqn:Hins;
      try discriminate; [now apply IH|].
    now apply randomInsert_no_panic in Hins.
  - now apply randomElement_no_panic in Hel.
Qed.

Lemma Generate_no_panic fuel i length numDigits numSymbols includeUpper allowRepeat
      (r r' : R) :
  Generate fuel (NewStatefulGenerator i) length numDigits numSymbols
           includeUpper allowRepeat r <> Some (Panics, r').
Proof.
  destruct (NewStatefulGenerator_nonempty i includeUpper) as (HL & HD & HS).
  rewrite Generate_validate.
  destruct (validate _ _ _ _ _ _); [discriminate|].
  unfold and_then.
  destruct (phase fuel (letters_of _ _) _ _ 0 [] r) as [[[res1 [e|]|] r1]|] eqn:H1;
    try discriminate; [|now apply phase_no_panic in H1].
  destruct (phase fuel (digits _) _ _ 0 res1 r1) as [[[res2 [e|]|] r2]|] eqn:H2;
    try discriminate; [|now apply phase_no_panic in H2].
  now apply phase_no_panic.
Qed.

(** X6.  A generator built by the constructor never panics: neither
    [Generate] nor [GenerateWithPolicy] ends in a panic, whatever the
    arguments and the reader (no draw is made from an empty alphabet, no
    index or slice bound is out of range). *)
Theorem Generate_never_panics
        (fuel : nat) (i : option GeneratorInput)
        (length numDigits numSymbols : Z) (includeUpper allowRepeat : bool)
        (needsLower needsUpper needsDigit needsSymbol : bool) (r r' : R) :
  Generate fuel (NewStatefulGenerator i) length numDigits numSymbols
           includeUpper allowRepeat r <> Some (Panics, r') /\
  GenerateWithPolicy fuel (NewStatefulGenerator i) length numDigits numSymbols
                     includeUpper allowRepeat
                     needsLower needsUpper needsDigit needsSymbol r
    <> Some (Panics, r').
Proof.
  split; [apply Generate_no_panic|].
  revert r. induction fuel as [|fuel IH]; simpl; intros r; [discriminate|].
  destruct (Generate fuel (NewStatefulGenerator i) length numDigits numSymbols
                     includeUpper allowRepeat r)
    as [[[res [e|]|] r1]|] eqn:Hgen; try discriminate.
  - destruct (isLegalPassword res _ _ _ _); [discriminate | apply IH].
  - now apply Generate_no_panic in Hgen.
Qed.

Lemma Generate_error_empty fuel g length numDigits numSymbols includeUpper allowRepeat
      (r r' : R) v e :
  Generate fuel g length numDigits numSymbols includeUpper allowRepeat r
    = Some (Returns v (Some e), r') ->
  v = [].
Proof.
  intros Hrun.
  destruct (validate g length numDigits numSymbols includeUpper allowRepeat)
    as [e0|] eqn:Hv.
  - rewrite (validate_fails _ _ _ _ _ _ _ _ _ Hv) in Hrun. now inv Hrun.
  - apply phases_err in Hrun; [|exact Hv]. tauto.
Qed.

(** X7.  Every error return of [Generate] carries the empty string, and the
    error is either the one raised by the validation, with the reader
    untouched, or the error of the reader (the value that one of its reads
    reported, [io.EOF] after some bytes of a draw being turned into
    [io.ErrUnexpectedEOF]), in a call that had passed the validation. *)
Theorem Generate_error_returns
        (fuel : nat) (g : StatefulGenerator)
        (length numDigits numSymbols : Z) (includeUpper allowRepeat : bool)
        (r r' : R) (v : gostring) (e : error) :
  Generate fuel g length numDigits numSymbols includeUpper allowRepeat r
    = Some (Returns v (Some e), r') ->
  v = [] /\
  ((validate g length numDigits numSymbols includeUpper allowRepeat = Some e /\ r' = r)
   \/ (validate g length numDigits numSymbols includeUpper allowRepeat = None /\
       reports r e)).
Proof.
  intros Hrun.
  destruct (validate g length numDigits numSymbols includeUpper allowRepeat)
    as [e0|] eqn:Hv.
  - rewrite (validate_fails _ _ _ _ _ _ _ _ _ Hv) in Hrun. inv Hrun. auto.
  - apply phases_err in Hrun; [|exact Hv]. destruct Hrun as [Hrep ->]. auto.
Qed.

Lemma Int_reader_failure fuel max (r : R) e :
  nth_read 0 r = inr e -> 2 <= max ->
  rand.Int (S fuel) r max = Some (Returns 0 (Some e), advance 1 r).
Proof.
  intros Hfail Hmax. unfold rand.Int.
  destruct (Z.leb_spec max 0); [lia|].
  assert (Hbl : 1 <= rand.BitLen (max - 1)).
  { unfold rand.BitLen. destruct (Z.leb_spec (max - 1) 0); [lia|].
    pose proof (Z.log2_nonneg (max - 1)). lia. }
  destruct (Z.eqb_spec (rand.BitLen (max - 1)) 0); [lia|].
  assert (Hk : 1 <= (rand.BitLen (max - 1) + 7) / 8)
    by (apply Z.div_le_lower_bound; lia).
  destruct (Z.to_nat ((rand.BitLen (max - 1) + 7) / 8)) as [|k] eqn:Hkn; [lia|].
  unfold nth_read in Hfail. simpl in Hfail. simpl.
  destruct (Read r) as [[b|e1] r1]; simpl in Hfail; [discriminate|].
  now inv Hfail.
Qed.

(** X8.  A failing reader ends the call: when the next read of the reader
    reports an error and the call has to draw a letter from an alphabet of
    at least two bytes, [Generate] returns the empty string and the
    reader's error, the very value that the read reported, after that single
    read; nothing is retried. *)
Theorem Generate_reader_failure
        (fuel : nat) (g : StatefulGenerator)
        (length numDigits numSymbols : Z) (includeUpper allowRepeat : bool) (r : R)
        (e : error) :
  nth_read 0 r = inr e ->
  validate g length numDigits numSymbols includeUpper allowRepeat = None ->
  1 <= chars_of length numDigits numSymbols ->
  2 <= len (letters_of g includeUpper) ->
  Generate (S (S fuel)) g length numDigits numSymbols includeUpper allowRepeat r
    = Some (Returns [] (Some e), advance 1 r).
Proof.
  intros Hfail Hval Hchars Hlen.
  rewrite Generate_validate, Hval.
  assert (Hphase : phase (S (S fuel)) (letters_of g includeUpper) allowRepeat
                         (chars_of length numDigits numSymbols) 0 [] r
                   = Some (Returns [] (Some e), advance 1 r));
    [|now rewrite Hphase].
  cbn [phase]. destruct (Z.ltb_spec 0 (chars_of length numDigits numSymbols)); [|lia].
  unfold randomElement. now rewrite (Int_reader_failure _ _ _ e).
Qed.

(** X9.  Without wrap-around of [length - numDigits - numSymbols], and on a
    reader that never reports one of the package's four precondition errors
    itself, each of the three availability errors is returned exactly under
    its own condition, in the order letters, digits, symbols: a later check
    is reached only when the earlier ones pass, and none can fail when
    repeats are allowed. *)
Theorem Generate_availability_errors
        (fuel : nat) (g : StatefulGenerator)
        (length numDigits numSymbols : Z) (includeUpper allowRepeat : bool) (r : R) :
  go_int (length - numDigits - numSymbols) ->
  foreign_errors r ->
  ((exists v r', Generate fuel g length numDigits numSymbols includeUpper allowRepeat r
                 = Some (Returns v (Some ErrLettersExceedsAvailable), r'))
   <-> allowRepeat = false /\
       0 <= length - numDigits - numSymbols /\
       len (letters_of g includeUpper) < length - numDigits - numSymbols) /\
  ((exists v r', Generate fuel g length numDigits numSymbols includeUpper allowRepeat r
                 = Some (Returns v (Some ErrDigitsExceedsAvailable), r'))
   <-> allowRepeat = false /\
       0 <= length - numDigits - numSymbols <= len (letters_of g includeUpper) /\
       len (digits g) < numDigits) /\
  ((exists v r', Generate fuel g length numDigits numSymbols includeUpper allowRepeat r
                 = Some (Returns v (Some ErrSymbolsExceedsAvailable), r'))
   <-> allowRepeat = false /\
       0 <= length - numDigits - numSymbols <= len (letters_of g includeUpper) /\
       numDigits <= len (digits g) /\
       len (symbols g) < numSymbols).
Proof.
  intros Hrange Hfor.
  assert (Hret : forall e, precondition_error e = true ->
             ((exists v r', Generate fuel g length numDigits numSymbols
                                     includeUpper allowRepeat r
                            = Some (Returns v (Some e), r'))
              <-> validate g length numDigits numSymbols includeUpper allowRepeat = Some e)).
  { intros e He. split.
    - intros (v & r' & Hrun).
      now apply (precondition_error_validate _ _ _ _ _ _ _ _ _ _ _ Hfor) in Hrun.
    - intros Hv. exists [], r. now apply validate_fails. }
  rewrite !Hret by reflexivity. clear Hret.
  unfold validate. rewrite (chars_of_exact _ _ _ Hrange).
  destruct allowRepeat; simpl;
    destruct (Z.ltb_spec (length - numDigits - numSymbols) 0);
    destruct (Z.ltb_spec (len (letters_of g includeUpper))
                         (length - numDigits - numSymbols));
    destruct (Z.ltb_spec (len (digits g)) numDigits);
    destruct (Z.ltb_spec (len (symbols g)) numSymbols);
    repeat split; intros; try discriminate; try lia; try tauto;
    repeat match goal with
           | Hc : _ /\ _ |- _ => destruct Hc
           end; try discriminate; try lia.
Qed.

(** X10.  Nothing requested, nothing drawn: when the letters count is zero
    and neither count is positive (so also for a negative length that the
    negative counts add up to), [Generate] returns the empty string with a
    nil error and leaves the reader untouched, whatever the alphabets. *)
Theorem Generate_nothing_requested
        (fuel : nat) (g : StatefulGenerator)
        (length numDigits numSymbols : Z) (includeUpper allowRepeat : bool) (r : R) :
  chars_of length numDigits numSymbols = 0 ->
  numDigits <= 0 -> numSymbols <= 0 ->
  Generate (S fuel) g length numDigits numSymbols includeUpper allowRepeat r
    = Some (Returns [] None, r).
Proof.
  intros Hchars Hd Hs. rewrite Generate_validate.
  assert (Hval : validate g length numDigits numSymbols includeUpper allowRepeat = None).
  { unfold validate. rewrite Hchars.
    pose proof (len_nonneg (letters_of g includeUpper)).
    pose proof (len_nonneg (digits g)). pose proof (len_nonneg (symbols g)).
    destruct (Z.ltb_spec 0 0); [lia|].
    destruct (Z.ltb_spec (len (letters_of g includeUpper)) 0); [lia|].
    destruct (Z.ltb_spec (len (digits g)) numDigits); [lia|].
    destruct (Z.ltb_spec (len (symbols g)) numSymbols); [lia|].
    now rewrite !andb_false_r. }
  rewrite Hval, Hchars. cbn [phase and_then].
  destruct (Z.ltb_spec 0 0); [lia|].
  destruct (Z.ltb_spec 0 numDigits); [lia|].
  destruct (Z.ltb_spec 0 numSymbols); [lia | reflexivity].
Qed.
End Failures.

Lemma Generate_error_returns_witness :
  @nil ascii = [] /\
  ((validate default_generator 8 0 0 false true = Some (OtherError 0) /\
    advance 1 failing = failing)
   \/ (validate default_generator 8 0 0 false true = None /\
       reports failing (OtherError 0))).
Proof.
  apply (Generate_error_returns 5 default_generator 8 0 0 false true
           failing (advance 1 failing) [] (OtherError 0)).
  reflexivity.
Defined.

Lemma Generate_reader_failure_witness :
  Generate 2 default_generator 8 0 0 false true failing
    = Some (Returns [] (Some (OtherError 0)), advance 1 failing).
Proof.
  apply (Generate_reader_failure 0 default_generator 8 0 0 false true failing
           (OtherError 0)).
  - reflexivity.
  - reflexivity.
  - vm_compute. discriminate.
  - vm_compute. discriminate.
Defined.

Lemma Generate_availability_errors_witness :
  ((exists v r', Generate 0 default_generator 1000 0 0 true false {| Counter := 0 |}
                 = Some (Returns v (Some ErrLettersExceedsAvailable), r'))
   <-> false = false /\ 0 <= 1000 - 0 - 0 /\
       len (letters_of default_generator true) < 1000 - 0 - 0) /\
  ((exists v r', Generate 0 default_generator 1000 0 0 true false {| Counter := 0 |}
                 = Some (Returns v (Some ErrDigitsExceedsAvailable), r'))
   <-> false = false /\
       0 <= 1000 - 0 - 0 <= len (letters_of default_generator true) /\
       len (digits default_generator) < 0) /\
  ((exists v r', Generate 0 default_generator 1000 0 0 true false {| Counter := 0 |}
                 = Some (Returns v (Some ErrSymbolsExceedsAvailable), r'))
   <-> false = false /\
       0 <= 1000 - 0 - 0 <= len (letters_of default_generator true) /\
       0 <= len (digits default_generator) /\
       len (symbols default_generator) < 0).
Proof.
  apply (Generate_availability_errors 0 default_generator 1000 0 0 true false
           {| Counter := 0 |}).
  - unfold go_int, min_int, max_int. lia.
  - apply fair_foreign_errors, MockReader_fair.
Defined.

Lemma Generate_nothing_requested_witness :
  Generate 1 default_generator (-3) (-1) (-2) true false {| Counter := 0 |}
    = Some (Returns [] None, {| Counter := 0 |}).
Proof.
  apply (Generate_nothing_requested 0 default_generator (-3) (-1) (-2) true false
           {| Counter := 0 |}); [reflexivity | lia | lia].
Defined.

(** ** The composition of a result *)

Section Composition.
Context {R : Type} `{Reader R}.

Lemma phase_skip fuel A ar n i res (r : R) o r' :
  n <= i -> phase fuel A ar n i res r = Some (o, r') -> o = Returns res None /\ r' = r.
Proof.
  intros Hle. destruct fuel as [|fuel]; simpl; [discriminate|].
  destruct (Z.ltb_spec i n); [lia|]. intros Hrun. now inv Hrun.
Qed.

Lemma phase_incl_used fuel A ar n i res (r : R) res' r' :
  ascii_string A ->
  phase fuel A ar n i res r = Some (Returns res' None, r') ->
  forall x, In x res' -> In x res \/ (i < n /\ In x A).
Proof.
  intros HA Hrun x Hx. destruct (Z.lt_ge_cases i n) as [Hlt | Hge].
  - destruct (phase_incl _ _ _ _ _ _ _ _ _ HA Hrun x Hx); auto.
  - apply (phase_skip _ _ _ _ _ _ _ _ _ Hge) in Hrun. destruct Hrun as [Ho _].
    inv Ho. auto.
Qed.

Lemma phase_count_own fuel A ar n i res (r : R) res' r' :
  ascii_string A -> n <= max_int -> 0 <= i ->
  phase fuel A ar n i res r = Some (Returns res' None, r') ->
  Z.of_nat (count_in A res') = Z.of_nat (count_in A res) + Z.max 0 (n - i).
Proof.
  intros HA Hn Hi Hrun.
  assert (Hend : Z.of_nat (count_in A res')
                 = Z.of_nat (count_in A res) + (Z.max i n - i)); [|lia].
  eapply (phase_invariant A ar n
            (fun j s => Z.of_nat (count_in A s) = Z.of_nat (count_in A res) + (j - i)) Hn);
    [ | exact Hi | | exact Hrun]; cbv beta; [|lia].
  intros j s c p Hj Hs Hc _ _.
  rewrite (string_of_byte_ascii c) by eauto using ascii_string_In.
  rewrite insert_at_count. apply mem_In in Hc. rewrite Hc. lia.
Qed.

Lemma phase_count_other fuel A B ar n i res (r : R) res' r' :
  ascii_string A -> (forall x, In x A -> ~ In x B) ->
  phase fuel A ar n i res r = Some (Returns res' None, r') ->
  count_in B res' = count_in B res.
Proof.
  intros HA Hdis Hrun.
  eapply (phase_preserves A ar n (fun s => count_in B s = count_in B res));
    [ | reflexivity | exact Hrun]; cbv beta.
  intros s c p Hs Hc _ _.
  rewrite (string_of_byte_ascii c) by eauto using ascii_string_In.
  rewrite insert_at_count.
  destruct (mem c B) eqn:Hm; [|lia].
  apply mem_In in Hm. now apply Hdis in Hc.
Qed.

(** The characters of a result, by the phase that drew them. *)
Lemma Generate_used_alphabets
        (fuel : nat) (g : StatefulGenerator)
        (length numDigits numSymbols : Z) (includeUpper allowRepeat : bool)
        (r r' : R) (s : gostring) :
  ascii_string (all_alphabets g) ->
  Generate fuel g length numDigits numSymbols includeUpper allowRepeat r
    = Some (Returns s None, r') ->
  forall x, In x s ->
    (0 < chars_of length numDigits numSymbols /\ In x (letters_of g includeUpper)) \/
    (0 < numDigits /\ In x (digits g)) \/
    (0 < numSymbols /\ In x (symbols g)).
Proof.
  intros Hasc Hrun x Hx.
  destruct (ascii_alphabets g includeUpper Hasc) as (HL & HD & HS).
  apply Generate_returns_inv in Hrun.
  destruct Hrun as (_ & res1 & r1 & res2 & r2 & H1 & H2 & H3).
  destruct (phase_incl_used _ _ _ _ _ _ _ _ _ HS H3 x Hx) as [Hx2|]; [|tauto].
  destruct (phase_incl_used _ _ _ _ _ _ _ _ _ HD H2 x Hx2) as [Hx1|]; [|tauto].
  destruct (phase_incl_used _ _ _ _ _ _ _ _ _ HL H1 x Hx1) as [[]|]. tauto.
Qed.

(** X11.  Only what was asked for is drawn: with ASCII alphabets, every
    character of a result comes from the letter alphabet of the call, from
    the digits alphabet or from the symbols alphabet, and from one of these
    only if the corresponding count is positive. *)
Theorem Generate_draws_from_requested
        (fuel : nat) (g : StatefulGenerator)
        (length numDigits numSymbols : Z) (includeUpper allowRepeat : bool)
        (r r' : R) (s : gostring) :
  ascii_string (all_alphabets g) ->
  Generate fuel g length numDigits numSymbols includeUpper allowRepeat r
    = Some (Returns s None, r') ->
  forall x, In x s ->
    (0 < chars_of length numDigits numSymbols /\ In x (letters_of g includeUpper)) \/
    (0 < numDigits /\ In x (digits g)) \/
    (0 < numSymbols /\ In x (symbols g)).
Proof. intros; eapply Generate_used_alphabets; eassumption. Qed.

(** The phases count: each adds to its own alphabet only. *)
Lemma Generate_class_counts
        (fuel : nat) (g : StatefulGenerator)
        (length numDigits numSymbols : Z) (includeUpper allowRepeat : bool)
        (r r' : R) (s : gostring) :
  ascii_string (all_alphabets g) ->
  (forall x, In x (letters_of g includeUpper) -> ~ In x (digits g)) ->
  (forall x, In x (letters_of g includeUpper) -> ~ In x (symbols g)) ->
  (forall x, In x (digits g) -> ~ In x (symbols g)) ->
  numDigits <= max_int -> numSymbols <= max_int ->
  Generate fuel g length numDigits numSymbols includeUpper allowRepeat r
    = Some (Returns s None, r') ->
  Z.of_nat (count_in (letters_of g includeUpper) s) = chars_of length numDigits numSymbols /\
  Z.of_nat (count_in (digits g) s) = Z.max 0 numDigits /\
  Z.of_nat (count_in (symbols g) s) = Z.max 0 numSymbols.
Proof.
  intros Hasc HLD HLS HDS Hd Hs Hrun.
  destruct (ascii_alphabets g includeUpper Hasc) as (HL & HD & HS).
  apply Generate_returns_inv in Hrun.
  destruct Hrun as (Hval & res1 & r1 & res2 & r2 & H1 & H2 & H3).
  apply validate_chars_nonneg in Hval.
  pose proof (proj2 (wrap_range (wrap (length - numDigits) - numSymbols))) as Hc.
  fold (chars_of length numDigits numSymbols) in Hc.
  assert (HDL : forall x, In x (digits g) -> ~ In x (letters_of g includeUpper))
    by (intros x Hx Hx'; exact (HLD x Hx' Hx)).
  assert (HSL : forall x, In x (symbols g) -> ~ In x (letters_of g includeUpper))
    by (intros x Hx Hx'; exact (HLS x Hx' Hx)).
  assert (HSD : forall x, In x (symbols g) -> ~ In x (digits g))
    by (intros x Hx Hx'; exact (HDS x Hx' Hx)).
  repeat split.
  - rewrite (phase_count_other _ _ _ _ _ _ _ _ _ _ HS HSL H3).
    rewrite (phase_count_other _ _ _ _ _ _ _ _ _ _ HD HDL H2).
    rewrite (phase_count_own _ _ _ _ _ _ _ _ _ HL Hc (Z.le_refl 0) H1).
    unfold count_in. simpl. lia.
  - rewrite (phase_count_other _ _ _ _ _ _ _ _ _ _ HS HSD H3).
    rewrite (phase_count_own _ _ _ _ _ _ _ _ _ HD Hd (Z.le_refl 0) H2).
    rewrite (phase_count_other _ _ _ _ _ _ _ _ _ _ HL HLD H1).
    unfold count_in. simpl. lia.
  - rewrite (phase_count_own _ _ _ _ _ _ _ _ _ HS Hs (Z.le_refl 0) H3).
    rewrite (phase_count_other _ _ _ _ _ _ _ _ _ _ HD HDS H2).
    rewrite (phase_count_other _ _ _ _ _ _ _ _ _ _ HL HLS H1).
    unfold count_in. simpl. lia.
Qed.

(** X12.  The class counts of a result: with ASCII alphabets of which the
    letters, the digits and the symbols share no character, a result holds
    exactly [length - numDigits - numSymbols] (as the code computes it)
    characters of the letter alphabet, [numDigits] of the digits alphabet
    and [numSymbols] of the symbols alphabet, a negative count standing
    for none. *)
Theorem Generate_composition
        (fuel : nat) (g : StatefulGenerator)
        (length numDigits numSymbols : Z) (includeUpper allowRepeat : bool)
        (r r' : R) (s : gostring) :
  ascii_string (all_alphabets g) ->
  (forall x, In x (letters_of g includeUpper) -> ~ In x (digits g)) ->
  (forall x, In x (letters_of g includeUpper) -> ~ In x (symbols g)) ->
  (forall x, In x (digits g) -> ~ In x (symbols g)) ->
  numDigits <= max_int -> numSymbols <= max_int ->
  Generate fuel g length numDigits numSymbols includeUpper allowRepeat r
    = Some (Returns s None, r') ->
  Z.of_nat (count_in (letters_of g includeUpper) s) = chars_of length numDigits numSymbols /\
  Z.of_nat (count_in (digits g) s) = Z.max 0 numDigits /\
  Z.of_nat (count_in (symbols g) s) = Z.max 0 numSymbols.
Proof. intros; eapply Generate_class_counts; eassumption. Qed.
End Composition.

Lemma disjoint_by_mem (A B : gostring) :
  forallb (fun x => negb (mem x B)) A = true -> forall x, In x A -> ~ In x B.
Proof.
  intros Hall x Hx HB. rewrite forallb_forall in Hall. specialize (Hall x Hx).
  apply mem_In in HB. rewrite HB in Hall. discriminate.
Qed.

Lemma Generate_draws_from_requested_witness :
  (0 < chars_of 25 0 0 /\ In "q"%char (letters_of default_generator false)) \/
  (0 < 0 /\ In "q"%char (digits default_generator)) \/
  (0 < 0 /\ In "q"%char (symbols default_generator)).
Proof.
  apply (Generate_draws_from_requested 100 default_generator 25 0 0 false true
           {| Counter := 0 |} {| Counter := 55 |} (str "baqciesgeiukkmwocqysmugwo")).
  - exact default_alphabets_ascii.
  - vm_compute. reflexivity.
  - simpl. tauto.
Defined.

Lemma Generate_composition_witness :
  Z.of_nat (count_in (letters_of default_generator true) (str "b0q2i$s^eukwcymAgCoE"))
    = chars_of 20 2 2 /\
  Z.of_nat (count_in (digits default_generator) (str "b0q2i$s^eukwcymAgCoE")) = Z.max 0 2 /\
  Z.of_nat (count_in (symbols default_generator) (str "b0q2i$s^eukwcymAgCoE")) = Z.max 0 2.
Proof.
  apply (Generate_composition 100 default_generator 20 2 2 true false
           {| Counter := 0 |} {| Counter := 39 |}).
  - exact default_alphabets_ascii.
  - apply disjoint_by_mem. reflexivity.
  - apply disjoint_by_mem. reflexivity.
  - apply disjoint_by_mem. reflexivity.
  - unfold max_int. lia.
  - unfold max_int. lia.
  - vm_compute. reflexivity.
Defined.

(** ** The policy checks *)

(** The regular expressions of the class checks, read off the bytes. *)
Lemma contains_as_existsb (s : gostring) :
  containsLower s = existsb is_lower s /\
  containsUpper s = existsb is_upper s /\
  containsDigit s = existsb is_digit s /\
  containsSymbol s = existsb is_not_alnum s.
Proof.
  unfold containsLower, containsUpper, containsDigit, containsSymbol.
  now rewrite !MatchString_around, MatchString_plus_class.
Qed.

(** X13.  The four class checks, which the code writes as regular
    expressions, test for the presence of one byte: [containsLower],
    [containsUpper] and [containsDigit] hold exactly when the string has a
    byte in [a-z], [A-Z], [0-9], and [containsSymbol] exactly when it has a
    byte outside these three ranges (so never on the empty string, and on
    every string with a newline or a byte outside ASCII). *)
Theorem contains_checks (s : gostring) :
  containsLower s = existsb is_lower s /\
  containsUpper s = existsb is_upper s /\
  containsDigit s = existsb is_digit s /\
  containsSymbol s = existsb is_not_alnum s.
Proof. intros; eapply contains_as_existsb; eassumption. Qed.

(** X14.  [isLegalPassword] accepts a string exactly when it holds a
    character of each class that is asked for; with no class asked for it
    accepts every string, and inserting anything into an accepted string
    keeps it accepted. *)
Theorem isLegalPassword_iff (p : gostring)
        (needsLower needsUpper needsDigit needsSymbol : bool) :
  (isLegalPassword p needsLower needsUpper needsDigit needsSymbol = true <->
   (needsLower = true -> exists c, In c p /\ is_lower c = true) /\
   (needsUpper = true -> exists c, In c p /\ is_upper c = true) /\
   (needsDigit = true -> exists c, In c p /\ is_digit c = true) /\
   (needsSymbol = true -> exists c, In c p /\ is_not_alnum c = true)) /\
  isLegalPassword p false false false false = true /\
  (forall k val,
      isLegalPassword p needsLower needsUpper needsDigit needsSymbol = true ->
      isLegalPassword (insert_at k val p) needsLower needsUpper needsDigit needsSymbol
        = true).
Proof.
  assert (Hiff : forall q,
             isLegalPassword q needsLower needsUpper needsDigit needsSymbol = true <->
             (needsLower = true -> exists c, In c q /\ is_lower c = true) /\
             (needsUpper = true -> exists c, In c q /\ is_upper c = true) /\
             (needsDigit = true -> exists c, In c q /\ is_digit c = true) /\
             (needsSymbol = true -> exists c, In c q /\ is_not_alnum c = true)).
  { intros q. rewrite <- !existsb_exists.
    unfold isLegalPassword.
    destruct (contains_as_existsb q) as (-> & -> & -> & ->).
    destruct needsLower, needsUpper, needsDigit, needsSymbol;
      destruct (existsb is_lower q), (existsb is_upper q),
               (existsb is_digit q), (existsb is_not_alnum q);
      simpl; split; intros Hl; try discriminate; try reflexivity;
      repeat split; auto;
      try (destruct Hl as (H1 & H2 & H3 & H4);
           first [ specialize (H1 eq_refl); discriminate
                 | specialize (H2 eq_refl); discriminate
                 | specialize (H3 eq_refl); discriminate
                 | specialize (H4 eq_refl); discriminate ]). }
  split; [apply Hiff|]. split; [reflexivity|].
  intros k val Hlegal. apply Hiff. apply Hiff in Hlegal.
  assert (Hin : forall c, In c p -> In c (insert_at k val p)).
  { intros c Hc. unfold insert_at. rewrite <- (firstn_skipn k p) in Hc.
    rewrite !in_app_iff in *. tauto. }
  destruct Hlegal as (Hl & Hu & Hd & Hs).
  repeat split; intros Hneed;
    [destruct (Hl Hneed) as (c & Hc & Hp) | destruct (Hu Hneed) as (c & Hc & Hp)
     | destruct (Hd Hneed) as (c & Hc & Hp) | destruct (Hs Hneed) as (c & Hc & Hp)];
    exists c; auto.
Qed.

(** ** The policy loop *)

Section PolicyLoop.
Context {R : Type} `{Reader R}.

Lemma GenerateWithPolicy_returns_inv fuel g length numDigits numSymbols
      includeUpper allowRepeat needsLower needsUpper needsDigit needsSymbol
      (r r' : R) s :
  GenerateWithPolicy fuel g length numDigits numSymbols includeUpper allowRepeat
                     needsLower needsUpper needsDigit needsSymbol r
    = Some (Returns s None, r') ->
  exists fuel' r0,
    Generate fuel' g length numDigits numSymbols includeUpper allowRepeat r0
      = Some (Returns s None, r') /\
    isLegalPassword s needsLower needsUpper needsDigit needsSymbol = true.
Proof.
  revert r. induction fuel as [|fuel IH]; simpl; intros r Hrun; [discriminate|].
  destruct (Generate fuel g length numDigits numSymbols includeUpper allowRepeat r)
    as [[[res [e|]|] r1]|] eqn:Hgen; try discriminate.
  destruct (isLegalPassword res _ _ _ _) eqn:Hlegal; [|eauto].
  inv Hrun. eauto.
Qed.

(** X15.  [GenerateWithPolicy] does not retry a failed call: an error of
    [Generate] is returned at once with the empty string, and in a call
    that the validation rejects that error is the one of the validation
    and the reader is left untouched. *)
Theorem GenerateWithPolicy_forwards_errors
        (fuel : nat) (g : StatefulGenerator)
        (length numDigits numSymbols : Z) (includeUpper allowRepeat : bool)
        (needsLower needsUpper needsDigit needsSymbol : bool)
        (r r' : R) (v : gostring) (e : error) :
  Generate fuel g length numDigits numSymbols includeUpper allowRepeat r
    = Some (Returns v (Some e), r') ->
  GenerateWithPolicy (S fuel) g length numDigits numSymbols includeUpper allowRepeat
                     needsLower needsUpper needsDigit needsSymbol r
    = Some (Returns [] (Some e), r') /\
  (forall e0,
      validate g length numDigits numSymbols includeUpper allowRepeat = Some e0 ->
      e = e0 /\ r' = r).
Proof.
  intros Hrun. split; [simpl; now rewrite Hrun|].
  intros e0 Hv.
  destruct (validate_returned _ _ _ _ _ _ _ _ _ _ _ _ Hrun Hv) as (-> & _ & ->).
  auto.
Qed.

(** X16.  A policy that asks for nothing is [Generate]: with the four flags
    false, [GenerateWithPolicy] makes one call of [Generate] and returns
    what it returned. *)
Theorem GenerateWithPolicy_without_flags
        (fuel : nat) (g : StatefulGenerator)
        (length numDigits numSymbols : Z) (includeUpper allowRepeat : bool) (r : R) :
  GenerateWithPolicy (S fuel) g length numDigits numSymbols includeUpper allowRepeat
                     false false false false r
  = Generate fuel g length numDigits numSymbols includeUpper allowRepeat r.
Proof.
  simpl.
  destruct (Generate fuel g length numDigits numSymbols includeUpper allowRepeat r)
    as [[[res [e|]|] r1]|] eqn:Hgen; try reflexivity.
  apply Generate_error_empty in Hgen. now subst.
Qed.

(** X17.  A string returned by [GenerateWithPolicy] is a result of
    [Generate]: for ASCII alphabets and counts that are not negative with
    [numDigits + numSymbols <= length] it has exactly [length] characters,
    and without repeats no character twice. *)
Theorem GenerateWithPolicy_result
        (fuel : nat) (g : StatefulGenerator)
        (length numDigits numSymbols : Z) (includeUpper allowRepeat : bool)
        (needsLower needsUpper needsDigit needsSymbol : bool)
        (r r' : R) (s : gostring) :
  ascii_string (all_alphabets g) ->
  0 <= numDigits -> 0 <= numSymbols ->
  numDigits + numSymbols <= length -> length <= max_int ->
  GenerateWithPolicy fuel g length numDigits numSymbols includeUpper allowRepeat
                     needsLower needsUpper needsDigit needsSymbol r
    = Some (Returns s None, r') ->
  len s = length /\
  (forall x, In x s -> In x (all_alphabets g)) /\
  (allowRepeat = false -> NoDup s /\ testHasDuplicates s = false).
Proof.
  intros Hasc Hd Hs Hsum Hlen Hrun.
  apply GenerateWithPolicy_returns_inv in Hrun.
  destruct Hrun as (fuel' & r0 & Hgen & _).
  assert (Hincl : forall x, In x s -> In x (all_alphabets g))
    by eauto using Generate_incl.
  split; [|split; [exact Hincl|]].
  - apply Generate_length in Hgen; [| assumption | lia | lia].
    rewrite Hgen, chars_of_exact by (unfold go_int, min_int, max_int in *; lia). lia.
  - intros ->. assert (Hnd : NoDup s) by eauto using Generate_NoDup.
    split; [assumption|]. apply testHasDuplicates_ascii; [|assumption].
    apply Forall_forall. intros x Hx. eapply ascii_string_In; eauto.
Qed.

Lemma Int_fair_cases fuel max (r : R) :
  fair r -> 0 < max ->
  rand.Int fuel r max = None \/
  exists v m, 0 <= v < max /\ rand.Int fuel r max = Some (Returns v None, advance m r).
Proof.
  intros Hfair Hmax.
  assert (Hint : rand.Int fuel r max = None \/
                 exists v m, rand.Int fuel r max = Some (Returns v None, advance m r)).
  { unfold rand.Int. destruct (Z.leb_spec max 0); [lia|].
    destruct (_ =? 0); [right; now exists 0, 0%nat|].
    now apply Int_loop_fair_cases. }
  destruct Hint as [Hnone | (v & m & Hsome)]; [now left | right].
  exists v, m. split; [eauto using Int_range | assumption].
Qed.

Lemma randomInsert_fair_cases fuel (r : R) s val :
  fair r ->
  randomInsert fuel r s val = None \/
  exists res m, randomInsert fuel r s val = Some (Returns res None, advance m r).
Proof.
  intros Hfair. unfold randomInsert. destruct s as [|c s].
  - right. now exists val, 0%nat.
  - destruct (Int_fair_cases fuel (len (c :: s) + 1) r Hfair)
      as [-> | (v & m & Hv & ->)];
      [pose proof (len_nonneg (c :: s)); lia | now left | right].
    destruct (Z.leb_spec v (len (c :: s))); [eauto | lia].
Qed.

Lemma phase_fair_cases fuel A ar n : forall i res (r : R),
  fair r -> A <> [] ->
  phase fuel A ar n i res r = None \/
  exists res' m, phase fuel A ar n i res r = Some (Returns res' None, advance m r).
Proof.
  induction fuel as [|fuel IH]; simpl; intros i res r Hfair Hne; [now left|].
  destruct (i <? n); [|right; now exists res, 0%nat].
  destruct (randomElement_fair_cases fuel r A Hfair Hne) as [-> | (c & m & Hc & ->)];
    [now left|].
  destruct (negb ar && Contains res (string_of_byte c)).
  - destruct (IH (wrap (wrap (i - 1) + 1)) res (advance m r))
      as [-> | (res' & m' & ->)]; [now apply fair_advance | assumption | now left |].
    right. exists res', (m + m')%nat. now rewrite advance_add.
  - destruct (randomInsert_fair_cases fuel (advance m r) res (string_of_byte c))
      as [-> | (res1 & m1 & ->)]; [now apply fair_advance | now left |].
    destruct (IH (wrap (i + 1)) res1 (advance m1 (advance m r)))
      as [-> | (res' & m' & ->)];
      [now do 2 apply fair_advance | assumption | now left |].
    right. exists res', (m + m1 + m')%nat. now rewrite !advance_add.
Qed.

Lemma Generate_fair_cases fuel i length numDigits numSymbols includeUpper allowRepeat
      (r : R) :
  fair r ->
  validate (NewStatefulGenerator i) length numDigits numSymbols includeUpper allowRepeat
    = None ->
  Generate fuel (NewStatefulGenerator i) length numDigits numSymbols
           includeUpper allowRepeat r = None \/
  exists s m,
    Generate fuel (NewStatefulGenerator i) length numDigits numSymbols
             includeUpper allowRepeat r = Some (Returns s None, advance m r).
Proof.
  intros Hfair Hval.
  destruct (NewStatefulGenerator_nonempty i includeUpper) as (HL & HD & HS).
  rewrite Generate_validate, Hval. unfold and_then.
  destruct (phase_fair_cases fuel (letters_of (NewStatefulGenerator i) includeUpper)
              allowRepeat (chars_of length numDigits numSymbols) 0 [] r Hfair HL)
    as [-> | (res1 & m1 & ->)]; [now left|].
  destruct (phase_fair_cases fuel (digits (NewStatefulGenerator i))
              allowRepeat numDigits 0 res1 (advance m1 r))
    as [-> | (res2 & m2 & ->)]; [now apply fair_advance | assumption | now left |].
  destruct (phase_fair_cases fuel (symbols (NewStatefulGenerator i))
              allowRepeat numSymbols 0 res2 (advance m2 (advance m1 r)))
    as [-> | (s & m3 & ->)]; [now do 2 apply fair_advance | assumption | now left |].
  right. exists s, (m1 + m2 + m3)%nat. now rewrite !advance_add.
Qed.

(** X18.  A policy that the counts cannot meet loops for ever.  For a
    generator built by the constructor whose alphabets are ASCII, and a call
    that passes the validation of [Generate]: when a symbol is required but
    no symbol is requested ([numSymbols <= 0]) and the letter and digits
    alphabets hold only letters and digits, [GenerateWithPolicy] rejects
    every result and, on a source that never fails and keeps producing
    every byte value, never returns, however long it runs. *)
Theorem GenerateWithPolicy_unsatisfiable
        (i : option GeneratorInput)
        (length numDigits numSymbols : Z) (includeUpper allowRepeat : bool)
        (needsLower needsUpper needsDigit : bool) (r : R) :
  fair r ->
  ascii_string (all_alphabets (NewStatefulGenerator i)) ->
  validate (NewStatefulGenerator i) length numDigits numSymbols includeUpper allowRepeat
    = None ->
  numSymbols <= 0 ->
  (forall c, In c (letters_of (NewStatefulGenerator i) includeUpper) \/
             In c (digits (NewStatefulGenerator i)) -> is_not_alnum c = false) ->
  forall fuel,
    GenerateWithPolicy fuel (NewStatefulGenerator i) length numDigits numSymbols
                       includeUpper allowRepeat
                       needsLower needsUpper needsDigit true r = None.
Proof.
  intros Hfair Hasc Hval Hs Halnum fuel. revert r Hfair.
  induction fuel as [|fuel IH]; simpl; intros r Hfair; [reflexivity|].
  destruct (Generate_fair_cases fuel i length numDigits numSymbols includeUpper
              allowRepeat r Hfair Hval) as [-> | (s & m & Hgen)]; [reflexivity|].
  rewrite Hgen.
  assert (Hnone : existsb is_not_alnum s = false).
  { destruct (existsb is_not_alnum s) eqn:Hex; [|reflexivity].
    apply existsb_exists in Hex. destruct Hex as (c & Hc & Hsym).
    destruct (Generate_used_alphabets _ _ _ _ _ _ _ _ _ _ Hasc Hgen c Hc)
      as [[_ Hin] | [[_ Hin] | [Hpos _]]]; [| | lia];
      rewrite Halnum in Hsym; auto; discriminate. }
  assert (Hlegal : isLegalPassword s needsLower needsUpper needsDigit true = false).
  { unfold isLegalPassword.
    destruct (contains_as_existsb s) as (_ & _ & _ & ->). rewrite Hnone.
    destruct (needsLower && negb (containsLower s)); [reflexivity|].
    destruct (needsUpper && negb (containsUpper s)); [reflexivity|].
    destruct (needsDigit && negb (containsDigit s)); reflexivity. }
  rewrite Hlegal. apply IH. now apply fair_advance.
Qed.

(** X19.  [MustGenerate] turns every error into a panic and nothing else:
    for a generator built by the constructor it panics exactly when
    [Generate] returns an error, returns a string exactly when [Generate]
    returns it with a nil error, and never returns an error itself; the
    package-level [MustGenerate] is the one of the default generator. *)
Theorem MustGenerate_panics_iff
        (fuel : nat) (i : option GeneratorInput)
        (length numDigits numSymbols : Z) (includeUpper allowRepeat : bool) (r r' : R) :
  (MustGenerate fuel (NewStatefulGenerator i) length numDigits numSymbols
                includeUpper allowRepeat r = Some (Panics, r')
   <-> exists v e,
       Generate fuel (NewStatefulGenerator i) length numDigits numSymbols
                includeUpper allowRepeat r = Some (Returns v (Some e), r')) /\
  (forall s,
      MustGenerate fuel (NewStatefulGenerator i) length numDigits numSymbols
                   includeUpper allowRepeat r = Some (Returns s None, r')
      <-> Generate fuel (NewStatefulGenerator i) length numDigits numSymbols
                   includeUpper allowRepeat r = Some (Returns s None, r')) /\
  (forall v e,
      MustGenerate fuel (NewStatefulGenerator i) length numDigits numSymbols
                   includeUpper allowRepeat r <> Some (Returns v (Some e), r')) /\
  pkg.MustGenerate fuel length numDigits numSymbols includeUpper allowRepeat r
  = MustGenerate fuel (NewStatefulGenerator None) length numDigits numSymbols
                 includeUpper allowRepeat r.
Proof.
  pose proof (Generate_no_panic fuel i length numDigits numSymbols includeUpper
                                allowRepeat r r') as Hnp.
  unfold MustGenerate.
  destruct (Generate fuel (NewStatefulGenerator i) length numDigits numSymbols
                     includeUpper allowRepeat r) as [[[res [e|]|] r1]|].
  - repeat split; try discriminate.
    + intros Heq. inv Heq. eauto.
    + intros (v & e' & Heq). now inv Heq.
  - repeat split; try discriminate; try tauto.
    intros (v & e' & Heq). discriminate.
  - repeat split; try discriminate.
    + intros Heq. inv Heq. contradiction.
    + intros (v & e' & Heq). discriminate.
  - repeat split; try discriminate.
    intros (v & e' & Heq). discriminate.
Qed.
End PolicyLoop.

Lemma class_by_forallb (p : ascii -> bool) (l : gostring) :
  forallb p l = true -> forall c, In c l -> p c = true.
Proof. intros Hall. now apply forallb_forall. Qed.

Lemma GenerateWithPolicy_forwards_errors_witness :
  GenerateWithPolicy 1 default_generator 52 11 0 true false true true true true
                     {| Counter := 0 |}
    = Some (Returns [] (Some ErrDigitsExceedsAvailable), {| Counter := 0 |}) /\
  (forall e0,
      validate default_generator 52 11 0 true false = Some e0 ->
      ErrDigitsExceedsAvailable = e0 /\ {| Counter := 0 |} = {| Counter := 0 |}).
Proof.
  apply (GenerateWithPolicy_forwards_errors 0 default_generator 52 11 0 true false
           true true true true {| Counter := 0 |} {| Counter := 0 |} []).
  reflexivity.
Defined.

Lemma GenerateWithPolicy_result_witness :
  len (str "b0q2i$s^eukwcymAgCoE") = 20 /\
  (forall x, In x (str "b0q2i$s^eukwcymAgCoE") -> In x (all_alphabets default_generator)) /\
  (false = false -> NoDup (str "b0q2i$s^eukwcymAgCoE") /\
                    testHasDuplicates (str "b0q2i$s^eukwcymAgCoE") = false).
Proof.
  apply (GenerateWithPolicy_result 100 default_generator 20 2 2 true false
           true true true true {| Counter := 0 |} {| Counter := 39 |}).
  - exact default_alphabets_ascii.
  - lia.
  - lia.
  - lia.
  - unfold max_int. lia.
  - vm_compute. reflexivity.
Defined.

Lemma GenerateWithPolicy_unsatisfiable_witness :
  GenerateWithPolicy 1000 (NewStatefulGenerator None) 8 2 0 true true
                     false false false true {| Counter := 0 |} = None.
Proof.
  apply (GenerateWithPolicy_unsatisfiable None 8 2 0 true true false false false
           {| Counter := 0 |}).
  - apply MockReader_fair.
  - exact default_alphabets_ascii.
  - reflexivity.
  - lia.
  - intros c Hc. apply in_or_app in Hc.
    apply negb_true_iff.
    revert c Hc. apply class_by_forallb. reflexivity.
Defined.

(** ** The fixtures of the test suite *)

Lemma wrap_add_l a b : wrap (wrap a + b) = wrap (a + b).
Proof.
  unfold wrap.
  replace ((a + 2 ^ 63) mod 2 ^ 64 - 2 ^ 63 + b + 2 ^ 63)
    with ((a + 2 ^ 63) mod 2 ^ 64 + b) by lia.
  rewrite Zplus_mod_idemp_l. f_equal. f_equal. lia.
Qed.

(** X20.  The counting reader: from the counter value [c], the read
    number [n] (from zero) delivers the byte [c + n + 1] modulo 256 and
    never an error, so the byte stream has period 256; the counter itself
    advances by one per byte and wraps around as an [int64]. *)
Theorem MockReader_stream (c : Z) (n : nat) :
  nth_read n {| Counter := c |} = inl (byte_of_Z (c + Z.of_nat n + 1)) /\
  nth_read (n + 256) {| Counter := c |} = nth_read n {| Counter := c |} /\
  Counter (advance (S n) {| Counter := c |}) = wrap (c + Z.of_nat (S n)).
Proof.
  split; [apply MockReader_nth_read|]. split.
  - rewrite !MockReader_nth_read. f_equal. apply byte_of_Z_mod.
    replace (c + Z.of_nat (n + 256) + 1) with (c + Z.of_nat n + 1 + 1 * 256) by lia.
    apply Z_mod_plus_full.
  - revert c. induction n as [|n IH]; intros c.
    + reflexivity.
    + change (advance (S (S n)) {| Counter := c |})
        with (advance (S n) {| Counter := wrap (c + 1) |}).
      rewrite IH, wrap_add_l. f_equal. lia.
Qed.

(** X21.  [testHasDuplicates] reports a duplicate exactly when two runes of
    the string, as ranging over it decodes them, are equal; on an ASCII
    string that is exactly when a byte occurs twice. *)
Theorem testHasDuplicates_iff (s : gostring) :
  (testHasDuplicates s = false <-> NoDup (runes s)) /\
  (ascii_string s -> (testHasDuplicates s = false <-> NoDup s)).
Proof.
  assert (Hiff : testHasDuplicates s = false <-> NoDup (runes s)).
  { unfold testHasDuplicates. rewrite hasDuplicates_from_false. intuition. }
  split; [exact Hiff|].
  intros Hasc. rewrite Hiff, (runes_ascii s Hasc). split.
  - apply NoDup_map_inv.
  - apply NoDup_map_byte_val.
Qed.

(** ** The package-level [Generate] *)

Lemma agree_by_forallb (f g : ascii -> bool) (l : gostring) :
  forallb (fun a => Bool.eqb (f a) (g a)) l = true ->
  forall a, In a l -> f a = g a.
Proof.
  intros Hall a Ha. rewrite forallb_forall in Hall.
  now apply Bool.eqb_prop, Hall.
Qed.

Lemma count_in_class A (p : ascii -> bool) s :
  (forall a, In a s -> mem a A = p a) ->
  Z.of_nat (count_in A s) = count_class p s.
Proof.
  intros Hagree. unfold count_in, count_class, len.
  now rewrite (filter_ext_in _ _ _ Hagree).
Qed.

(** X22.  What the package-level [Generate] returns with a nil error: a
    string with exactly [numDigits] digits, [numSymbols] characters outside
    [A-Za-z0-9] (a negative count standing for none) and
    [length - numDigits - numSymbols] letters, all taken from the built-in
    alphabets; without [includeUpper] no uppercase letter, and without
    [allowRepeat] no character twice. *)
Theorem pkg_Generate_composition
        {R : Type} `{Reader R} (fuel : nat)
        (length numDigits numSymbols : Z) (includeUpper allowRepeat : bool)
        (r r' : R) (s : gostring) :
  numDigits <= max_int -> numSymbols <= max_int ->
  pkg.Generate fuel length numDigits numSymbols includeUpper allowRepeat r
    = Some (Returns s None, r') ->
  count_class is_letter s = chars_of length numDigits numSymbols /\
  count_class is_digit s = Z.max 0 numDigits /\
  count_class is_not_alnum s = Z.max 0 numSymbols /\
  (forall x, In x s -> In x (LowerLetters ++ UpperLetters ++ Digits ++ Symbols)) /\
  (includeUpper = false -> existsb is_upper s = false) /\
  (allowRepeat = false -> NoDup s).
Proof.
  unfold pkg.Generate. intros Hd Hs Hrun.
  change (NewStatefulGenerator None) with default_generator in Hrun.
  pose proof default_alphabets_ascii as Hasc.
  assert (Hfrom : forall x, In x s ->
             In x (letters_of default_generator includeUpper ++ Digits ++ Symbols)).
  { intros x Hx.
    destruct (Generate_used_alphabets _ _ _ _ _ _ _ _ _ _ Hasc Hrun x Hx)
      as [[_ Hin] | [[_ Hin] | [_ Hin]]]; rewrite !in_app_iff; auto. }
  destruct (Generate_class_counts fuel default_generator length numDigits numSymbols
              includeUpper allowRepeat r r' s Hasc) as (HcL & HcD & HcS);
    try assumption;
    try (apply disjoint_by_mem; destruct includeUpper; reflexivity).
  repeat split.
  - rewrite <- HcL. symmetry. apply count_in_class. intros a Ha.
    apply Hfrom in Ha. revert a Ha. apply agree_by_forallb.
    destruct includeUpper; reflexivity.
  - rewrite <- HcD. symmetry. apply count_in_class. intros a Ha.
    apply Hfrom in Ha. revert a Ha. apply agree_by_forallb.
    destruct includeUpper; reflexivity.
  - rewrite <- HcS. symmetry. apply count_in_class. intros a Ha.
    apply Hfrom in Ha. revert a Ha. apply agree_by_forallb.
    destruct includeUpper; reflexivity.
  - intros x Hx. exact (Generate_incl _ _ _ _ _ _ _ _ _ _ Hasc Hrun x Hx).
  - intros ->. destruct (existsb is_upper s) eqn:Hex; [|reflexivity].
    apply existsb_exists in Hex. destruct Hex as (c & Hc & Hup).
    apply Hfrom in Hc.
    pose proof (class_by_forallb (fun a => negb (is_upper a))
                  (letters_of default_generator false ++ Digits ++ Symbols)
                  eq_refl c Hc) as Hlow.
    cbv beta in Hlow. rewrite Hup in Hlow. discriminate.
  - intros ->. eauto using Generate_NoDup.
Qed.

Lemma pkg_Generate_composition_witness :
  count_class is_letter (str "b0q2i$s^eukwcymAgCoE") = chars_of 20 2 2 /\
  count_class is_digit (str "b0q2i$s^eukwcymAgCoE") = Z.max 0 2 /\
  count_class is_not_alnum (str "b0q2i$s^eukwcymAgCoE") = Z.max 0 2 /\
  (forall x, In x (str "b0q2i$s^eukwcymAgCoE") ->
             In x (LowerLetters ++ UpperLetters ++ Digits ++ Symbols)) /\
  (true = false -> existsb is_upper (str "b0q2i$s^eukwcymAgCoE") = false) /\
  (false = false -> NoDup (str "b0q2i$s^eukwcymAgCoE")).
Proof.
  apply (pkg_Generate_composition 100 20 2 2 true false
           {| Counter := 0 |} {| Counter := 39 |}).
  - unfold max_int. lia.
  - unfold max_int. lia.
  - vm_compute. reflexivity.
Defined.

(** ** Replaying a call *)







(** ** The length check, where the difference does not wrap around *)

(** X24.  Provided [length - numDigits - numSymbols] is representable as an
    [int], the validation raises [ErrExceedsTotalLength] exactly when
    [numDigits + numSymbols > length]; and on a reader that never reports
    one of the package's four precondition errors itself, [Generate] returns
    that error exactly then, with the empty string and the reader
    untouched. *)
Theorem ExceedsTotalLength_iff
        {R : Type} `{Reader R} (fuel : nat) (g : StatefulGenerator)
        (length numDigits numSymbols : Z) (includeUpper allowRepeat : bool) (r : R) :
  go_int (length - numDigits - numSymbols) ->
  (validate g length numDigits numSymbols includeUpper allowRepeat
     = Some ErrExceedsTotalLength
   <-> numDigits + numSymbols > length) /\
  (foreign_errors r ->
   ((exists v r',
        Generate fuel g length numDigits numSymbols includeUpper allowRepeat r
          = Some (Returns v (Some ErrExceedsTotalLength), r'))
    <-> numDigits + numSymbols > length) /\
   (forall v r',
       Generate fuel g length numDigits numSymbols includeUpper allowRepeat r
         = Some (Returns v (Some ErrExceedsTotalLength), r') ->
       v = [] /\ r' = r)).
Proof.
  intros Hrange.
  pose proof (validate_exceeds_iff g length numDigits numSymbols includeUpper allowRepeat)
    as Hiff.
  rewrite (chars_of_exact _ _ _ Hrange) in Hiff.
  split; [rewrite Hiff; lia|].
  intros Hfor. split; [split|].
  - intros (v & r' & Hrun).
    apply (precondition_error_validate _ _ _ _ _ _ _ _ _ _ _ Hfor) in Hrun;
      [|reflexivity].
    destruct Hrun as (Hv & _). apply Hiff in Hv. lia.
  - intros Hgt. exists [], r. apply validate_fails, Hiff. lia.
  - intros v r' Hrun.
    apply (precondition_error_validate _ _ _ _ _ _ _ _ _ _ _ Hfor) in Hrun;
      [|reflexivity].
    tauto.
Qed.

Lemma ExceedsTotalLength_iff_witness :
  (validate default_generator 0 1 0 true false = Some ErrExceedsTotalLength
   <-> 1 + 0 > 0) /\
  ((exists v r',
       Generate 0 default_generator 0 1 0 true false {| Counter := 0 |}
         = Some (Returns v (Some ErrExceedsTotalLength), r'))
   <-> 1 + 0 > 0) /\
  (forall v r',
      Generate 0 default_generator 0 1 0 true false {| Counter := 0 |}
        = Some (Returns v (Some ErrExceedsTotalLength), r') ->
      v = [] /\ r' = {| Counter := 0 |}).
Proof.
  destruct (ExceedsTotalLength_iff 0 default_generator 0 1 0 true false
              {| Counter := 0 |}) as [Hval Hret].
  - unfold go_int, min_int, max_int. lia.
  - split; [exact Hval|].
    apply Hret, fair_foreign_errors, MockReader_fair.
Defined.
